(** * Bounce Runner: the simulated leaderboard of [GameOverlay.tsx]

    A shallow embedding of the leaderboard code of
    [src/components/BounceRunner/GameOverlay.tsx]: the entry generator
    [generateLeaderboardEntries], the two React effects of the [GameOverlay]
    component (seeding on a status change, the 3-second interval), the rank
    lookup and the milestone lookup.

    Modelling conventions.
    - A JavaScript [number] is an IEEE double; the finite doubles are
      rationals, and a number of the model is a rational ([Q]).  Where the code
      computes a score or an index from a draw, each operation rounds its exact
      result to the nearest double, ties to even ([JS.fl], and [JS.add],
      [JS.sub], [JS.mul] on it), and a decimal literal is the double nearest
      to it.  Comparisons, [Math.max], [Math.min] and [Math.floor] are exact
      on doubles as they are on rationals.  The differences that the code only
      compares or displays (the comparator of the sort, the distance to a
      milestone, the percentage of the progress bar) and the numbers of the
      audio manager are taken without rounding.  NaN and the infinities are
      outside the model: where a double would overflow, the model has the
      rounded rational.
    - [Math.random] reads the next element of a sequence of draws
      ([source := nat -> Q]); the position in the sequence is the state that is
      threaded through the code by the monad [Rand].
    - An array is a [list]; an array read out of range gives [undefined],
      which is [None] in [option string].
    - [Set<string>] is stdpp's [gset].
    - [while] loops take a bound on their number of iterations; running out
      of it is the result [None] of the monad. *)

From Stdlib Require Import ZArith QArith Qround Qminmax Qabs Qpower Lia Lqa.
From Stdlib Require Import Sorting.Sorted Sorting.Permutation.
From stdpp Require Import base option list gmap strings sorting.

Local Open Scope Z_scope.

(** ** JavaScript numbers and arrays *)

Module JS.

(** [a > b] on numbers. *)
Definition gt (a b : Q) : bool := negb (Qle_bool a b).

(** [a < b] on numbers. *)
Definition lt (a b : Q) : bool := negb (Qle_bool b a).

(** *** Doubles

    A finite double is [m * 2^e] for integers [m] and [e] with
    [|m| <= 2^53] and [e >= -1074]. *)
Definition is_double (d : Q) : Prop :=
  exists m e : Z,
    (-1074 <= e)%Z /\ (Z.abs m <= 2 ^ 53)%Z /\ (d == inject_Z m * 2 ^ e)%Q.

(** The integer [k] with [2^k <= x < 2^(k+1)], for [x > 0]. *)
Definition ilog2 (x : Q) : Z :=
  let k := (Z.log2 (Qnum x) - Z.log2 (Zpos (Qden x)))%Z in
  if Qle_bool (2 ^ k) x then k else (k - 1)%Z.

(** The integer nearest to [y]; of two that are equally near, the even
    one. *)
Definition round_half_even (y : Q) : Z :=
  let f := Qfloor y in
  match (y - inject_Z f ?= 1 # 2)%Q with
  | Lt => f
  | Gt => (f + 1)%Z
  | Eq => if Z.even f then f else (f + 1)%Z
  end.

(** The exponent of the unit in the last place of the doubles around [x]:
    53 bits for the significand, and not below that of the subnormal
    numbers. *)
Definition ulp_exponent (x : Q) : Z :=
  Z.max (ilog2 (Qabs x) - 52) (-1074).

(** The double nearest to [x], ties to even: the rounding of every
    arithmetic operation on numbers. *)
Definition fl (x : Q) : Q :=
  if Qeq_bool x 0 then 0%Q
  else
    let e := ulp_exponent x in
    Qred (inject_Z (round_half_even (x / 2 ^ e)) * 2 ^ e)%Q.

(** [a + b], [a - b] and [a * b] on numbers. *)
Definition add (a b : Q) : Q := fl (a + b).

Definition sub (a b : Q) : Q := fl (a - b).

Definition mul (a b : Q) : Q := fl (a * b).

(** [Math.floor], whose result is an integer. *)
Definition Math_floor (x : Q) : Z := Qfloor x.

(** [Math.max] of two numbers. *)
Definition Math_max (a b : Q) : Q := Qmax a b.

(** [arr[i]] for an integer [i]: [undefined] out of range. *)
Definition get {A} (arr : list A) (i : Z) : option A :=
  if (i <? 0)%Z then None else arr !! Z.to_nat i.

(** [arr.slice(0, n)]. *)
Definition slice0 {A} (arr : list A) (n : nat) : list A := take n arr.

(** The index that [slice] makes of an integer argument: a negative one
    counts from the end, and the result is kept within the array. *)
Definition slice_index (len i : Z) : Z :=
  if (i <? 0)%Z then Z.max (len + i) 0 else Z.min i len.

(** [arr.slice(a, b)] for integers [a] and [b]. *)
Definition slice {A} (arr : list A) (a b : Z) : list A :=
  let len := Z.of_nat (length arr) in
  let from := slice_index len a in
  let to := slice_index len b in
  take (Z.to_nat (to - from)) (drop (Z.to_nat from) arr).

(** [arr.findIndex(p)]: the first index whose element satisfies [p],
    and -1 when there is none. *)
Fixpoint findIndex_from {A} (p : A -> bool) (arr : list A) (i : Z) : Z :=
  match arr with
  | [] => -1
  | x :: rest => if p x then i else findIndex_from p rest (i + 1)
  end.

Definition findIndex {A} (p : A -> bool) (arr : list A) : Z :=
  findIndex_from p arr 0.

(** [arr.sort(cmp)]: the sort of ECMAScript 2019 is stable, and there is
    one stable sort of a list for a consistent comparator.  It is computed
    here by insertion from the right: [x] is moved behind the elements
    [y] with [cmp x y > 0] and stays in front of the others. *)
Fixpoint sort_insert {A} (cmp : A -> A -> Q) (x : A) (sorted : list A) : list A :=
  match sorted with
  | [] => [x]
  | y :: rest =>
      if gt (cmp x y) 0 then y :: sort_insert cmp x rest
      else x :: y :: rest
  end.

Fixpoint sort {A} (cmp : A -> A -> Q) (arr : list A) : list A :=
  match arr with
  | [] => []
  | x :: rest => sort_insert cmp x (sort cmp rest)
  end.

End JS.

(** ** The random source and its monad *)

Definition source := nat -> Q.

(** A computation that draws from the source: it reads the sequence from a
    position and returns its result with the next position, or [None] when a
    loop ran out of its bound. *)
Definition Rand (A : Type) : Type := source -> nat -> option (A * nat).

#[export] Instance Rand_ret : MRet Rand := fun A a _ k => Some (a, k).

#[export] Instance Rand_bind : MBind Rand := fun A B f m src k =>
  match m src k with
  | Some (a, k') => f a src k'
  | None => None
  end.

(** [Math.random()]. *)
Definition Math_random : Rand Q := fun src k => Some (src k, S k).

(** A loop that is still running when its bound is reached. *)
Definition out_of_fuel {A} : Rand A := fun _ _ => None.

(** ** Data *)

Record LeaderboardEntry : Type := mkEntry {
  username : option string;
  score : Q;
  isNew : bool
}.

(** Modelled from the spec: the enum [GameStatus] of [../../types], of which
    the component uses [MENU], [PLAYING] and [GAME_OVER]. *)
Inductive GameStatus : Type := MENU | PLAYING | GAME_OVER.

(** Modelled from the spec: an element of the table [THEMES] of
    [../../constants]; the code reads [id], [name], [primary] and
    [unlockScore]. *)
Record Theme : Type := mkTheme {
  id : string;
  name : string;
  primary : string;
  unlockScore : Q
}.

(** The comparator [(a, b) => b.score - a.score]. *)
Definition by_score_desc (a b : LeaderboardEntry) : Q := (score b - score a)%Q.

Definition YOU : option string := Some "YOU"%string.

Section Leaderboard.

(** The name pool [FICTIONAL_USERNAMES] of [../../constants]. *)
Variable FICTIONAL_USERNAMES : list string.

(** [FICTIONAL_USERNAMES[Math.floor(Math.random() * FICTIONAL_USERNAMES.length)]] *)
Definition name_of_draw (u : Q) : option string :=
  JS.get FICTIONAL_USERNAMES
    (JS.Math_floor
       (JS.mul u (inject_Z (Z.of_nat (length FICTIONAL_USERNAMES))))).

Definition random_username : Rand (option string) :=
  u ← Math_random; mret (name_of_draw u).

(** [while (usedNames.has(username)) { username = ... }] *)
Fixpoint redraw (fuel : nat) (usedNames : gset (option string))
    (username : option string) : Rand (option string) :=
  if decide (username ∈ usedNames) then
    match fuel with
    | O => out_of_fuel
    | S fuel' =>
        username' ← random_username;
        redraw fuel' usedNames username'
    end
  else mret username.

Definition baseScore_of (playerScore : Q) : Q :=
  if JS.gt playerScore 100 then playerScore else 500%Q.

(** [Math.max(50, Math.floor(baseScore + (u - 0.3) * variance))], where
    [variance] is [baseScore * 0.8]; [0.8] and [0.3] are the doubles nearest
    to these decimals. *)
Definition score_of_draw (playerScore u : Q) : Q :=
  let baseScore := baseScore_of playerScore in
  let variance := JS.mul baseScore (JS.fl 0.8) in
  let randomScore :=
    JS.Math_floor
      (JS.add baseScore (JS.mul (JS.sub u (JS.fl 0.3)) variance)) in
  JS.Math_max 50 (inject_Z randomScore).

(** The body of [for (let i = 0; i < 15; i++)], [n] iterations to go. *)
Fixpoint generate_loop (fuel n : nat) (playerScore : Q)
    (entries : list LeaderboardEntry) (usedNames : gset (option string))
    : Rand (list LeaderboardEntry) :=
  match n with
  | O => mret entries
  | S n' =>
      username0 ← random_username;
      username ← redraw fuel usedNames username0;
      let usedNames' := {[ username ]} ∪ usedNames in
      u ← Math_random;
      v ← Math_random;
      generate_loop fuel n' playerScore
        (entries ++ [ {| username := username;
                         score := score_of_draw playerScore u;
                         isNew := JS.gt v 0.7 |} ])
        usedNames'
  end.

Definition generateLeaderboardEntries (fuel : nat) (playerScore : Q)
    : Rand (list LeaderboardEntry) :=
  entries ← generate_loop fuel 15 playerScore [] ∅;
  mret (JS.sort by_score_desc entries).

(** *** The component state

    [leaderboard] and [visibleStartIndex] are the two [useState] cells,
    [leaderboardRef] is the [useRef] cell. *)
Record OverlayState : Type := mkState {
  leaderboard : list LeaderboardEntry;
  visibleStartIndex : Z;
  leaderboardRef : list LeaderboardEntry
}.

(** The state at mount: [useState([])], [useState(0)], [useRef([])]. *)
Definition initialState : OverlayState :=
  {| leaderboard := []; visibleStartIndex := 0; leaderboardRef := [] |}.

(** The entry of the player that the GAME_OVER branch pushes. *)
Definition playerEntry (score : Q) : LeaderboardEntry :=
  {| username := YOU; score := score; isNew := true |}.

(** [entries.push(playerEntry); entries.sort(...)] *)
Definition mergePlayer (entries : list LeaderboardEntry) (score : Q)
    : list LeaderboardEntry :=
  JS.sort by_score_desc (entries ++ [playerEntry score]).

(** The first effect, which runs when [status], [score] or [highScore]
    changed. *)
Definition seedEffect (fuel : nat) (status : GameStatus) (score highScore : Q)
    (st : OverlayState) : Rand OverlayState :=
  match status with
  | PLAYING =>
      entries ← generateLeaderboardEntries fuel score;
      mret {| leaderboard := entries;
              visibleStartIndex := visibleStartIndex st;
              leaderboardRef := entries |}
  | GAME_OVER =>
      entries ← generateLeaderboardEntries fuel (JS.Math_max score highScore);
      let entries := mergePlayer entries score in
      mret {| leaderboard := entries;
              visibleStartIndex := visibleStartIndex st;
              leaderboardRef := entries |}
  | MENU => mret st
  end.

(** [Math.max(50, Math.floor(score * (0.5 + u)))] *)
Definition live_score_of_draw (score u : Q) : Q :=
  JS.Math_max 50 (inject_Z (JS.Math_floor (JS.mul score (JS.add 0.5 u)))).

(** [[newEntry, ...leaderboardRef.current.slice(0, 14)].sort(...)] *)
Definition insertLive (newEntry : LeaderboardEntry)
    (current : list LeaderboardEntry) : list LeaderboardEntry :=
  JS.sort by_score_desc (newEntry :: JS.slice0 current 14).

(** [prev => (prev + 1) % Math.max(1, leaderboardRef.current.length - 3)];
    [%] is the truncated remainder. *)
Definition rotate (len : nat) (prev : Z) : Z :=
  Z.rem (prev + 1) (Z.max 1 (Z.of_nat len - 3)).

(** One run of the callback of [setInterval], which is installed while
    [status] is [PLAYING]. *)
Definition tick (score : Q) (st : OverlayState) : Rand OverlayState :=
  r ← Math_random;
  st1 ← (if JS.gt r 0.5 then
           newUsername ← random_username;
           u ← Math_random;
           let newEntry := {| username := newUsername;
                              score := live_score_of_draw score u;
                              isNew := true |} in
           let current := insertLive newEntry (leaderboardRef st) in
           mret {| leaderboard := current;
                   visibleStartIndex := visibleStartIndex st;
                   leaderboardRef := current |}
         else mret st);
  mret {| leaderboard := leaderboard st1;
          visibleStartIndex :=
            rotate (length (leaderboardRef st1)) (visibleStartIndex st1);
          leaderboardRef := leaderboardRef st1 |}.

(** [visibleLeaderboard] *)
Definition visibleLeaderboard (status : GameStatus) (st : OverlayState)
    : list LeaderboardEntry :=
  match status with
  | PLAYING =>
      JS.slice (leaderboard st) (visibleStartIndex st)
               (visibleStartIndex st + 4)
  | _ => JS.slice0 (leaderboard st) 10
  end.

(** The rank of the entry named [ident]:
    [leaderboard.findIndex(entry => entry.username === ident) + 1]. *)
Definition rankOf (ident : option string) (snapshot : list LeaderboardEntry) : Z :=
  JS.findIndex (fun entry => bool_decide (username entry = ident)) snapshot + 1.

(** [playerRank] *)
Definition playerRank (st : OverlayState) : Z := rankOf YOU (leaderboard st).

End Leaderboard.

(** ** Milestones *)

Section Milestones.

(** The tier table [THEMES] of [../../constants]. *)
Variable THEMES : list Theme.

(** [for (const theme of themes) { if (best < theme.unlockScore) return ... }] *)
Fixpoint nextMilestoneIn (themes : list Theme) (score highScore : Q)
    : option (Theme * Q) :=
  match themes with
  | [] => None
  | theme :: rest =>
      if JS.lt (JS.Math_max score highScore) (unlockScore theme)
      then Some (theme, (unlockScore theme - JS.Math_max score highScore)%Q)
      else nextMilestoneIn rest score highScore
  end.

Definition getNextMilestone (score highScore : Q) : option (Theme * Q) :=
  nextMilestoneIn THEMES score highScore.

End Milestones.

(** ** The component as a transition system

    A render in which [status], [score] or [highScore] changed runs the
    first effect; the interval fires only while [status] is [PLAYING], with
    the [score] of the render that installed it.  [step] is the component
    once the effect of an event has run: the new props with the state that
    the effect set.  The renders that React commits on the way, among them
    the render of the new props with the state as it was, are those of
    [commits] below. *)

Inductive Event : Type :=
| Props (status : GameStatus) (score highScore : Q)
| IntervalFires.

Record Component : Type := mkComponent {
  props_status : GameStatus;
  props_score : Q;
  props_highScore : Q;
  hooks : OverlayState
}.

(** The component when it is created, before its first effects. *)
Definition created : Component :=
  {| props_status := MENU; props_score := 0; props_highScore := 0;
     hooks := initialState |}.

Section Run.

Variable pool : list string.

Definition step (fuel : nat) (c : Component) (ev : Event) : Rand Component :=
  match ev with
  | Props status score highScore =>
      st ← seedEffect pool fuel status score highScore (hooks c);
      mret {| props_status := status; props_score := score;
              props_highScore := highScore; hooks := st |}
  | IntervalFires =>
      match props_status c with
      | PLAYING =>
          st ← tick pool (props_score c) (hooks c);
          mret {| props_status := props_status c;
                  props_score := props_score c;
                  props_highScore := props_highScore c; hooks := st |}
      | _ => mret c
      end
  end.

Fixpoint run (fuel : nat) (evs : list Event) (c : Component) : Rand Component :=
  match evs with
  | [] => mret c
  | ev :: rest => c1 ← step fuel c ev; run fuel rest c1
  end.

(** [n] firings of the interval in a row. *)
Fixpoint ticks (n : nat) (score : Q) (st : OverlayState) : Rand OverlayState :=
  match n with
  | O => mret st
  | S n' => st1 ← tick pool score st; ticks n' score st1
  end.

End Run.

(** ** Vocabulary of the properties *)

(** Non-increasing order of the scores: every entry has a score at least
    that of every later entry. *)
Definition score_ge (a b : LeaderboardEntry) : Prop := (score b <= score a)%Q.

Definition descending (l : list LeaderboardEntry) : Prop :=
  StronglySorted score_ge l.

(** The state after the insert of a tick, before the rotation. *)
Definition afterInsert (pool : list string) (score : Q) (st : OverlayState)
    (src : source) (k : nat) : OverlayState * nat :=
  if JS.gt (src k) 0.5 then
    let current :=
      insertLive {| username := name_of_draw pool (src (S k));
                    score := live_score_of_draw score (src (S (S k)));
                    isNew := true |} (leaderboardRef st) in
    ({| leaderboard := current; visibleStartIndex := visibleStartIndex st;
        leaderboardRef := current |}, S (S (S k)))
  else (st, S k).

(** The score floor of the synthetic entries. *)
Definition floor50 (e : LeaderboardEntry) : Prop := (50 <= score e)%Q.

(** What holds of the component after every event: the two copies of the
    store agree and are in descending order, the index of the window is below
    12, and the store of a run in progress has 15 entries, all at least 50. *)
Definition component_ok (c : Component) : Prop :=
  leaderboard (hooks c) = leaderboardRef (hooks c) /\
  descending (leaderboardRef (hooks c)) /\
  0 <= visibleStartIndex (hooks c) < 12 /\
  (props_status c = PLAYING ->
   length (leaderboardRef (hooks c)) = 15%nat /\
   Forall floor50 (leaderboardRef (hooks c))).

(** The events that are renders. *)
Definition is_Props (ev : Event) : Prop :=
  match ev with Props _ _ _ => True | IntervalFires => False end.

(** The live insert in the words of the specification: prepend the new
    entry, keep the first 15 of the result (the new entry and the first 14 of
    the prior order), sort again. *)
Definition insertLive_as_specified (newEntry : LeaderboardEntry)
    (current : list LeaderboardEntry) : list LeaderboardEntry :=
  JS.sort by_score_desc (take 15 (newEntry :: current)).

(** The positions of the score draws of a run of the loop that starts at
    position [k] and ends at [k']: an iteration draws names from [k] on, then
    the score at some [i > k] and the flag at [i + 1]. *)
Inductive score_draws : nat -> list nat -> nat -> Prop :=
| score_draws_nil (k : nat) : score_draws k [] k
| score_draws_cons (k i : nat) (rest : list nat) (k' : nat) :
    (k < i)%nat -> score_draws (S (S i)) rest k' ->
    score_draws k (i :: rest) k'.

Section Vocabulary.

Variable pool : list string.

(** The entry of the iteration whose score draw is at position [i]: the
    name comes from the draw before it, the flag from the draw after it. *)
Definition entry_at (playerScore : Q) (src : source) (i : nat)
    : LeaderboardEntry :=
  {| username := name_of_draw pool (src (pred i));
     score := score_of_draw playerScore (src i);
     isNew := JS.gt (src (S i)) 0.7 |}.

(** The distinct names of the pool. *)
Definition pool_names : gset (option string) :=
  list_to_set (map Some pool).

(** The draws of a uniform source are in [0, 1). *)
Definition in_unit_interval (src : source) : Prop :=
  forall k, (0 <= src k < 1)%Q.

(** A fair source selects every index of the pool again after every
    position; a sequence of independent uniform draws does, with
    probability one. *)
Definition fair (src : source) : Prop :=
  forall (k i : nat), (i < length pool)%nat ->
    exists k', (k <= k')%nat /\
      JS.Math_floor (JS.mul (src k') (inject_Z (Z.of_nat (length pool))))
      = Z.of_nat i.

End Vocabulary.

(** ** The renders that React commits

    React commits a render before it runs the effects of that render.  A
    render with new props shows these props with the state of the hooks that
    the event before left; the first effect runs after it, and the state that
    it sets is shown by the next render.  The callback of the interval sets
    the store and the index of the window one after the other: the two are
    rendered together where React batches the updates of a timer, and the
    store first where it does not. *)

(** The render of new props, before its effects. *)
Definition render (c : Component) (status : GameStatus) (score highScore : Q)
    : Component :=
  {| props_status := status; props_score := score;
     props_highScore := highScore; hooks := hooks c |}.


Section Commits.

Variable pool : list string.



End Commits.



(** No entry of the store is named YOU. *)
Definition no_player (st : OverlayState) : Prop :=
  Forall (fun e => username e <> YOU) (leaderboard st).

(** ** The rest of the render *)

Module JSMore.

(** [a >= b] on numbers. *)
Definition ge (a b : Q) : bool := Qle_bool b a.

(** [Math.min] of two numbers. *)
Definition Math_min (a b : Q) : Q := Qmin a b.

(** [arr.find(p)]: the first element that satisfies [p], [undefined] when
    there is none. *)
Fixpoint find {A} (p : A -> bool) (arr : list A) : option A :=
  match arr with
  | [] => None
  | x :: rest => if p x then Some x else find p rest
  end.

(** [arr.map((x, idx) => f x idx)], from index [i] on. *)
Fixpoint map_indexed_from {A B} (f : A -> Z -> B) (arr : list A) (i : Z)
    : list B :=
  match arr with
  | [] => []
  | x :: rest => f x i :: map_indexed_from f rest (i + 1)
  end.

Definition map_indexed {A B} (f : A -> Z -> B) (arr : list A) : list B :=
  map_indexed_from f arr 0.

End JSMore.

Section Render.

Variable THEMES : list Theme.

(** [THEMES.find(t => t.id === currentThemeId) || THEMES[0]]: a theme is an
    object, which is never falsy, so the right operand is taken exactly when
    [find] gives [undefined]. *)
Definition currentTheme (currentThemeId : string) : option Theme :=
  match JSMore.find (fun t => String.eqb (id t) currentThemeId) THEMES with
  | Some t => Some t
  | None => JS.get THEMES 0
  end.

(** [THEMES.filter(t => Math.max(score, highScore) >= t.unlockScore)] *)
Definition unlockedThemes (score highScore : Q) : list Theme :=
  List.filter
    (fun t => JSMore.ge (JS.Math_max score highScore) (unlockScore t)) THEMES.

(** [THEMES.find(t => score >= t.unlockScore && highScore < t.unlockScore)] *)
Definition newUnlock (score highScore : Q) : option Theme :=
  JSMore.find
    (fun t => JSMore.ge score (unlockScore t) && JS.lt highScore (unlockScore t))
    THEMES.

(** [score > highScore] *)
Definition isNewRecord (score highScore : Q) : bool := JS.gt score highScore.

(** The width of the progress bar towards [theme], in percent:
    [Math.min(100, (Math.max(score, highScore) / theme.unlockScore) * 100)].
    A division by 0 gives an infinity or NaN; [Math.min] of 100 and +Infinity
    is 100, and the other results are no numbers of the model ([None]). *)
Definition progressWidth (score highScore : Q) (theme : Theme) : option Q :=
  let best := JS.Math_max score highScore in
  if Qeq_bool (unlockScore theme) 0 then
    if JS.gt best 0 then Some 100%Q else None
  else Some (JSMore.Math_min 100 (best / unlockScore theme * 100)).

End Render.

(** The caption under the rank:
    [playerRank === 1 ? 'CHAMPION!' : `Out of ${leaderboard.length} players`]. *)
Inductive RankCaption : Type :=
| Champion
| OutOf (players : nat).

(** The rank display of the GAME_OVER screen, which is rendered when
    [playerRank > 0]: the rank and its caption. *)
Definition rankDisplay (st : OverlayState) : option (Z * RankCaption) :=
  let rank := playerRank st in
  if 0 <? rank then
    Some (rank, if rank =? 1 then Champion else OutOf (length (leaderboard st)))
  else None.

(** A row of the list of the GAME_OVER screen: the number [#{idx + 1}], the
    test [isPlayer], and whether the row pulses ([entry.isNew && !isPlayer]). *)
Record GameOverRow : Type := mkRow {
  row_number : Z;
  row_isPlayer : bool;
  row_pulse : bool;
  row_entry : LeaderboardEntry
}.

(** [visibleLeaderboard.map((entry, idx) => ...)] of the GAME_OVER screen. *)
Definition gameOverRows (st : OverlayState) : list GameOverRow :=
  JSMore.map_indexed
    (fun entry idx =>
       let isPlayer := bool_decide (username entry = YOU) in
       {| row_number := idx + 1;
          row_isPlayer := isPlayer;
          row_pulse := isNew entry && negb isPlayer;
          row_entry := entry |})
    (visibleLeaderboard GAME_OVER st).

(** What the GAME_OVER branch of the first effect leaves, for the invariant
    of the runs: the store is the merge of the entry of the player into a list
    that the generator returned for the best score. *)
Definition game_over_ok (pool : list string) (fuel : nat) (src : source)
    (c : Component) : Prop :=
  props_status c = GAME_OVER ->
  exists synthetic k0 k1,
    generateLeaderboardEntries pool fuel
      (JS.Math_max (props_score c) (props_highScore c)) src k0
      = Some (synthetic, k1) /\
    leaderboard (hooks c) = mergePlayer synthetic (props_score c).

(** A table of tiers in ascending order of the thresholds. *)
Definition ascending (themes : list Theme) : Prop :=
  StronglySorted (fun a b => (unlockScore a <= unlockScore b)%Q) themes.

(** ** The audio manager of [src/utils/audioManager.ts]

    The Web Audio objects belong to the browser.  A method of the manager is
    modelled by the calls it makes on them, in order: the objects are handles,
    numbered as they are created, and what the code reads from the browser
    (whether an [AudioContext] class exists, the state of the context, the
    clock, the sample rate, [Math.random]) is given by a [Browser].  The
    calls on the objects are taken to return; the exception of the model is
    the one of the language, for [new] on a class that does not exist. *)

Module Audio.

Definition handle := nat.

Inductive ContextState : Type := suspended | running | closed.

(** The [AudioParam]s that the code uses: [node.frequency], [node.gain]. *)
Inductive Param : Type := frequency | gain.

(** Where a node is connected to: another node, or [ctx.destination]. *)
Inductive Target : Type :=
| to_node (n : handle)
| to_destination (ctx : handle).

Inductive Call : Type :=
| new_AudioContext (ctx : handle)
| createGain (ctx n : handle)
| createOscillator (ctx n : handle)
| createBuffer (ctx buf : handle) (numberOfChannels : Z) (length sampleRate : Q)
| getChannelData (buf : handle) (channel : Z)
| createBufferSource (ctx n : handle)
| createBiquadFilter (ctx n : handle)
| set_type (n : handle) (type : string)
| set_buffer (n buf : handle)
| set_value (n : handle) (p : Param) (value : Q)
| set_sample (buf : handle) (i : Z) (value : Q)
| setValueAtTime (n : handle) (p : Param) (value time : Q)
| exponentialRampToValueAtTime (n : handle) (p : Param) (value time : Q)
| linearRampToValueAtTime (n : handle) (p : Param) (value time : Q)
| connect (n : handle) (to : Target)
| start (n : handle)
| stop (n : handle) (time : Q)
| resume_context (ctx : handle).

Record Browser : Type := mkBrowser {
  (** [window.AudioContext || window.webkitAudioContext] is a class *)
  hasAudioContext : bool;
  (** [ctx.state] *)
  contextState : ContextState;
  (** [ctx.currentTime], at each of the reads *)
  currentTime : nat -> Q;
  (** [ctx.sampleRate] *)
  sampleRate : Q;
  (** [Math.random] *)
  random : source
}.

(** The calls made so far, the next handle, and how often the clock and
    [Math.random] were read. *)
Record World : Type := mkWorld {
  calls : list Call;
  fresh : handle;
  timeReads : nat;
  drawn : nat
}.

(** A method returns, throws, or is still in a loop when the bound of the
    loop is reached. *)
Inductive Outcome (A : Type) : Type :=
| Returned (a : A) (w : World)
| Threw (w : World)
| Looping.

Arguments Returned {A} a w.
Arguments Threw {A} w.
Arguments Looping {A}.

Definition Act (A : Type) : Type := Browser -> World -> Outcome A.

#[global] Instance Act_ret : MRet Act := fun A a _ w => Returned a w.

#[global] Instance Act_bind : MBind Act := fun A B f m br w =>
  match m br w with
  | Returned a w' => f a br w'
  | Threw w' => Threw w'
  | Looping => Looping
  end.

Definition call (c : Call) : Act unit := fun _ w =>
  Returned tt {| calls := calls w ++ [c]; fresh := fresh w;
                 timeReads := timeReads w; drawn := drawn w |}.

Definition new_handle : Act handle := fun _ w =>
  Returned (fresh w) {| calls := calls w; fresh := S (fresh w);
                        timeReads := timeReads w; drawn := drawn w |}.

(** [this.ctx.currentTime] *)
Definition read_currentTime : Act Q := fun br w =>
  Returned (currentTime br (timeReads w))
           {| calls := calls w; fresh := fresh w;
              timeReads := S (timeReads w); drawn := drawn w |}.

(** [Math.random()] *)
Definition Math_random : Act Q := fun br w =>
  Returned (random br (drawn w))
           {| calls := calls w; fresh := fresh w;
              timeReads := timeReads w; drawn := S (drawn w) |}.

Definition read {A} (f : Browser -> A) : Act A := fun br w => Returned (f br) w.

(** [new undefined()] is a TypeError. *)
Definition throw {A} : Act A := fun _ w => Threw w.

Definition looping {A} : Act A := fun _ _ => Looping.

(** The fields of the class. *)
Record AudioManager : Type := mkManager {
  ctx : option handle;
  masterGain : option handle;
  isMuted : bool
}.

(** [new AudioManager()] *)
Definition audioManager : AudioManager :=
  {| ctx := None; masterGain := None; isMuted := false |}.

(** [init()] *)
Definition init (this : AudioManager) : Act AudioManager :=
  match ctx this with
  | Some _ => mret this
  | None =>
      has ← read hasAudioContext;
      if has : bool then
        c ← new_handle;
        call (new_AudioContext c);;
        g ← new_handle;
        call (createGain c g);;
        call (set_value g gain 0.3);;
        call (connect g (to_destination c));;
        mret {| ctx := Some c; masterGain := Some g; isMuted := isMuted this |}
      else throw
  end.

(** [resume()] *)
Definition resume (this : AudioManager) : Act AudioManager :=
  match ctx this with
  | Some c =>
      state ← read contextState;
      match state with
      | suspended => call (resume_context c);; mret this
      | _ => mret this
      end
  | None => mret this
  end.

(** [playJump()] *)
Definition playJump (this : AudioManager) : Act AudioManager :=
  match ctx this, masterGain this with
  | Some c, Some master =>
      osc ← new_handle;
      call (createOscillator c osc);;
      g ← new_handle;
      call (createGain c g);;
      call (set_type osc "square");;
      t ← read_currentTime;
      call (setValueAtTime osc frequency 150 t);;
      t ← read_currentTime;
      call (exponentialRampToValueAtTime osc frequency 600 (t + 0.3));;
      t ← read_currentTime;
      call (setValueAtTime g gain 0.1 t);;
      t ← read_currentTime;
      call (exponentialRampToValueAtTime g gain 0.01 (t + 0.3));;
      call (connect osc (to_node g));;
      call (connect g (to_node master));;
      call (start osc);;
      t ← read_currentTime;
      call (stop osc (t + 0.3));;
      mret this
  | _, _ => mret this
  end.

(** [for (let i = 0; i < bufferSize; i++) { data[i] = Math.random() * 2 - 1 }],
    from [i] on. *)
Fixpoint fillNoise (fuel : nat) (buf : handle) (bufferSize : Q) (i : Z)
    : Act unit :=
  if JS.lt (inject_Z i) bufferSize then
    match fuel with
    | O => looping
    | S fuel' =>
        u ← Math_random;
        call (set_sample buf i (u * 2 - 1));;
        fillNoise fuel' buf bufferSize (i + 1)
    end
  else mret tt.

(** [playLand()] *)
Definition playLand (fuel : nat) (this : AudioManager) : Act AudioManager :=
  match ctx this, masterGain this with
  | Some c, Some master =>
      rate ← read sampleRate;
      let bufferSize := (rate * 0.1)%Q in
      rate' ← read sampleRate;
      buffer ← new_handle;
      call (createBuffer c buffer 1 bufferSize rate');;
      call (getChannelData buffer 0);;
      fillNoise fuel buffer bufferSize 0;;
      noise ← new_handle;
      call (createBufferSource c noise);;
      call (set_buffer noise buffer);;
      filter ← new_handle;
      call (createBiquadFilter c filter);;
      call (set_type filter "lowpass");;
      call (set_value filter frequency 500);;
      g ← new_handle;
      call (createGain c g);;
      t ← read_currentTime;
      call (setValueAtTime g gain 0.2 t);;
      t ← read_currentTime;
      call (exponentialRampToValueAtTime g gain 0.01 (t + 0.1));;
      call (connect noise (to_node filter));;
      call (connect filter (to_node g));;
      call (connect g (to_node master));;
      call (start noise);;
      mret this
  | _, _ => mret this
  end.

(** [playGameOver()] *)
Definition playGameOver (this : AudioManager) : Act AudioManager :=
  match ctx this, masterGain this with
  | Some c, Some master =>
      osc ← new_handle;
      call (createOscillator c osc);;
      g ← new_handle;
      call (createGain c g);;
      call (set_type osc "sawtooth");;
      t ← read_currentTime;
      call (setValueAtTime osc frequency 200 t);;
      t ← read_currentTime;
      call (exponentialRampToValueAtTime osc frequency 50 (t + 1.0));;
      t ← read_currentTime;
      call (setValueAtTime g gain 0.3 t);;
      t ← read_currentTime;
      call (linearRampToValueAtTime g gain 0 (t + 1.0));;
      call (connect osc (to_node g));;
      call (connect g (to_node master));;
      call (start osc);;
      t ← read_currentTime;
      call (stop osc (t + 1.0));;
      mret this
  | _, _ => mret this
  end.

(** The methods that play a sound. *)
Inductive Sound : Type := Jump | Land | GameOver.

Definition play (fuel : nat) (s : Sound) (this : AudioManager)
    : Act AudioManager :=
  match s with
  | Jump => playJump this
  | Land => playLand fuel this
  | GameOver => playGameOver this
  end.

(** A path of [connect] calls from a node to another. *)
Inductive routed (cs : list Call) : handle -> handle -> Prop :=
| routed_connect (n m : handle) :
    In (connect n (to_node m)) cs -> routed cs n m
| routed_through (n m p : handle) :
    In (connect n (to_node m)) cs -> routed cs m p -> routed cs n p.

(** The values that a list of calls writes into buffers. *)
Definition samples (cs : list Call) : list (Z * Q) :=
  omap (fun c => match c with
                 | set_sample _ i v => Some (i, v)
                 | _ => None
                 end) cs.

(** The manager with another value of [isMuted]. *)
Definition with_isMuted (b : bool) (this : AudioManager) : AudioManager :=
  {| ctx := ctx this; masterGain := masterGain this; isMuted := b |}.

Definition map_outcome {A B} (f : A -> B) (o : Outcome A) : Outcome B :=
  match o with
  | Returned a w => Returned (f a) w
  | Threw w => Threw w
  | Looping => Looping
  end.

(** The methods of the class, and a caller that invokes some of them one
    after the other; an exception ends the caller. *)
Inductive Method : Type :=
| Init
| Resume
| Play (s : Sound).

Definition invoke (fuel : nat) (m : Method) (this : AudioManager)
    : Act AudioManager :=
  match m with
  | Init => init this
  | Resume => resume this
  | Play s => play fuel s this
  end.

Fixpoint invokeAll (fuel : nat) (ms : list Method) (this : AudioManager)
    : Act AudioManager :=
  match ms with
  | [] => mret this
  | m :: rest => this' ← invoke fuel m this; invokeAll fuel rest this'
  end.

(** The world before the first call. *)
Definition emptyWorld : World :=
  {| calls := []; fresh := 0%nat; timeReads := 0%nat; drawn := 0%nat |}.

(** The manager is initialised: both fields are set, the context was made
    once, and the master gain was made from it, set to 0.3 and connected to
    the destination. *)
Definition initialised (this : AudioManager) (cs : list Call) : Prop :=
  exists c g,
    ctx this = Some c /\ masterGain this = Some g /\
    In (createGain c g) cs /\
    In (set_value g gain 0.3) cs /\
    In (connect g (to_destination c)) cs.

(** The manager is not initialised, and nothing was called. *)
Definition untouched (this : AudioManager) (cs : list Call) : Prop :=
  ctx this = None /\ masterGain this = None /\ cs = [].

Definition is_new_AudioContext (c : Call) : bool :=
  match c with new_AudioContext _ => true | _ => false end.

(** What every sequence of methods keeps, from a new manager on: either
    nothing has happened, or the manager is initialised, one context was
    made, every node that was started has a path of connections to the master
    gain, and every oscillator was started and given a time to stop. *)
Definition well_formed (this : AudioManager) (cs : list Call) : Prop :=
  untouched this cs \/
  (initialised this cs /\
   length (List.filter is_new_AudioContext cs) = 1%nat /\
   (forall n, In (start n) cs ->
      exists g, masterGain this = Some g /\ routed cs n g) /\
   (forall c n, In (createOscillator c n) cs ->
      In (start n) cs /\ exists t, In (stop n t) cs)).

(** The calls that write the gain of the node [g]: an assignment to
    [g.gain.value], and the three schedulers of [g.gain]. *)
Definition writes_gain (g : handle) (c : Call) : bool :=
  match c with
  | set_value n gain _ => Nat.eqb n g
  | setValueAtTime n gain _ _ => Nat.eqb n g
  | exponentialRampToValueAtTime n gain _ _ => Nat.eqb n g
  | linearRampToValueAtTime n gain _ _ => Nat.eqb n g
  | _ => false
  end.

(** Either nothing has happened, or the master gain is older than every
    node to come and its gain was written once, with 0.3. *)
Definition volume_fixed (this : AudioManager) (w : World) : Prop :=
  untouched this (calls w) \/
  exists c g,
    ctx this = Some c /\ masterGain this = Some g /\ (g < fresh w)%nat /\
    List.filter (writes_gain g) (calls w) = [set_value g gain 0.3].

(** The samples that [playLand] writes when [drawn] draws were made
    before: one for each index below the size of the buffer. *)
Definition noise (br : Browser) (drawn : nat) : list (Z * Q) :=
  map (fun j : nat => (Z.of_nat j, (random br (drawn + j)%nat * 2 - 1)%Q))
      (seq 0 (Z.to_nat (Qceiling (sampleRate br * 0.1)))).

End Audio.

(** ** A test pool and test sources *)

Module Fixtures.

Definition pool15 : list string :=
  [ "Ace"; "Bolt"; "Comet"; "Dash"; "Echo"; "Flux"; "Glint"; "Halo";
    "Ion"; "Jet"; "Kite"; "Lynx"; "Mako"; "Nova"; "Orbit" ]%string.

(** The draws 0/15, 1/15, ..., 14/15, 0/15, ... *)
Definition cyclic15 : source := fun k => (Z.of_nat (k mod 15) # 15)%Q.

(** Every draw is 0. *)
Definition stuck : source := fun _ => 0%Q.

(** The draws 0, 1/2, 0, 1/2, ... *)
Definition alternating : source :=
  fun k => if Nat.even k then 0%Q else (1 # 2)%Q.

(** A run is played, the interval fires once, the run ends, and the player
    starts again. *)
Definition replay : list Event :=
  [ Props PLAYING 0 0; IntervalFires; Props GAME_OVER 300 0; Props PLAYING 0 300 ].

(** Two tiers, at 500 and at 2000. *)
Definition tier500 : Theme :=
  {| id := "neon"; name := "Neon"; primary := "#00ffff"; unlockScore := 500 |}%string.

Definition tier2000 : Theme :=
  {| id := "lava"; name := "Lava"; primary := "#ff4400"; unlockScore := 2000 |}%string.

(** A browser with the Web Audio API: the context is suspended, runs at
    44.1 kHz, and its clock advances by a millisecond from one read to the
    next. *)
Definition browser : Audio.Browser :=
  {| Audio.hasAudioContext := true;
     Audio.contextState := Audio.suspended;
     Audio.currentTime := fun n => (Z.of_nat n # 1000)%Q;
     Audio.sampleRate := 44100;
     Audio.random := cyclic15 |}.

(** A browser without the Web Audio API. *)
Definition old_browser : Audio.Browser :=
  {| Audio.hasAudioContext := false;
     Audio.contextState := Audio.suspended;
     Audio.currentTime := fun n => (Z.of_nat n # 1000)%Q;
     Audio.sampleRate := 44100;
     Audio.random := cyclic15 |}.

(** Methods called one after the other: a sound before [init], [init],
    [resume], two sounds, and [init] and [resume] again. *)
Definition session : list Audio.Method :=
  [ Audio.Play Audio.Jump; Audio.Init; Audio.Resume; Audio.Play Audio.Jump;
    Audio.Play Audio.GameOver; Audio.Init; Audio.Resume ].

(** An initialised manager. *)
Definition manager : Audio.AudioManager :=
  {| Audio.ctx := Some 0%nat; Audio.masterGain := Some 1%nat;
     Audio.isMuted := false |}.

End Fixtures.

(** * Properties *)

(** ** Numbers *)

Lemma gt_true (a b : Q) : JS.gt a b = true <-> (b < a)%Q.
Proof.
  unfold JS.gt. rewrite negb_true_iff.
  split.
  - intros H. apply Qnot_le_lt. intros Hle.
    apply Qle_bool_iff in Hle. congruence.
  - intros H. destruct (Qle_bool a b) eqn:E; [|reflexivity].
    apply Qle_bool_iff in E. exfalso. exact (Qlt_not_le _ _ H E).
Qed.

Lemma gt_false (a b : Q) : JS.gt a b = false <-> (a <= b)%Q.
Proof.
  unfold JS.gt. rewrite negb_false_iff. apply Qle_bool_iff.
Qed.

Lemma lt_true (a b : Q) : JS.lt a b = true <-> (a < b)%Q.
Proof. apply (gt_true b a). Qed.

Lemma lt_false (a b : Q) : JS.lt a b = false <-> (b <= a)%Q.
Proof. apply (gt_false b a). Qed.

Lemma Math_max_floor50 (x : Q) : (50 <= JS.Math_max 50 x)%Q.
Proof. apply Q.le_max_l. Qed.

(** [cmp a b > 0] for the comparator of the leaderboard. *)
Lemma by_score_desc_pos (a b : LeaderboardEntry) :
  JS.gt (by_score_desc a b) 0 = true <-> (score a < score b)%Q.
Proof.
  rewrite gt_true. unfold by_score_desc. split; intros H; lra.
Qed.

Lemma by_score_desc_nonpos (a b : LeaderboardEntry) :
  JS.gt (by_score_desc a b) 0 = false <-> (score b <= score a)%Q.
Proof.
  rewrite gt_false. unfold by_score_desc. split; intros H; lra.
Qed.

(** ** Rounding to the nearest double *)

(** Linear arithmetic with absolute values, by cases on their signs. *)
Ltac qabs :=
  repeat match goal with H : context [Qabs _] |- _ => revert H end;
  repeat (apply Qabs_case; intros ?);
  intros; lra.

Section Rounding.

Local Open Scope Q_scope.

Lemma pow2_pos (k : Z) : 0 < 2 ^ k.
Proof. apply Qpower_0_lt. reflexivity. Qed.

Lemma pow2_add (a b : Z) : 2 ^ (a + b) == 2 ^ a * 2 ^ b.
Proof. apply Qpower_plus. discriminate. Qed.

Lemma pow2_le (a b : Z) : (a <= b)%Z -> 2 ^ a <= 2 ^ b.
Proof. intros H. apply Qpower_le_compat_l; [exact H|]. unfold Qle. simpl. lia. Qed.

Lemma pow2_Z (a : Z) : (0 <= a)%Z -> inject_Z (2 ^ a) == 2 ^ a.
Proof. intros H. now rewrite Zpower_Qpower. Qed.

Lemma pow2_succ (a : Z) : 2 ^ (a + 1) == 2 * 2 ^ a.
Proof. rewrite pow2_add. change (2 ^ 1) with 2. ring. Qed.

Lemma ilog2_spec (x : Q) : 0 < x -> 2 ^ JS.ilog2 x <= x /\ x < 2 ^ (JS.ilog2 x + 1).
Proof.
  intros Hx. destruct x as [n d]. unfold JS.ilog2. cbn [Qnum Qden].
  assert (Hn : (0 < n)%Z) by (unfold Qlt in Hx; simpl in Hx; lia).
  set (a := Z.log2 n). set (b := Z.log2 (Zpos d)).
  destruct (Z.log2_spec n Hn) as [Ha1 Ha2]. fold a in Ha1, Ha2.
  destruct (Z.log2_spec (Zpos d) ltac:(lia)) as [Hb1 Hb2]. fold b in Hb1, Hb2.
  assert (Ha0 : (0 <= a)%Z) by apply Z.log2_nonneg.
  assert (Hb0 : (0 <= b)%Z) by apply Z.log2_nonneg.
  assert (Hx' : n # d == inject_Z n / inject_Z (Zpos d)) by apply Qmake_Qdiv.
  assert (HD : 0 < inject_Z (Zpos d)) by (unfold Qlt; simpl; lia).
  set (D := inject_Z (Zpos d)) in *. set (N := inject_Z n) in *.
  assert (HxD : (n # d) * D == N).
  { rewrite Hx'. field. lra. }
  assert (HN1 : 2 ^ a <= N).
  { rewrite <- pow2_Z by lia. unfold N. now rewrite <- Zle_Qle. }
  assert (HN2 : N < 2 ^ (a + 1)).
  { rewrite <- pow2_Z by lia. unfold N. rewrite <- Zlt_Qlt.
    now rewrite <- Z.add_1_r in Ha2. }
  assert (HD1 : 2 ^ b <= D).
  { rewrite <- pow2_Z by lia. unfold D. now rewrite <- Zle_Qle. }
  assert (HD2 : D < 2 ^ (b + 1)).
  { rewrite <- pow2_Z by lia. unfold D. rewrite <- Zlt_Qlt.
    now rewrite <- Z.add_1_r in Hb2. }
  pose proof (pow2_pos (a - b)) as Hk.
  pose proof (pow2_pos b) as Hpb.
  assert (Hab : 2 ^ a == 2 ^ (a - b) * 2 ^ b).
  { rewrite <- pow2_add. now replace (a - b + b)%Z with a by lia. }
  rewrite pow2_succ in HN2, HD2.
  set (X := n # d) in *.
  destruct (Qle_bool (2 ^ (a - b)) X) eqn:E.
  - apply Qle_bool_iff in E. split; [exact E|].
    rewrite pow2_succ.
    (* X * D = N < 2 * 2^a = 2 * 2^(a-b) * 2^b <= 2 * 2^(a-b) * D *)
    apply Qnot_le_lt. intros Hc.
    assert (2 * 2 ^ (a - b) * D <= X * D) by (apply Qmult_le_compat_r; lra).
    assert (2 * 2 ^ (a - b) * 2 ^ b <= 2 * 2 ^ (a - b) * D)
      by (apply Qmult_le_l; lra).
    lra.
  - assert (E' : X < 2 ^ (a - b)).
    { apply Qnot_le_lt. intros Hc. apply Qle_bool_iff in Hc. congruence. }
    replace (a - b - 1 + 1)%Z with (a - b)%Z by lia.
    split; [|exact E'].
    assert (Hk1 : 2 ^ (a - b) == 2 * 2 ^ (a - b - 1)).
    { rewrite <- pow2_succ. now replace (a - b - 1 + 1)%Z with (a - b)%Z by lia. }
    pose proof (pow2_pos (a - b - 1)) as Hk'.
    apply Qnot_lt_le. intros Hc.
    (* X * D = N >= 2^a = 2 * 2^(a-b-1) * 2^b ; X * D < 2^(a-b-1) * D < 2^(a-b-1) * 2 * 2^b *)
    assert (X * D < 2 ^ (a - b - 1) * D) by (apply Qmult_lt_compat_r; lra).
    assert (2 ^ (a - b - 1) * D < 2 ^ (a - b - 1) * (2 * 2 ^ b))
      by (apply Qmult_lt_l; lra).
    nra.
Qed.

Lemma rne_floor (y : Q) :
  JS.round_half_even y = Qfloor y \/ JS.round_half_even y = (Qfloor y + 1)%Z.
Proof.
  unfold JS.round_half_even.
  destruct (y - inject_Z (Qfloor y) ?= 1 # 2); [destruct (Z.even _)| |]; auto.
Qed.

Lemma rne_near (y : Q) (n : Z) :
  Qabs (inject_Z (JS.round_half_even y) - y) <= Qabs (inject_Z n - y).
Proof.
  pose proof (Qfloor_le y) as Hf1. pose proof (Qlt_floor y) as Hf2.
  rewrite inject_Z_plus in Hf2. change (inject_Z 1) with 1 in Hf2.
  assert (Hn : inject_Z n <= inject_Z (Qfloor y) \/
               inject_Z (Qfloor y) + 1 <= inject_Z n).
  { destruct (Z_le_gt_dec n (Qfloor y)) as [H|H].
    - left. now rewrite <- Zle_Qle.
    - right. change 1 with (inject_Z 1). rewrite <- inject_Z_plus, <- Zle_Qle.
      lia. }
  unfold JS.round_half_even.
  set (f := Qfloor y) in *.
  destruct (y - inject_Z f ?= 1 # 2) eqn:E.
  - apply Qeq_alt in E.
    assert (Hr : forall r, r = f \/ r = (f + 1)%Z ->
                 Qabs (inject_Z r - y) <= Qabs (inject_Z n - y)).
    { intros r [-> | ->]; [|rewrite inject_Z_plus; change (inject_Z 1) with 1];
        apply Qabs_case; intros; apply Qabs_case; intros; destruct Hn; lra. }
    apply Hr. destruct (Z.even f); auto.
  - apply Qlt_alt in E.
    apply Qabs_case; intros; apply Qabs_case; intros; destruct Hn; lra.
  - apply Qgt_alt in E. rewrite inject_Z_plus. change (inject_Z 1) with 1.
    apply Qabs_case; intros; apply Qabs_case; intros; destruct Hn; lra.
Qed.

Lemma rne_half (y : Q) : Qabs (inject_Z (JS.round_half_even y) - y) <= 1 # 2.
Proof.
  pose proof (Qfloor_le y) as Hf1. pose proof (Qlt_floor y) as Hf2.
  rewrite inject_Z_plus in Hf2. change (inject_Z 1) with 1 in Hf2.
  destruct (Qlt_le_dec (y - inject_Z (Qfloor y)) (1 # 2)) as [H|H].
  - eapply Qle_trans; [apply (rne_near y (Qfloor y))|].
    apply Qabs_case; intros; lra.
  - eapply Qle_trans; [apply (rne_near y (Qfloor y + 1))|].
    rewrite inject_Z_plus. change (inject_Z 1) with 1.
    apply Qabs_case; intros; lra.
Qed.

Lemma fl_zero (x : Q) : x == 0 -> JS.fl x = 0.
Proof. intros H. unfold JS.fl. apply Qeq_bool_iff in H. now rewrite H. Qed.

Lemma fl_eq (x : Q) :
  ~ x == 0 ->
  JS.fl x == inject_Z (JS.round_half_even (x / 2 ^ JS.ulp_exponent x)) * 2 ^ JS.ulp_exponent x.
Proof.
  intros H. unfold JS.fl. destruct (Qeq_bool x 0) eqn:E.
  - apply Qeq_bool_iff in E. contradiction.
  - apply Qred_correct.
Qed.

Lemma ulp_exponent_min (x : Q) : (-1074 <= JS.ulp_exponent x)%Z.
Proof. unfold JS.ulp_exponent. lia. Qed.

(** |x| is below 2^(e + 53) *)
Lemma ulp_exponent_above (x : Q) :
  ~ x == 0 -> Qabs x < 2 ^ (JS.ulp_exponent x + 53).
Proof.
  intros H.
  assert (Hpos : 0 < Qabs x).
  { apply Qabs_case; intros; lra. }
  destruct (ilog2_spec (Qabs x) Hpos) as [_ Hup].
  eapply Qlt_le_trans; [exact Hup|]. apply pow2_le. unfold JS.ulp_exponent. lia.
Qed.

(** when the exponent is not the least one, |x| is at least 2^(e + 52) *)
Lemma ulp_exponent_below (x : Q) :
  ~ x == 0 -> (-1074 < JS.ulp_exponent x)%Z -> 2 ^ (JS.ulp_exponent x + 52) <= Qabs x.
Proof.
  intros H He.
  assert (Hpos : 0 < Qabs x).
  { apply Qabs_case; intros; lra. }
  destruct (ilog2_spec (Qabs x) Hpos) as [Hlo _].
  eapply Qle_trans; [|exact Hlo]. apply pow2_le. unfold JS.ulp_exponent in *. lia.
Qed.

Lemma Qabs_scaled (r x p : Q) :
  0 < p -> Qabs (r * p - x) == Qabs (r - x / p) * p.
Proof.
  intros Hp. setoid_replace (r * p - x) with ((r - x / p) * p) using relation Qeq
    by (field; lra).
  rewrite Qabs_Qmult. rewrite (Qabs_pos p) by lra. reflexivity.
Qed.

(** The value that [JS.fl] returns is nearer to [x] than every multiple of the
    unit in the last place. *)
Lemma fl_near_multiple (x : Q) (n : Z) :
  ~ x == 0 ->
  Qabs (JS.fl x - x) <= Qabs (inject_Z n * 2 ^ JS.ulp_exponent x - x).
Proof.
  intros H. rewrite (fl_eq x H). set (e := JS.ulp_exponent x).
  pose proof (pow2_pos e) as Hp.
  rewrite !Qabs_scaled by exact Hp.
  apply Qmult_le_compat_r; [apply rne_near|lra].
Qed.

Lemma fl_half_ulp (x : Q) :
  ~ x == 0 -> Qabs (JS.fl x - x) <= (1 # 2) * 2 ^ JS.ulp_exponent x.
Proof.
  intros H. rewrite (fl_eq x H). set (e := JS.ulp_exponent x).
  pose proof (pow2_pos e) as Hp.
  rewrite !Qabs_scaled by exact Hp.
  apply Qmult_le_compat_r; [apply rne_half|lra].
Qed.

Lemma pow2_lt_inv (a b : Z) : 2 ^ a < 2 ^ b -> (a < b)%Z.
Proof.
  intros H. destruct (Z_lt_le_dec a b) as [Hlt|Hle]; [exact Hlt|].
  apply pow2_le in Hle. lra.
Qed.

Lemma ilog2_unique (x : Q) (k : Z) :
  2 ^ k <= x -> x < 2 ^ (k + 1) -> JS.ilog2 x = k.
Proof.
  intros H1 H2. pose proof (pow2_pos k) as Hk.
  destruct (ilog2_spec x ltac:(lra)) as [H3 H4].
  assert (JS.ilog2 x < k + 1)%Z by (apply pow2_lt_inv; lra).
  assert (k < JS.ilog2 x + 1)%Z by (apply pow2_lt_inv; lra).
  lia.
Qed.

Lemma ilog2_wd (x y : Q) : 0 < x -> x == y -> JS.ilog2 x = JS.ilog2 y.
Proof.
  intros Hx E. destruct (ilog2_spec x Hx) as [H1 H2].
  symmetry. apply ilog2_unique; now rewrite <- E.
Qed.

Lemma ulp_exponent_wd (x y : Q) :
  ~ x == 0 -> x == y -> JS.ulp_exponent x = JS.ulp_exponent y.
Proof.
  intros Hx E. unfold JS.ulp_exponent.
  rewrite (ilog2_wd (Qabs x) (Qabs y)); [reflexivity| |now rewrite E].
  apply Qabs_case; intros; lra.
Qed.

Lemma rne_wd (x y : Q) : x == y -> JS.round_half_even x = JS.round_half_even y.
Proof.
  intros E. unfold JS.round_half_even.
  rewrite (Qfloor_comp x y E).
  assert (E' : x - inject_Z (Qfloor y) == y - inject_Z (Qfloor y))
    by now rewrite E.
  now rewrite (Qcompare_comp _ _ E' (1 # 2) (1 # 2) (Qeq_refl _)).
Qed.

Lemma fl_wd (x y : Q) : x == y -> JS.fl x = JS.fl y.
Proof.
  intros E. unfold JS.fl.
  destruct (Qeq_bool x 0) eqn:Ex.
  - apply Qeq_bool_iff in Ex. rewrite E in Ex. apply Qeq_bool_iff in Ex.
    now rewrite Ex.
  - assert (Hx : ~ x == 0).
    { intros H. apply Qeq_bool_iff in H. congruence. }
    destruct (Qeq_bool y 0) eqn:Ey.
    { apply Qeq_bool_iff in Ey. rewrite <- E in Ey. contradiction. }
    rewrite <- (ulp_exponent_wd x y Hx E).
    apply Qred_complete. generalize (JS.ulp_exponent x). intros e.
    rewrite (rne_wd (x / 2 ^ e) (y / 2 ^ e)); [reflexivity|now rewrite E].
Qed.

Lemma is_double_fl (x : Q) : JS.is_double (JS.fl x).
Proof.
  destruct (Qeq_dec x 0) as [E|H].
  - rewrite (fl_zero x E). exists 0%Z, 0%Z.
    split; [lia|]. split; [simpl; lia|reflexivity].
  - exists (JS.round_half_even (x / 2 ^ JS.ulp_exponent x)), (JS.ulp_exponent x).
    split; [apply ulp_exponent_min|]. split; [|apply fl_eq; exact H].
    set (e := JS.ulp_exponent x). set (y := x / 2 ^ e).
    pose proof (pow2_pos e) as Hp.
    pose proof (ulp_exponent_above x H) as Hup. fold e in Hup.
    rewrite pow2_add in Hup.
    assert (Hy : Qabs y < 2 ^ 53).
    { unfold y. unfold Qdiv. rewrite Qabs_Qmult.
      rewrite (Qabs_pos (/ 2 ^ e)) by (apply Qlt_le_weak, Qinv_lt_0_compat; exact Hp).
      apply Qlt_shift_div_r; [exact Hp|]. lra. }
    assert (Hy1 : y < inject_Z (2 ^ 53)).
    { rewrite pow2_Z by lia. revert Hy. apply Qabs_case; intros; lra. }
    assert (Hy2 : inject_Z (- 2 ^ 53) < y).
    { rewrite inject_Z_opp, pow2_Z by lia. revert Hy.
      apply Qabs_case; intros; lra. }
    assert (Hf1 : (Qfloor y < 2 ^ 53)%Z).
    { rewrite Zlt_Qlt. pose proof (Qfloor_le y). lra. }
    assert (Hf2 : (- 2 ^ 53 <= Qfloor y)%Z).
    { rewrite <- (Qfloor_Z (- 2 ^ 53)). apply Qfloor_resp_le. lra. }
    destruct (rne_floor y) as [-> | ->]; lia.
Qed.

Lemma double_bound (m e : Z) :
  (Z.abs m <= 2 ^ 53)%Z -> Qabs (inject_Z m * 2 ^ e) <= 2 ^ (e + 53).
Proof.
  intros Hm. pose proof (pow2_pos e) as Hp.
  rewrite Qabs_Qmult, (Qabs_pos (2 ^ e)) by lra.
  rewrite pow2_add, Qmult_comm.
  apply Qmult_le_l; [exact Hp|].
  rewrite <- pow2_Z by lia.
  apply Qabs_case; intros _.
  - rewrite <- Zle_Qle. lia.
  - rewrite <- inject_Z_opp, <- Zle_Qle. lia.
Qed.

(** [JS.fl x] is a double nearest to [x]. *)
Lemma fl_nearest (x d : Q) : JS.is_double d -> Qabs (JS.fl x - x) <= Qabs (d - x).
Proof.
  intros (m & e' & He' & Hm & Hd).
  destruct (Qeq_dec x 0) as [E|H].
  { rewrite (fl_zero x E), E. qabs. }
  set (e := JS.ulp_exponent x).
  destruct (Z_le_gt_dec e e') as [Hle|Hgt].
  - assert (Hd' : d == inject_Z (m * 2 ^ (e' - e)) * 2 ^ e).
    { rewrite Hd, inject_Z_mult, pow2_Z by lia.
      rewrite <- Qmult_assoc, <- pow2_add.
      now replace (e' - e + e)%Z with e' by lia. }
    rewrite Hd'. apply fl_near_multiple. exact H.
  - pose proof (ulp_exponent_below x H ltac:(fold e; lia)) as Hlo. fold e in Hlo.
    set (B := 2 ^ (e + 52)) in *.
    assert (HB : 0 < B) by apply pow2_pos.
    assert (HdB : Qabs d <= B).
    { rewrite Hd. eapply Qle_trans; [apply double_bound; exact Hm|].
      apply pow2_le. lia. }
    assert (Hc : forall s : Z, s = 1%Z \/ s = (-1)%Z ->
              inject_Z (s * 2 ^ 52) * 2 ^ e == inject_Z s * B).
    { intros s _. rewrite inject_Z_mult, pow2_Z by lia. unfold B.
      rewrite pow2_add. ring. }
    destruct (Qlt_le_dec 0 x) as [Hpos|Hneg].
    + eapply Qle_trans; [apply (fl_near_multiple x (1 * 2 ^ 52) H)|].
      fold e. rewrite (Hc 1%Z) by auto. change (inject_Z 1) with 1.
      qabs.
    + eapply Qle_trans; [apply (fl_near_multiple x (-1 * 2 ^ 52) H)|].
      fold e. rewrite (Hc (-1)%Z) by auto. change (inject_Z (-1)) with (-1).
      qabs.
Qed.

Lemma fl_id (d : Q) : JS.is_double d -> JS.fl d == d.
Proof.
  intros Hd. pose proof (fl_nearest d d Hd) as H. qabs.
Qed.

Lemma fl_mono (x y : Q) : x <= y -> JS.fl x <= JS.fl y.
Proof.
  intros Hxy. apply Qnot_lt_le. intros Hc.
  pose proof (fl_nearest x (JS.fl y) (is_double_fl y)) as H1.
  pose proof (fl_nearest y (JS.fl x) (is_double_fl x)) as H2.
  assert (E : x == y).
  { qabs. }
  rewrite (fl_wd x y E) in Hc. lra.
Qed.

Lemma fl_rel_error (x : Q) :
  2 ^ (-1022) <= Qabs x -> Qabs (JS.fl x - x) <= Qabs x * 2 ^ (-53).
Proof.
  intros Hn. pose proof (pow2_pos (-1022)) as Hp.
  assert (H : ~ x == 0).
  { intros E. rewrite E in Hn. change (Qabs 0) with 0 in Hn. lra. }
  eapply Qle_trans; [apply fl_half_ulp; exact H|].
  destruct (ilog2_spec (Qabs x) ltac:(lra)) as [Hlo Hup].
  assert (Hi : (-1022 < JS.ilog2 (Qabs x) + 1)%Z) by (apply pow2_lt_inv; lra).
  assert (He : JS.ulp_exponent x = (JS.ilog2 (Qabs x) - 52)%Z)
    by (unfold JS.ulp_exponent; lia).
  rewrite He.
  assert (E : 2 ^ JS.ilog2 (Qabs x) == 2 ^ (JS.ilog2 (Qabs x) - 52) * 2 ^ 52).
  { rewrite <- pow2_add. now replace (JS.ilog2 (Qabs x) - 52 + 52)%Z
      with (JS.ilog2 (Qabs x)) by lia. }
  rewrite E in Hlo.
  set (P := 2 ^ (JS.ilog2 (Qabs x) - 52)) in *.
  change (2 ^ 52) with (inject_Z (2 ^ 52)) in Hlo.
  change (2 ^ (-53)) with (/ inject_Z (2 ^ 53)).
  set (X := Qabs x) in *.
  change (inject_Z (2 ^ 52)) with 4503599627370496 in Hlo.
  change (/ inject_Z (2 ^ 53)) with (1 # 9007199254740992).
  lra.
Qed.

(** The flag of an entry is [Math.random() > 0.7], where the literal is
    the double nearest to 0.7; on doubles this is the comparison with the
    decimal itself, as no double lies between the two. *)
Lemma gt_literal_0_7 (v : Q) :
  JS.is_double v -> JS.gt v (JS.fl 0.7) = JS.gt v 0.7.
Proof.
  intros Hv.
  assert (E : JS.fl 0.7 <= 0.7) by (vm_compute; discriminate).
  destruct (JS.gt v 0.7) eqn:E1.
  - apply gt_true in E1. apply gt_true. lra.
  - apply gt_false in E1. apply gt_false.
    rewrite <- (fl_id v Hv). now apply fl_mono.
Qed.

End Rounding.

(** ** Sorting *)

Section SortAny.

Context {A : Type} (cmp : A -> A -> Q).

Lemma sort_insert_Permutation (x : A) (l : list A) :
  JS.sort_insert cmp x l ≡ₚ x :: l.
Proof.
  induction l as [|y rest IH]; simpl; [reflexivity|].
  destruct (JS.gt (cmp x y) 0); [|reflexivity].
  rewrite IH. apply Permutation_swap.
Qed.

Lemma sort_Permutation (l : list A) : JS.sort cmp l ≡ₚ l.
Proof.
  induction l as [|x rest IH]; simpl; [reflexivity|].
  rewrite sort_insert_Permutation. now rewrite IH.
Qed.

Lemma sort_length (l : list A) : length (JS.sort cmp l) = length l.
Proof. apply Permutation_length, sort_Permutation. Qed.

Lemma sort_Forall (P : A -> Prop) (l : list A) :
  Forall P l <-> Forall P (JS.sort cmp l).
Proof. now rewrite (sort_Permutation l). Qed.

(** Insertion passes a prefix of elements that must come first. *)
Lemma sort_insert_pass (x : A) (l1 l2 : list A) :
  Forall (fun y => JS.gt (cmp x y) 0 = true) l1 ->
  JS.sort_insert cmp x (l1 ++ l2) = l1 ++ JS.sort_insert cmp x l2.
Proof.
  induction 1 as [|y l1 Hy _ IH]; simpl; [reflexivity|].
  now rewrite Hy, IH.
Qed.

(** Insertion stops inside a prefix that has an element it must precede. *)
Lemma sort_insert_stop (x : A) (l1 l2 : list A) :
  Exists (fun y => JS.gt (cmp x y) 0 = false) l1 ->
  JS.sort_insert cmp x (l1 ++ l2) = JS.sort_insert cmp x l1 ++ l2.
Proof.
  induction l1 as [|y l1 IH]; intros H; [inversion H|].
  simpl. destruct (JS.gt (cmp x y) 0) eqn:E; [|reflexivity].
  inversion H as [? ? Hy|? ? Hl]; subst; [congruence|].
  now rewrite IH.
Qed.

End SortAny.

Lemma sort_insert_descending (x : LeaderboardEntry) (l : list LeaderboardEntry) :
  descending l -> descending (JS.sort_insert by_score_desc x l).
Proof.
  unfold descending.
  induction 1 as [|y rest Hrest IH Hy]; simpl.
  - repeat constructor.
  - destruct (JS.gt (by_score_desc x y) 0) eqn:E.
    + apply by_score_desc_pos in E.
      constructor; [exact IH|].
      rewrite (sort_insert_Permutation by_score_desc x rest).
      constructor; [unfold score_ge; lra | exact Hy].
    + apply by_score_desc_nonpos in E.
      constructor; [now constructor|].
      constructor; [exact E|].
      eapply Forall_impl; [exact Hy|].
      unfold score_ge. intros b Hb. simpl in Hb. lra.
Qed.

Lemma sort_descending (l : list LeaderboardEntry) :
  descending (JS.sort by_score_desc l).
Proof.
  induction l as [|x rest IH]; simpl.
  - constructor.
  - now apply sort_insert_descending.
Qed.

(** What the stable sort does with an entry pushed at the end: it goes
    behind every entry whose score is at least its own, and before the
    others. *)
Lemma sort_snoc (l : list LeaderboardEntry) (p : LeaderboardEntry) :
  exists hi lo,
    JS.sort by_score_desc l = hi ++ lo /\
    JS.sort by_score_desc (l ++ [p]) = hi ++ p :: lo /\
    Forall (fun e => (score p <= score e)%Q) hi /\
    Forall (fun e => (score e < score p)%Q) lo.
Proof.
  induction l as [|x l (hi & lo & Hs & Hsp & Hhi & Hlo)].
  - exists [], []. simpl. repeat split; constructor.
  - simpl. rewrite Hs, Hsp.
    assert (Hdec : forall y, {JS.gt (by_score_desc x y) 0 = true}
                             + {JS.gt (by_score_desc x y) 0 = false}).
    { intros y. destruct (JS.gt (by_score_desc x y) 0); [now left|now right]. }
    destruct (Forall_Exists_dec _ _ Hdec hi) as [Hall|Hex'].
    + rewrite !sort_insert_pass by exact Hall. simpl.
      destruct (JS.gt (by_score_desc x p) 0) eqn:E.
      * apply by_score_desc_pos in E.
        exists hi, (JS.sort_insert by_score_desc x lo).
        repeat split; [exact Hhi|].
        rewrite (sort_insert_Permutation by_score_desc x lo).
        now constructor.
      * apply by_score_desc_nonpos in E.
        exists (hi ++ [x]), lo.
        assert (Hx : JS.sort_insert by_score_desc x lo = x :: lo).
        { destruct Hlo as [|y lo Hy Hlo]; simpl; [reflexivity|].
          destruct (JS.gt (by_score_desc x y) 0) eqn:E'; [|reflexivity].
          apply by_score_desc_pos in E'. lra. }
        rewrite Hx, <- !app_assoc. simpl.
        repeat split; [|exact Hlo].
        apply Forall_app. split; [exact Hhi|]. now repeat constructor.
    + rewrite !sort_insert_stop by exact Hex'.
      exists (JS.sort_insert by_score_desc x hi), lo.
      repeat split; [|exact Hlo].
      rewrite (sort_insert_Permutation by_score_desc x hi).
      constructor; [|exact Hhi].
      apply Exists_exists in Hex' as (y & Hy & Hxy).
      apply by_score_desc_nonpos in Hxy.
      rewrite Forall_forall in Hhi. specialize (Hhi y Hy). simpl in Hhi. lra.
Qed.

(** ** Computations that draw *)

Lemma bind_Some {A B} (m : Rand A) (f : A -> Rand B) (src : source) (k : nat)
    (r : B * nat) :
  (m ≫= f) src k = Some r <->
  exists a k1, m src k = Some (a, k1) /\ f a src k1 = Some r.
Proof.
  unfold mbind, Rand_bind.
  destruct (m src k) as [[a k1]|].
  - split; [intros H; now exists a, k1|].
    intros (a' & k1' & [= -> ->] & H). exact H.
  - split; [discriminate|]. intros (? & ? & [=] & _).
Qed.

Lemma ret_Some {A} (a : A) (src : source) (k : nat) (r : A * nat) :
  mret (M := Rand) a src k = Some r <-> r = (a, k).
Proof. unfold mret, Rand_ret. split; [now intros [= <-]|now intros ->]. Qed.

Lemma random_Some (src : source) (k : nat) (r : Q * nat) :
  Math_random src k = Some r <-> r = (src k, S k).
Proof. unfold Math_random. split; [now intros [= <-]|now intros ->]. Qed.

(** Splits an equation [m src k = Some r] along the binds of [m]. *)
Ltac rand_inv H :=
  repeat match type of H with
  | (_ ≫= _) _ _ = Some _ =>
      let a := fresh "a" in let k := fresh "k" in
      let H1 := fresh "Hdraw" in
      apply bind_Some in H; destruct H as (a & k & H1 & H);
      try (apply random_Some in H1; injection H1 as -> ->)
  | mret _ _ _ = Some _ => apply ret_Some in H
  end.

(** ** The generator *)

Section Generator.

Variable pool : list string.

Lemma random_username_Some (src : source) (k : nat)
    (r : option string * nat) :
  random_username pool src k = Some r <->
  r = (name_of_draw pool (src k), S k).
Proof.
  unfold random_username. rewrite bind_Some. split.
  - intros (u & k1 & Hu & H). apply random_Some in Hu. injection Hu as -> ->.
    now apply ret_Some in H.
  - intros ->. exists (src k), (S k). split; [reflexivity|now apply ret_Some].
Qed.

Lemma redraw_unfold (fuel : nat) (used : gset (option string))
    (u0 : option string) :
  redraw pool fuel used u0 =
  if decide (u0 ∈ used) then
    match fuel with
    | O => out_of_fuel
    | S fuel' => random_username pool ≫= redraw pool fuel' used
    end
  else mret u0.
Proof. destruct fuel; reflexivity. Qed.

Lemma redraw_Some (fuel : nat) (used : gset (option string))
    (u0 : option string) (src : source) (k : nat) (nm : option string)
    (k' : nat) :
  redraw pool fuel used u0 src k = Some (nm, k') ->
  (nm ∉ used) /\
  (k' = k /\ nm = u0 \/
   (k < k')%nat /\ nm = name_of_draw pool (src (pred k'))).
Proof.
  revert u0 k.
  induction fuel as [|fuel IH]; intros u0 k H;
    rewrite redraw_unfold in H; destruct (decide (u0 ∈ used)) as [Hin|Hout].
  - discriminate.
  - apply ret_Some in H. injection H as -> ->. split; [exact Hout|now left].
  - apply bind_Some in H as (u1 & k1 & Hu & H).
    apply random_username_Some in Hu. injection Hu as -> ->.
    apply IH in H as [Hnm [[-> ->]|[Hlt ->]]].
    + split; [exact Hnm|]. right. split; [lia|reflexivity].
    + split; [exact Hnm|]. right. split; [lia|reflexivity].
  - apply ret_Some in H. injection H as -> ->. split; [exact Hout|now left].
Qed.

(** One iteration of the loop. *)
Lemma generate_loop_step (fuel n : nat) (playerScore : Q)
    (entries : list LeaderboardEntry) (used : gset (option string))
    (src : source) (k : nat) (r : list LeaderboardEntry * nat) :
  generate_loop pool fuel (S n) playerScore entries used src k = Some r <->
  exists nm i,
    redraw pool fuel used (name_of_draw pool (src k)) src (S k) = Some (nm, i) /\
    generate_loop pool fuel n playerScore
      (entries ++ [ {| username := nm;
                       score := score_of_draw playerScore (src i);
                       isNew := JS.gt (src (S i)) 0.7 |} ])
      ({[ nm ]} ∪ used) src (S (S i)) = Some r.
Proof.
  simpl. split.
  - intros H.
    apply bind_Some in H as (u0 & k0 & Hu & H).
    apply random_username_Some in Hu. injection Hu as -> ->.
    apply bind_Some in H as (nm & i & Hre & H).
    rand_inv H. now exists nm, i.
  - intros (nm & i & Hre & H).
    apply bind_Some. exists (name_of_draw pool (src k)), (S k). split.
    { now apply random_username_Some. }
    apply bind_Some. exists nm, i. split; [exact Hre|].
    apply bind_Some. exists (src i), (S i). split; [reflexivity|].
    apply bind_Some. exists (src (S i)), (S (S i)). split; [reflexivity|].
    exact H.
Qed.

(** What the loop returns, when it returns: the entries it was given,
    followed by one entry per iteration, each built from its own draws, with
    names that were not used before and differ from each other. *)
Lemma generate_loop_Some (fuel n : nat) (playerScore : Q)
    (entries : list LeaderboardEntry) (used : gset (option string))
    (src : source) (k : nat) (es : list LeaderboardEntry) (k' : nat) :
  generate_loop pool fuel n playerScore entries used src k = Some (es, k') ->
  exists draws,
    length draws = n /\
    score_draws k draws k' /\
    es = entries ++ map (entry_at pool playerScore src) draws /\
    NoDup (map (fun i => name_of_draw pool (src (pred i))) draws) /\
    Forall (fun i => name_of_draw pool (src (pred i)) ∉ used) draws.
Proof.
  revert entries used k.
  induction n as [|n IH]; intros entries used k H.
  - simpl in H. apply ret_Some in H. injection H as -> ->.
    exists []. rewrite app_nil_r.
    repeat split; constructor.
  - apply generate_loop_step in H as (nm & i & Hre & H).
    apply redraw_Some in Hre as [Hnm Hpos].
    assert (Hi : (k < i)%nat /\ nm = name_of_draw pool (src (pred i))).
    { destruct Hpos as [[-> ->]|[Hlt ->]]; split; try lia; reflexivity. }
    destruct Hi as [Hi ->].
    apply IH in H as (draws & Hlen & Hdraws & -> & Hnd & Hfresh).
    exists (i :: draws). simpl.
    repeat split.
    + now rewrite Hlen.
    + now constructor.
    + now rewrite <- app_assoc.
    + constructor; [|exact Hnd].
      rewrite Forall_forall in Hfresh. intros Hin.
      apply list_elem_of_In, in_map_iff in Hin as (j & Hj & Hin).
      apply list_elem_of_In in Hin.
      apply (Hfresh j Hin). rewrite Hj.
      apply elem_of_union_l. now apply elem_of_singleton.
    + constructor; [exact Hnm|].
      eapply Forall_impl; [exact Hfresh|].
      intros j Hj Hused. simpl in Hj. apply Hj.
      now apply elem_of_union_r.
Qed.

End Generator.

(** ** When the name loop ends *)

Section Fairness.

Variable pool : list string.

Lemma fair_name (src : source) (k : nat) (nm : option string) :
  fair pool src -> nm ∈ (pool_names pool) ->
  exists d, name_of_draw pool (src (k + d)%nat) = nm.
Proof.
  intros Hfair Hnm.
  apply elem_of_list_to_set, list_elem_of_In, in_map_iff in Hnm
    as (x & <- & Hx).
  apply list_elem_of_In, list_elem_of_lookup in Hx as (i & Hi).
  destruct (Hfair k i) as (k' & Hk & Hfl).
  { now apply lookup_lt_Some in Hi. }
  exists (k' - k)%nat. replace (k + (k' - k))%nat with k' by lia.
  unfold name_of_draw, JS.get. rewrite Hfl.
  destruct (Z.ltb_spec (Z.of_nat i) 0); [lia|].
  now rewrite Nat2Z.id.
Qed.

(** The loop ends as soon as a draw selects a name that is not used. *)
Lemma redraw_returns (d : nat) (used : gset (option string))
    (u0 : option string) (src : source) (k : nat) :
  name_of_draw pool (src (k + d)%nat) ∉ used ->
  exists r, redraw pool (S d) used u0 src k = Some r.
Proof.
  revert u0 k.
  induction d as [|d IH]; intros u0 k Hfree;
    rewrite redraw_unfold; destruct (decide (u0 ∈ used)) as [Hin|Hout];
    try (eexists; reflexivity).
  - exists (name_of_draw pool (src k), S k).
    apply bind_Some. exists (name_of_draw pool (src k)), (S k).
    split; [now apply random_username_Some|].
    rewrite redraw_unfold. rewrite Nat.add_0_r in Hfree.
    now destruct (decide (name_of_draw pool (src k) ∈ used)).
  - destruct (IH (name_of_draw pool (src k)) (S k)) as [r Hr].
    { now replace (S k + d)%nat with (k + S d)%nat by lia. }
    exists r. apply bind_Some.
    exists (name_of_draw pool (src k)), (S k).
    split; [now apply random_username_Some|exact Hr].
Qed.

(** A larger bound does not change a result. *)
Lemma redraw_mono (fuel fuel' : nat) (used : gset (option string))
    (u0 : option string) (src : source) (k : nat) (r : option string * nat) :
  (fuel <= fuel')%nat ->
  redraw pool fuel used u0 src k = Some r ->
  redraw pool fuel' used u0 src k = Some r.
Proof.
  revert fuel' u0 k.
  induction fuel as [|fuel IH]; intros fuel' u0 k Hle H;
    rewrite redraw_unfold in H; rewrite redraw_unfold;
    destruct (decide (u0 ∈ used)) as [Hin|Hout];
    try discriminate; try exact H.
  destruct fuel' as [|fuel']; [lia|].
  apply bind_Some in H as (u1 & k1 & Hu & H).
  apply bind_Some. exists u1, k1. split; [exact Hu|].
  apply IH; [lia|exact H].
Qed.

Lemma generate_loop_mono (fuel fuel' n : nat) (playerScore : Q)
    (entries : list LeaderboardEntry) (used : gset (option string))
    (src : source) (k : nat) (r : list LeaderboardEntry * nat) :
  (fuel <= fuel')%nat ->
  generate_loop pool fuel n playerScore entries used src k = Some r ->
  generate_loop pool fuel' n playerScore entries used src k = Some r.
Proof.
  intros Hle. revert entries used k.
  induction n as [|n IH]; intros entries used k H; [exact H|].
  apply generate_loop_step in H as (nm & i & Hre & H).
  apply generate_loop_step. exists nm, i. split.
  - eapply redraw_mono; [exact Hle|exact Hre].
  - now apply IH.
Qed.

(** A set smaller than the pool leaves a name of the pool free. *)
Lemma free_name (used : gset (option string)) :
  (size used < size (pool_names pool))%nat ->
  exists nm, nm ∈ (pool_names pool) /\ nm ∉ used.
Proof.
  intros Hsize.
  destruct (decide ((pool_names pool) ∖ used = ∅)) as [Hempty|Hne].
  - assert (Hsub : (pool_names pool) ⊆ used).
    { intros x Hx. destruct (decide (x ∈ used)) as [|Hnot]; [assumption|].
      assert (Hd : x ∈ (pool_names pool) ∖ used) by now apply elem_of_difference.
      rewrite Hempty in Hd. now apply not_elem_of_empty in Hd. }
    apply subseteq_size in Hsub. lia.
  - apply set_choose_L in Hne as [nm Hnm].
    apply elem_of_difference in Hnm. now exists nm.
Qed.

(** With a fair source and enough distinct names for the iterations that
    remain, the loop returns for a large enough bound. *)
Lemma generate_loop_returns (n : nat) (playerScore : Q) (src : source) :
  fair pool src ->
  forall (entries : list LeaderboardEntry) (used : gset (option string))
         (k : nat),
    (n + size used <= size (pool_names pool))%nat ->
    exists fuel r,
      generate_loop pool fuel n playerScore entries used src k = Some r.
Proof.
  intros Hfair.
  induction n as [|n IH]; intros entries used k Hsize.
  - exists O. eexists. reflexivity.
  - destruct (free_name used) as (free & Hpool & Hfree); [lia|].
    destruct (fair_name src (S k) free Hfair Hpool) as [d Hd].
    destruct (redraw_returns d used (name_of_draw pool (src k)) src (S k))
      as [[nm i] Hre].
    { now rewrite Hd. }
    pose proof (redraw_Some _ _ _ _ _ _ _ _ Hre) as [Hnm _].
    destruct (IH (entries ++ [ {| username := nm;
                                  score := score_of_draw playerScore (src i);
                                  isNew := JS.gt (src (S i)) 0.7 |} ])
                 ({[ nm ]} ∪ used) (S (S i))) as (fuel & r & Hr).
    { rewrite size_union by (now apply disjoint_singleton_l).
      rewrite size_singleton. lia. }
    exists (Nat.max (S d) fuel), r.
    apply generate_loop_step. exists nm, i. split.
    + eapply redraw_mono; [|exact Hre]. lia.
    + eapply generate_loop_mono; [|exact Hr]. lia.
Qed.

End Fairness.

(** ** What the generator returns *)

Lemma generate_Some (pool : list string) (fuel : nat) (playerScore : Q)
    (src : source) (k : nat) (es : list LeaderboardEntry) (k' : nat) :
  generateLeaderboardEntries pool fuel playerScore src k = Some (es, k') ->
  exists draws,
    length draws = 15%nat /\
    score_draws k draws k' /\
    es = JS.sort by_score_desc (map (entry_at pool playerScore src) draws) /\
    NoDup (map (fun i => name_of_draw pool (src (pred i))) draws).
Proof.
  unfold generateLeaderboardEntries. intros H.
  apply bind_Some in H as (raw & k1 & Hloop & H).
  apply ret_Some in H. injection H as -> ->.
  apply generate_loop_Some in Hloop as (draws & Hlen & Hdraws & -> & Hnd & _).
  exists draws. now repeat split.
Qed.

Lemma score_of_draw_floor50 (playerScore u : Q) :
  (50 <= score_of_draw playerScore u)%Q.
Proof. apply Math_max_floor50. Qed.

Lemma live_score_of_draw_floor50 (score u : Q) :
  (50 <= live_score_of_draw score u)%Q.
Proof. apply Math_max_floor50. Qed.

Lemma generate_floor50 (pool : list string) (fuel : nat) (playerScore : Q)
    (src : source) (k : nat) (es : list LeaderboardEntry) (k' : nat) :
  generateLeaderboardEntries pool fuel playerScore src k = Some (es, k') ->
  Forall floor50 es.
Proof.
  intros H. apply generate_Some in H as (draws & _ & _ & -> & _).
  apply sort_Forall, Forall_forall. intros e He.
  apply list_elem_of_In, in_map_iff in He as (i & <- & _).
  apply score_of_draw_floor50.
Qed.

Lemma generate_length (pool : list string) (fuel : nat) (playerScore : Q)
    (src : source) (k : nat) (es : list LeaderboardEntry) (k' : nat) :
  generateLeaderboardEntries pool fuel playerScore src k = Some (es, k') ->
  length es = 15%nat.
Proof.
  intros H. apply generate_Some in H as (draws & Hlen & _ & -> & _).
  now rewrite sort_length, length_map.
Qed.

Lemma generate_descending (pool : list string) (fuel : nat) (playerScore : Q)
    (src : source) (k : nat) (es : list LeaderboardEntry) (k' : nat) :
  generateLeaderboardEntries pool fuel playerScore src k = Some (es, k') ->
  descending es.
Proof.
  intros H. apply generate_Some in H as (draws & _ & _ & -> & _).
  apply sort_descending.
Qed.

(** ** The two effects *)

Lemma seedEffect_PLAYING (pool : list string) (fuel : nat) (score highScore : Q)
    (st : OverlayState) (src : source) (k : nat) (st' : OverlayState) (k' : nat) :
  seedEffect pool fuel PLAYING score highScore st src k = Some (st', k') <->
  exists es,
    generateLeaderboardEntries pool fuel score src k = Some (es, k') /\
    st' = {| leaderboard := es; visibleStartIndex := visibleStartIndex st;
             leaderboardRef := es |}.
Proof.
  simpl. rewrite bind_Some. split.
  - intros (es & k1 & Hgen & H). apply ret_Some in H. injection H as -> ->.
    now exists es.
  - intros (es & Hgen & ->). exists es, k'. split; [exact Hgen|now apply ret_Some].
Qed.

Lemma seedEffect_GAME_OVER (pool : list string) (fuel : nat) (score highScore : Q)
    (st : OverlayState) (src : source) (k : nat) (st' : OverlayState) (k' : nat) :
  seedEffect pool fuel GAME_OVER score highScore st src k = Some (st', k') <->
  exists es,
    generateLeaderboardEntries pool fuel (JS.Math_max score highScore) src k
      = Some (es, k') /\
    st' = {| leaderboard := mergePlayer es score;
             visibleStartIndex := visibleStartIndex st;
             leaderboardRef := mergePlayer es score |}.
Proof.
  simpl. rewrite bind_Some. split.
  - intros (es & k1 & Hgen & H). apply ret_Some in H. injection H as -> ->.
    now exists es.
  - intros (es & Hgen & ->). exists es, k'. split; [exact Hgen|now apply ret_Some].
Qed.

(** A tick always returns: an insert or not, then the rotation. *)
Lemma tick_eq (pool : list string) (score : Q) (st : OverlayState)
    (src : source) (k : nat) :
  tick pool score st src k =
  let (st1, k1) := afterInsert pool score st src k in
  Some ({| leaderboard := leaderboard st1;
           visibleStartIndex :=
             rotate (length (leaderboardRef st1)) (visibleStartIndex st1);
           leaderboardRef := leaderboardRef st1 |}, k1).
Proof.
  unfold tick, afterInsert, mbind, Rand_bind, Math_random, random_username.
  simpl. destruct (JS.gt (src k) 0.5); reflexivity.
Qed.

Lemma insertLive_Permutation (e : LeaderboardEntry) (current : list LeaderboardEntry) :
  insertLive e current ≡ₚ e :: take 14 current.
Proof. apply sort_Permutation. Qed.

Lemma insertLive_length (e : LeaderboardEntry) (current : list LeaderboardEntry) :
  length (insertLive e current) = S (Nat.min 14 (length current)).
Proof.
  unfold insertLive, JS.slice0. rewrite sort_length. simpl.
  now rewrite length_take.
Qed.

Lemma insertLive_floor50 (e : LeaderboardEntry) (current : list LeaderboardEntry) :
  floor50 e -> Forall floor50 current -> Forall floor50 (insertLive e current).
Proof.
  intros He Hcur. apply sort_Forall. constructor; [exact He|].
  now apply Forall_take.
Qed.

Lemma mergePlayer_Permutation (es : list LeaderboardEntry) (score : Q) :
  mergePlayer es score ≡ₚ playerEntry score :: es.
Proof.
  unfold mergePlayer. rewrite sort_Permutation.
  symmetry. apply Permutation_cons_append.
Qed.

(** ** The test source is uniform and fair *)

Lemma cyclic15_in_unit_interval : in_unit_interval Fixtures.cyclic15.
Proof.
  intros k. unfold Fixtures.cyclic15.
  pose proof (Nat.mod_upper_bound k 15 ltac:(lia)) as Hk.
  unfold Qle, Qlt. simpl. split; lia.
Qed.

Lemma cyclic15_fair : fair Fixtures.pool15 Fixtures.cyclic15.
Proof.
  intros k i Hi. simpl in Hi.
  exists (i + k * 15)%nat. split; [lia|].
  unfold Fixtures.cyclic15.
  rewrite Nat.Div0.mod_add, (Nat.mod_small i 15) by exact Hi.
  do 15 (destruct i as [|i]; [vm_compute; reflexivity|]). lia.
Qed.

(** The arithmetic of the model at numbers where that of doubles differs
    from the exact one: 0.1 + 0.2 is the double above 0.3; with the base 500
    and the largest draw below 1 the score is 780, where the exact value of the
    formula is below 780; with the score 100 and the draw 0.08 the live score
    is 57, where the exact product is 58; the double nearest to 1/15 selects
    the second of 15 names; and with the score 42.666666666666664 and the
    largest draw the live score is 64, the product 1.5 * score rounded up. *)
Lemma double_arithmetic_examples :
  (JS.add (JS.fl 0.1) (JS.fl 0.2)
   == 5404319552844596 # 18014398509481984)%Q /\
  (JS.fl 0.3 == 5404319552844595 # 18014398509481984)%Q /\
  score_of_draw 500 (1 - (1 # 2) ^ 53)%Q = 780%Q /\
  live_score_of_draw 100 (JS.fl 0.08) = 57%Q /\
  name_of_draw Fixtures.pool15 (JS.fl (1 # 15)) = Some "Bolt"%string /\
  live_score_of_draw (JS.fl 42.666666666666664) (1 - (1 # 2) ^ 53)%Q = 64%Q.
Proof. vm_compute. repeat split; reflexivity. Qed.

Lemma pool15_names : (15 <= size (pool_names Fixtures.pool15))%nat.
Proof. vm_compute. reflexivity. Qed.

Lemma baseScore_of_eq (playerScore : Q) :
  baseScore_of playerScore =
  if Qlt_le_dec 100 playerScore then playerScore else 500%Q.
Proof.
  unfold baseScore_of.
  destruct (JS.gt playerScore 100) eqn:E, (Qlt_le_dec 100 playerScore) as [Hlt|Hle];
    try reflexivity.
  - apply gt_true in E. lra.
  - apply gt_false in E. lra.
Qed.

(** With a fair source over a pool of 15 distinct names the generator
    returns, for a large enough bound on the name loop. *)
Lemma generate_returns (pool : list string) (playerScore : Q) (src : source)
    (k : nat) :
  fair pool src -> (15 <= size (pool_names pool))%nat ->
  exists fuel es k',
    generateLeaderboardEntries pool fuel playerScore src k = Some (es, k').
Proof.
  intros Hfair Hpool.
  destruct (generate_loop_returns pool 15 playerScore src Hfair [] ∅ k)
    as (fuel & [raw k'] & Hloop).
  { rewrite size_empty. lia. }
  exists fuel, (JS.sort by_score_desc raw), k'.
  unfold generateLeaderboardEntries. apply bind_Some.
  exists raw, k'. split; [exact Hloop|now apply ret_Some].
Qed.

Lemma stuck_in_unit_interval : in_unit_interval Fixtures.stuck.
Proof. intros k. unfold Fixtures.stuck. split; [apply Qle_refl|reflexivity]. Qed.

Lemma stuck_redraw (fuel : nat) (k : nat) :
  redraw Fixtures.pool15 fuel {[ Some "Ace"%string ]}
    (Some "Ace"%string) Fixtures.stuck k = None.
Proof.
  revert k. induction fuel as [|fuel IH]; intros k;
    rewrite redraw_unfold;
    (case_decide as Hn; [|exfalso; apply Hn; now apply elem_of_singleton]).
  - reflexivity.
  - unfold mbind, Rand_bind.
    rewrite (proj2 (random_username_Some _ _ _ _) eq_refl).
    apply IH.
Qed.

(** The name loop does not end when every draw gives a name that is
    used. *)
Lemma redraw_never (pool : list string) (fuel : nat)
    (used : gset (option string)) (nm : option string) (src : source)
    (k : nat) :
  nm ∈ used -> (forall j, name_of_draw pool (src j) ∈ used) ->
  redraw pool fuel used nm src k = None.
Proof.
  intros Hnm Hall. revert nm k Hnm.
  induction fuel as [|fuel IH]; intros nm k Hnm;
    rewrite redraw_unfold; (case_decide as Hn; [|contradiction]).
  - reflexivity.
  - unfold mbind, Rand_bind.
    rewrite (proj2 (random_username_Some _ _ _ _) eq_refl).
    apply IH, Hall.
Qed.

Lemma alternating_in_unit_interval : in_unit_interval Fixtures.alternating.
Proof.
  intros k. unfold Fixtures.alternating.
  destruct (Nat.even k); unfold Qle, Qlt; simpl; lia.
Qed.

(** ** Milestones *)

Lemma nextMilestoneIn_Some (themes : list Theme) (score highScore : Q)
    (t : Theme) (r : Q) :
  nextMilestoneIn themes score highScore = Some (t, r) <->
  exists before after,
    themes = before ++ t :: after /\
    Forall (fun t' => (unlockScore t' <= Qmax score highScore)%Q) before /\
    (Qmax score highScore < unlockScore t)%Q /\
    r = (unlockScore t - Qmax score highScore)%Q.
Proof.
  induction themes as [|theme rest IH]; simpl.
  - split; [discriminate|].
    intros (before & after & H & _). now destruct before.
  - destruct (JS.lt (JS.Math_max score highScore) (unlockScore theme)) eqn:E.
    + apply lt_true in E. split.
      * intros [= <- <-]. exists [], rest. repeat split; [constructor|exact E].
      * intros ([|t' before] & after & H & Hbefore & Hlt & ->);
          simpl in H; injection H as -> ->; [reflexivity|].
        inversion Hbefore as [|? ? Hle _]; subst.
        unfold JS.Math_max in E. lra.
    + apply lt_false in E. rewrite IH. split.
      * intros (before & after & -> & Hbefore & Hlt & ->).
        exists (theme :: before), after.
        repeat split; [constructor; assumption|exact Hlt].
      * intros ([|t' before] & after & H & Hbefore & Hlt & ->);
          simpl in H; injection H as -> ->.
        { unfold JS.Math_max in E. lra. }
        inversion Hbefore; subst. now exists before, after.
Qed.

Lemma nextMilestoneIn_None (themes : list Theme) (score highScore : Q) :
  nextMilestoneIn themes score highScore = None <->
  Forall (fun t => (unlockScore t <= Qmax score highScore)%Q) themes.
Proof.
  induction themes as [|theme rest IH]; simpl.
  - split; [constructor|reflexivity].
  - destruct (JS.lt (JS.Math_max score highScore) (unlockScore theme)) eqn:E.
    + apply lt_true in E. split; [discriminate|].
      intros H. inversion H as [|? ? Hle _]; subst.
      unfold JS.Math_max in E. lra.
    + apply lt_false in E. rewrite IH. split.
      * intros H. now constructor.
      * intros H. now inversion H.
Qed.

(** ** Ranks *)

Lemma findIndex_from_found {A} (p : A -> bool) (before : list A) (x : A)
    (after : list A) (i0 : Z) :
  Forall (fun y => p y = false) before -> p x = true ->
  JS.findIndex_from p (before ++ x :: after) i0 = i0 + Z.of_nat (length before).
Proof.
  intros Hbefore Hx. revert i0.
  induction Hbefore as [|y before Hy _ IH]; intros i0; simpl.
  - rewrite Hx. lia.
  - rewrite Hy, IH. lia.
Qed.

Lemma findIndex_from_none {A} (p : A -> bool) (l : list A) (i0 : Z) :
  0 <= i0 ->
  (Forall (fun y => p y = false) l <-> JS.findIndex_from p l i0 = -1).
Proof.
  revert i0. induction l as [|y l IH]; intros i0 Hi0; simpl.
  - split; [reflexivity|constructor].
  - destruct (p y) eqn:E.
    + split; [|lia]. intros H. inversion H; congruence.
    + rewrite <- IH by lia. split.
      * intros H. now inversion H.
      * intros H. now constructor.
Qed.

Lemma username_test (ident : option string) (e : LeaderboardEntry) :
  bool_decide (username e = ident) = false <-> username e <> ident.
Proof.
  destruct (bool_decide_reflect (username e = ident)) as [Heq|Hne].
  - split; [discriminate|]. intros H. now destruct H.
  - now split.
Qed.

Lemma rankOf_found (ident : option string)
    (before : list LeaderboardEntry) (e : LeaderboardEntry)
    (after : list LeaderboardEntry) :
  Forall (fun x => username x <> ident) before -> username e = ident ->
  rankOf ident (before ++ e :: after) = Z.of_nat (length before) + 1.
Proof.
  intros Hbefore He. unfold rankOf, JS.findIndex.
  rewrite findIndex_from_found; [lia| |now apply bool_decide_eq_true].
  eapply Forall_impl; [exact Hbefore|]. intros x Hx. now apply username_test.
Qed.

Lemma rankOf_absent (ident : option string) (snapshot : list LeaderboardEntry) :
  Forall (fun x => username x <> ident) snapshot <-> rankOf ident snapshot = 0.
Proof.
  unfold rankOf, JS.findIndex.
  pose proof (findIndex_from_none
    (fun entry => bool_decide (username entry = ident)) snapshot 0 ltac:(lia))
    as H.
  split.
  - intros Hall. enough (JS.findIndex_from
      (fun entry => bool_decide (username entry = ident)) snapshot 0 = -1) by lia.
    apply H. eapply Forall_impl; [exact Hall|].
    intros x Hx. now apply username_test.
  - intros Hrank.
    assert (Hidx : JS.findIndex_from
      (fun entry => bool_decide (username entry = ident)) snapshot 0 = -1) by lia.
    apply H in Hidx. eapply Forall_impl; [exact Hidx|].
    intros x Hx. simpl in Hx. now apply username_test.
Qed.

Lemma filter_length_Permutation {A} (f : A -> bool) (l1 l2 : list A) :
  l1 ≡ₚ l2 -> length (List.filter f l1) = length (List.filter f l2).
Proof.
  induction 1 as [|x l1 l2 _ IH|x y l|l1 l2 l3 _ IH1 _ IH2]; simpl.
  - reflexivity.
  - destruct (f x); simpl; now rewrite IH.
  - destruct (f x), (f y); reflexivity.
  - now rewrite IH1.
Qed.

(** Where the sort puts the entry of the player: behind the synthetic
    entries whose score is at least the score of the run. *)
Lemma mergePlayer_split (synthetic : list LeaderboardEntry) (runScore : Q) :
  exists hi lo,
    mergePlayer synthetic runScore = hi ++ playerEntry runScore :: lo /\
    hi ++ lo ≡ₚ synthetic /\
    length hi
      = length (List.filter (fun e => Qle_bool runScore (score e)) synthetic).
Proof.
  destruct (sort_snoc synthetic (playerEntry runScore))
    as (hi & lo & Hs & Hsp & Hhi & Hlo).
  exists hi, lo. split; [exact Hsp|].
  assert (Hperm : hi ++ lo ≡ₚ synthetic).
  { rewrite <- Hs. apply sort_Permutation. }
  split; [exact Hperm|].
  rewrite <- (filter_length_Permutation _ _ _ Hperm), List.filter_app, length_app.
  assert (Hf1 : List.filter (fun e => Qle_bool runScore (score e)) hi = hi).
  { clear - Hhi. induction Hhi as [|e hi He _ IH]; simpl; [reflexivity|].
    simpl in He. apply Qle_bool_iff in He. now rewrite He, IH. }
  assert (Hf2 : List.filter (fun e => Qle_bool runScore (score e)) lo = []).
  { clear - Hlo. induction Hlo as [|e lo He _ IH]; simpl; [reflexivity|].
    simpl in He. destruct (Qle_bool runScore (score e)) eqn:E; [|exact IH].
    apply Qle_bool_iff in E. lra. }
  rewrite Hf1, Hf2. simpl. lia.
Qed.

Lemma name_of_draw_pool (pool : list string) (u : Q) (x : string) :
  name_of_draw pool u = Some x -> In x pool.
Proof.
  unfold name_of_draw, JS.get.
  destruct (_ <? 0); [discriminate|].
  intros H. apply list_elem_of_In. eapply list_elem_of_lookup_2. exact H.
Qed.

Lemma generate_names (pool : list string) (fuel : nat) (playerScore : Q)
    (src : source) (k : nat) (es : list LeaderboardEntry) (k' : nat) :
  generateLeaderboardEntries pool fuel playerScore src k = Some (es, k') ->
  Forall (fun e => forall x, username e = Some x -> In x pool) es.
Proof.
  intros H. apply generate_Some in H as (draws & _ & _ & -> & _).
  apply sort_Forall, Forall_forall. intros e He.
  apply list_elem_of_In, in_map_iff in He as (i & <- & _).
  simpl. intros x. apply name_of_draw_pool.
Qed.

(** ** The interval *)

Lemma tick_Some (pool : list string) (score : Q) (st : OverlayState)
    (src : source) (k : nat) :
  exists st' k',
    tick pool score st src k = Some (st', k') /\
    visibleStartIndex st'
      = rotate (length (leaderboardRef st')) (visibleStartIndex st) /\
    leaderboard st' = (if JS.gt (src k) 0.5
                       then leaderboardRef st' else leaderboard st) /\
    (JS.gt (src k) 0.5 = false /\ leaderboardRef st' = leaderboardRef st \/
     JS.gt (src k) 0.5 = true /\
     exists newEntry, floor50 newEntry /\
       leaderboardRef st' = insertLive newEntry (leaderboardRef st)).
Proof.
  rewrite tick_eq. unfold afterInsert.
  destruct (JS.gt (src k) 0.5); eexists; eexists;
    (split; [reflexivity|]); simpl; (split; [reflexivity|]);
    (split; [reflexivity|]).
  - right. split; [reflexivity|].
    eexists. split; [|reflexivity]. apply live_score_of_draw_floor50.
  - now left.
Qed.

Lemma tick_keeps_15 (pool : list string) (score : Q) (st : OverlayState)
    (src : source) (k : nat) (st' : OverlayState) (k' : nat) :
  tick pool score st src k = Some (st', k') ->
  length (leaderboardRef st) = 15%nat -> length (leaderboardRef st') = 15%nat.
Proof.
  intros H Hlen.
  destruct (tick_Some pool score st src k) as (st1 & k1 & H1 & _ & _ & Href).
  rewrite H in H1. injection H1 as <- <-.
  destruct Href as [[_ ->]|(_ & e & _ & ->)]; [exact Hlen|].
  now rewrite insertLive_length, Hlen.
Qed.

Lemma ticks_S (pool : list string) (n : nat) (score : Q) (st : OverlayState)
    (src : source) (k : nat) (r : OverlayState * nat) :
  ticks pool (S n) score st src k = Some r <->
  exists st1 k1,
    tick pool score st src k = Some (st1, k1) /\
    ticks pool n score st1 src k1 = Some r.
Proof. simpl. apply bind_Some. Qed.

Lemma ticks_Some (pool : list string) (n : nat) (score : Q) (st : OverlayState)
    (src : source) (k : nat) :
  exists st' k', ticks pool n score st src k = Some (st', k').
Proof.
  revert st k. induction n as [|n IH]; intros st k.
  - now exists st, k.
  - destruct (tick_Some pool score st src k) as (st1 & k1 & H1 & _).
    destruct (IH st1 k1) as (st' & k' & H').
    exists st', k'. apply ticks_S. now exists st1, k1.
Qed.

Lemma ticks_keep_15 (pool : list string) (n : nat) (score : Q)
    (st : OverlayState) (src : source) (k : nat) (st' : OverlayState) (k' : nat) :
  length (leaderboardRef st) = 15%nat ->
  ticks pool n score st src k = Some (st', k') ->
  length (leaderboardRef st') = 15%nat.
Proof.
  revert st k. induction n as [|n IH]; intros st k Hlen H.
  - simpl in H. apply ret_Some in H. now injection H as -> ->.
  - apply ticks_S in H as (st1 & k1 & H1 & H).
    eapply IH; [|exact H]. eapply tick_keeps_15; [exact H1|exact Hlen].
Qed.

(** The rotation is the successor modulo [max(1, len - 3)]. *)
Lemma rotate_mod (len : nat) (prev : Z) :
  0 <= prev ->
  rotate len prev = (prev + 1) mod Z.max 1 (Z.of_nat len - 3).
Proof. intros H. unfold rotate. apply Z.rem_mod_nonneg; lia. Qed.

(** The index after [n] ticks, when the store keeps its size [N]. *)
Lemma ticks_index (pool : list string) (N : nat) (n : nat) (score : Q)
    (st : OverlayState) (src : source) (k : nat) (st' : OverlayState) (k' : nat) :
  (forall j stj kj, ticks pool j score st src k = Some (stj, kj) ->
                    length (leaderboardRef stj) = N) ->
  0 <= visibleStartIndex st < Z.max 1 (Z.of_nat N - 3) ->
  ticks pool n score st src k = Some (st', k') ->
  visibleStartIndex st'
    = (visibleStartIndex st + Z.of_nat n) mod Z.max 1 (Z.of_nat N - 3).
Proof.
  revert st k. induction n as [|n IH]; intros st k Hsize Hrange H.
  - simpl in H. apply ret_Some in H. injection H as -> ->.
    rewrite Z.add_0_r. symmetry. now apply Z.mod_small.
  - apply ticks_S in H as (st1 & k1 & H1 & H).
    destruct (tick_Some pool score st src k) as (st1' & k1' & H1' & Hidx & _).
    rewrite H1 in H1'. injection H1' as <- <-.
    assert (Hlen1 : length (leaderboardRef st1) = N).
    { apply (Hsize 1%nat st1 k1). apply ticks_S. exists st1, k1.
      split; [exact H1|reflexivity]. }
    rewrite Hlen1, rotate_mod in Hidx by lia.
    rewrite (IH st1 k1).
    + rewrite Hidx, Zplus_mod_idemp_l. f_equal. lia.
    + intros j stj kj Hj. apply (Hsize (S j) stj kj).
      apply ticks_S. now exists st1, k1.
    + rewrite Hidx. apply Z.mod_pos_bound. lia.
    + exact H.
Qed.

(** ** Phase changes *)

Lemma seedEffect_index (pool : list string) (fuel : nat) (status : GameStatus)
    (score highScore : Q) (st : OverlayState) (src : source) (k : nat)
    (st' : OverlayState) (k' : nat) :
  seedEffect pool fuel status score highScore st src k = Some (st', k') ->
  visibleStartIndex st' = visibleStartIndex st.
Proof.
  destruct status; intros H.
  - simpl in H. apply ret_Some in H. now injection H as -> ->.
  - now apply seedEffect_PLAYING in H as (es & _ & ->).
  - now apply seedEffect_GAME_OVER in H as (es & _ & ->).
Qed.

Lemma step_Props (pool : list string) (fuel : nat) (c : Component)
    (status : GameStatus) (score highScore : Q) (src : source) (k : nat)
    (c' : Component) (k' : nat) :
  step pool fuel c (Props status score highScore) src k = Some (c', k') <->
  exists st',
    seedEffect pool fuel status score highScore (hooks c) src k = Some (st', k') /\
    c' = {| props_status := status; props_score := score;
            props_highScore := highScore; hooks := st' |}.
Proof.
  simpl. rewrite bind_Some. split.
  - intros (st' & k1 & Hseed & H). apply ret_Some in H. injection H as -> ->.
    now exists st'.
  - intros (st' & Hseed & ->). exists st', k'.
    split; [exact Hseed|now apply ret_Some].
Qed.

Lemma run_cons (pool : list string) (fuel : nat) (ev : Event)
    (evs : list Event) (c : Component) (src : source) (k : nat)
    (r : Component * nat) :
  run pool fuel (ev :: evs) c src k = Some r <->
  exists c1 k1,
    step pool fuel c ev src k = Some (c1, k1) /\
    run pool fuel evs c1 src k1 = Some r.
Proof. simpl. apply bind_Some. Qed.

(** Every event keeps the component well formed. *)
Lemma step_ok (pool : list string) (fuel : nat) (c : Component) (ev : Event)
    (src : source) (k : nat) (c' : Component) (k' : nat) :
  component_ok c -> step pool fuel c ev src k = Some (c', k') ->
  component_ok c'.
Proof.
  intros (Hsame & Hdesc & Hidx & Hplay) H.
  destruct ev as [status score highScore|].
  - apply step_Props in H as (st' & Hseed & ->).
    pose proof (seedEffect_index _ _ _ _ _ _ _ _ _ _ Hseed) as Hw.
    unfold component_ok. simpl. rewrite Hw.
    destruct status.
    + simpl in Hseed. apply ret_Some in Hseed. injection Hseed as -> _.
      repeat split; try assumption; try tauto; discriminate.
    + apply seedEffect_PLAYING in Hseed as (es & Hgen & ->). simpl.
      repeat split; try tauto.
      * eapply generate_descending; exact Hgen.
      * eapply generate_length; exact Hgen.
      * eapply generate_floor50; exact Hgen.
    + apply seedEffect_GAME_OVER in Hseed as (es & Hgen & ->). simpl.
      repeat split; try tauto; try discriminate.
      apply sort_descending.
  - simpl in H. destruct (props_status c) eqn:Est.
    + apply ret_Some in H. injection H as -> _.
      unfold component_ok. rewrite Est. repeat split; try tauto; discriminate.
    + destruct Hplay as [Hlen Hfloor]; [reflexivity|].
      apply bind_Some in H as (st' & k1 & Htick & H).
      apply ret_Some in H. injection H as -> ->.
      pose proof (tick_keeps_15 _ _ _ _ _ _ _ Htick Hlen) as Hlen'.
      destruct (tick_Some pool (props_score c) (hooks c) src k)
        as (st1 & k2 & Htick' & Hrot & Hboard & Href).
      rewrite Htick in Htick'. injection Htick' as <- <-.
      unfold component_ok. simpl.
      split; [|split; [|split]].
      * rewrite Hboard.
        destruct Href as [[-> ->]|[-> _]]; [exact Hsame|reflexivity].
      * destruct Href as [[_ ->]|(_ & e & _ & ->)];
          [exact Hdesc|apply sort_descending].
      * rewrite Hrot, Hlen', rotate_mod by lia.
        change (Z.max 1 (Z.of_nat 15 - 3)) with 12.
        apply Z.mod_pos_bound. lia.
      * intros _. split; [exact Hlen'|].
        destruct Href as [[_ ->]|(_ & e & He & ->)]; [exact Hfloor|].
        now apply insertLive_floor50.
    + apply ret_Some in H. injection H as -> _.
      unfold component_ok. rewrite Est. repeat split; try tauto; discriminate.
Qed.

Lemma created_ok : component_ok created.
Proof.
  unfold component_ok, created. simpl.
  repeat split; try lia; try discriminate. constructor.
Qed.

(** The component is well formed after every sequence of events. *)
Lemma run_ok (pool : list string) (fuel : nat) (evs : list Event)
    (c : Component) (src : source) (k : nat) (c' : Component) (k' : nat) :
  component_ok c -> run pool fuel evs c src k = Some (c', k') ->
  component_ok c'.
Proof.
  revert c k. induction evs as [|ev evs IH]; intros c k Hok H.
  - simpl in H. apply ret_Some in H. now injection H as -> ->.
  - apply run_cons in H as (c1 & k1 & Hstep & H).
    eapply IH; [|exact H]. eapply step_ok; [exact Hok|exact Hstep].
Qed.

(** * The claims of the specification *)




(** C2. The live insert returns the descending sort of the new entry and the
    first 14 entries of the prior order: it is the list that the words of the
    specification describe, it is a rearrangement of exactly these entries, and
    it is in descending order.  The store has at most 15 entries afterwards,
    and exactly 15 when it had 15 before. *)
Theorem insertLive_spec (newEntry : LeaderboardEntry)
    (current : list LeaderboardEntry) :
  insertLive newEntry current = insertLive_as_specified newEntry current /\
  insertLive newEntry current ≡ₚ newEntry :: take 14 current /\
  descending (insertLive newEntry current) /\
  (length (insertLive newEntry current) <= 15)%nat /\
  (length current = 15%nat -> length (insertLive newEntry current) = 15%nat).
Proof.
  split; [reflexivity|].
  split; [apply insertLive_Permutation|].
  split; [apply sort_descending|].
  rewrite insertLive_length. split; [lia|]. intros ->. reflexivity.
Qed.

Lemma insertLive_spec_witness :
  length (insertLive (playerEntry 70) (repeat (playerEntry 60) 15)) = 15%nat.
Proof.
  apply (insertLive_spec (playerEntry 70) (repeat (playerEntry 60) 15)).
  reflexivity.
Defined.

(** C3, as the code has it.  For a reference score and a source with draws
    in [0, 1), whenever the generator returns it returns 15 entries in
    non-increasing order of the scores.  They are the sort of one entry per
    iteration, each built from draws of its own; with base = referenceScore
    if referenceScore > 100 and 500 otherwise, and variance = base * 0.8, the
    entry whose score draw is [u] has the score
    max(50, floor(base + (u - 0.3) * variance)), where each operation rounds
    to the nearest double as the code does, and its flag is set exactly when
    the draw after [u] is above 0.7, which a uniform draw is with probability
    0.3.  The generator does return, for a large enough bound on the name
    loop, when the source is fair and the pool has 15 distinct names. *)
Theorem generate_returns_15 (pool : list string) (referenceScore : Q)
    (src : source) (k : nat) :
  in_unit_interval src ->
  (fair pool src -> (15 <= size (pool_names pool))%nat ->
   exists fuel es k',
     generateLeaderboardEntries pool fuel referenceScore src k = Some (es, k')) /\
  (forall fuel es k',
     generateLeaderboardEntries pool fuel referenceScore src k = Some (es, k') ->
     length es = 15%nat /\
     descending es /\
     exists draws,
       length draws = 15%nat /\
       score_draws k draws k' /\
       es = JS.sort by_score_desc (map (entry_at pool referenceScore src) draws) /\
       Forall (fun e => exists i,
         In i draws /\
         let u := src i in
         let base := if Qlt_le_dec 100 referenceScore
                     then referenceScore else 500%Q in
         let variance := JS.mul base (JS.fl 0.8) in
         (0 <= u < 1)%Q /\
         score e
         = Qmax 50 (inject_Z (Qfloor
             (JS.add base (JS.mul (JS.sub u (JS.fl 0.3)) variance)))) /\
         (isNew e = true <-> (0.7 < src (S i))%Q)) es).
Proof.
  intros Hunit. split.
  - intros Hfair Hpool. now apply generate_returns.
  - intros fuel es k' Hgen.
    split; [eapply generate_length; exact Hgen|].
    split; [eapply generate_descending; exact Hgen|].
    apply generate_Some in Hgen as (draws & Hlen & Hdraws & Hes & _).
    exists draws. repeat split; try assumption.
    rewrite Hes. apply sort_Forall, Forall_forall. intros e He.
    apply list_elem_of_In, in_map_iff in He as (i & <- & Hi).
    exists i. split; [exact Hi|]. simpl.
    split; [apply Hunit|].
    split.
    + unfold score_of_draw. now rewrite baseScore_of_eq.
    + apply gt_true.
Qed.

Lemma generate_returns_15_witness :
  exists fuel es k',
    generateLeaderboardEntries Fixtures.pool15 fuel 1000 Fixtures.cyclic15 0%nat
      = Some (es, k') /\ length es = 15%nat /\ descending es.
Proof.
  destruct (generate_returns_15 Fixtures.pool15 1000 Fixtures.cyclic15 0%nat
              cyclic15_in_unit_interval) as [Hreturns Hresult].
  destruct (Hreturns cyclic15_fair pool15_names) as (fuel & es & k' & Hgen).
  destruct (Hresult fuel es k' Hgen) as (Hlen & Hdesc & _).
  now exists fuel, es, k'.
Defined.

(** C3 fails for a source that the name loop cannot leave: with the draws
    0, 1/2, 0, 1/2, ..., all in [0, 1), and a pool of 15 distinct names, the
    first two iterations take the first and the eighth name, the third
    iteration draws these two again and again, and the generator returns
    nothing, whatever the bound on the loop is. *)
Lemma alternating_source_returns_nothing :
  in_unit_interval Fixtures.alternating /\
  (15 <= size (pool_names Fixtures.pool15))%nat /\
  forall fuel,
    generateLeaderboardEntries Fixtures.pool15 fuel 1000 Fixtures.alternating
      0%nat = None.
Proof.
  split; [exact alternating_in_unit_interval|]. split; [exact pool15_names|].
  intros fuel.
  destruct (generateLeaderboardEntries Fixtures.pool15 fuel 1000
              Fixtures.alternating 0%nat) as [[es k']|] eqn:E; [|reflexivity].
  exfalso.
  unfold generateLeaderboardEntries in E.
  apply bind_Some in E as (raw & k1 & Hloop & _).
  assert (Hname : forall j,
            name_of_draw Fixtures.pool15 (Fixtures.alternating j)
            = if Nat.even j then Some "Ace"%string else Some "Halo"%string).
  { intros j. unfold Fixtures.alternating.
    destruct (Nat.even j); vm_compute; reflexivity. }
  apply generate_loop_step in Hloop as (nm & i & Hre1 & Hloop).
  rewrite redraw_unfold in Hre1.
  case_decide as Hin1; [now apply not_elem_of_empty in Hin1|]. clear Hin1.
  apply ret_Some in Hre1. injection Hre1 as -> ->.
  apply generate_loop_step in Hloop as (nm & i & Hre2 & Hloop).
  rewrite (Hname 0%nat), (Hname 3%nat) in Hre2.
  rewrite (Hname 0%nat) in Hloop. cbn [Nat.even] in Hre2, Hloop.
  rewrite redraw_unfold in Hre2.
  destruct (decide _) as [Hin2|_].
  { apply elem_of_union in Hin2 as [Hin2|Hin2].
    - apply elem_of_singleton in Hin2. discriminate.
    - now apply not_elem_of_empty in Hin2. }
  apply ret_Some in Hre2. injection Hre2 as -> ->.
  apply generate_loop_step in Hloop as (nm & i & Hre3 & _).
  rewrite redraw_never in Hre3; [discriminate| |].
  - rewrite Hname. cbn [Nat.even]. set_solver.
  - intros j. rewrite Hname. destruct (Nat.even j); set_solver.
Qed.

(** C4, as the code has it.  A render that enters PLAYING replaces the
    store by 15 entries that the generator makes from the score of that
    render (it returns for a fair source over a pool of 15 distinct names).
    No render changes the index of the window: it is 0 when the component is
    created and until the interval fires first, and after that a phase change
    leaves it as the last tick set it. *)
Theorem entering_playing_reseeds (pool : list string) :
  (forall c score highScore src k,
      fair pool src -> (15 <= size (pool_names pool))%nat ->
      exists fuel c' k',
        step pool fuel c (Props PLAYING score highScore) src k = Some (c', k')) /\
  (forall fuel c score highScore src k c' k',
      step pool fuel c (Props PLAYING score highScore) src k = Some (c', k') ->
      props_status c' = PLAYING /\
      generateLeaderboardEntries pool fuel score src k
        = Some (leaderboardRef (hooks c'), k') /\
      leaderboard (hooks c') = leaderboardRef (hooks c') /\
      length (leaderboardRef (hooks c')) = 15%nat) /\
  (forall fuel c status score highScore src k c' k',
      step pool fuel c (Props status score highScore) src k = Some (c', k') ->
      visibleStartIndex (hooks c') = visibleStartIndex (hooks c)) /\
  (forall fuel evs src k c' k',
      Forall is_Props evs ->
      run pool fuel evs created src k = Some (c', k') ->
      visibleStartIndex (hooks c') = 0).
Proof.
  split; [|split; [|split]].
  - intros c score highScore src k Hfair Hpool.
    destruct (generate_returns pool score src k Hfair Hpool)
      as (fuel & es & k' & Hgen).
    exists fuel. eexists. exists k'.
    apply step_Props. eexists. split; [|reflexivity].
    apply seedEffect_PLAYING. exists es. split; [exact Hgen|reflexivity].
  - intros fuel c score highScore src k c' k' H.
    apply step_Props in H as (st' & Hseed & ->).
    apply seedEffect_PLAYING in Hseed as (es & Hgen & ->). simpl.
    repeat split; try assumption.
    eapply generate_length; exact Hgen.
  - intros fuel c status score highScore src k c' k' H.
    apply step_Props in H as (st' & Hseed & ->). simpl.
    eapply seedEffect_index; exact Hseed.
  - intros fuel evs src k c' k' Hevs.
    assert (Hgen : forall c k, run pool fuel evs c src k = Some (c', k') ->
                   visibleStartIndex (hooks c') = visibleStartIndex (hooks c)).
    { induction Hevs as [|ev evs Hev _ IH]; intros c k0 H.
      - simpl in H. apply ret_Some in H. now injection H as -> ->.
      - apply run_cons in H as (c1 & k1 & Hstep & H).
        rewrite (IH c1 k1 H).
        destruct ev as [status score highScore|]; [|destruct Hev].
        apply step_Props in Hstep as (st' & Hseed & ->). simpl.
        eapply seedEffect_index; exact Hseed. }
    intros H. now rewrite (Hgen created k H).
Qed.

Lemma entering_playing_reseeds_witness :
  exists c' k',
    step Fixtures.pool15 3 created (Props PLAYING 0 0) Fixtures.cyclic15 0%nat
      = Some (c', k') /\
    length (leaderboardRef (hooks c')) = 15%nat.
Proof.
  eexists. eexists. split.
  - vm_compute. reflexivity.
  - apply (proj1 (proj2 (entering_playing_reseeds Fixtures.pool15))
             3%nat created 0%Q 0%Q Fixtures.cyclic15 0%nat _ 47%nat).
    vm_compute. reflexivity.
Defined.

(** C4 fails where the player starts again: the index of the window is 1
    after the second entry into PLAYING, as the tick of the first run left
    it. *)
Lemma window_not_reset_on_replay :
  exists c' k',
    run Fixtures.pool15 3 Fixtures.replay created Fixtures.cyclic15 0%nat
      = Some (c', k') /\
    props_status c' = PLAYING /\
    visibleStartIndex (hooks c') <> 0.
Proof.
  eexists. eexists. split; [vm_compute; reflexivity|].
  split; [reflexivity|]. simpl. lia.
Qed.

(** C5. While the store keeps its size N over the ticks, the index of the
    window, which each tick moves to (windowStart + 1) mod max(1, N - 3), is
    back at the value it started from after max(1, N - 3) ticks, and after no
    smaller positive number of ticks. *)
Theorem rotation_period (pool : list string) (N : nat) (score : Q)
    (st : OverlayState) (src : source) (k : nat) :
  (forall j stj kj, ticks pool j score st src k = Some (stj, kj) ->
                    length (leaderboardRef stj) = N) ->
  0 <= visibleStartIndex st < Z.max 1 (Z.of_nat N - 3) ->
  (forall st1 k1, tick pool score st src k = Some (st1, k1) ->
      visibleStartIndex st1
        = (visibleStartIndex st + 1) mod Z.max 1 (Z.of_nat N - 3)) /\
  (exists st' k',
      ticks pool (Z.to_nat (Z.max 1 (Z.of_nat N - 3))) score st src k
        = Some (st', k') /\
      visibleStartIndex st' = visibleStartIndex st) /\
  (forall j st' k',
      (0 < j < Z.to_nat (Z.max 1 (Z.of_nat N - 3)))%nat ->
      ticks pool j score st src k = Some (st', k') ->
      visibleStartIndex st' <> visibleStartIndex st).
Proof.
  intros Hsize Hrange. split; [|split].
  - intros st1 k1 H1.
    rewrite (ticks_index pool N 1 score st src k st1 k1 Hsize Hrange);
      [reflexivity|].
    apply ticks_S. exists st1, k1. split; [exact H1|reflexivity].
  - destruct (ticks_Some pool (Z.to_nat (Z.max 1 (Z.of_nat N - 3))) score st src k)
      as (st' & k' & H).
    exists st', k'. split; [exact H|].
    rewrite (ticks_index pool N _ score st src k st' k' Hsize Hrange H).
    rewrite Z2Nat.id by lia.
    rewrite <- Zplus_mod_idemp_r, Z.mod_same, Z.add_0_r by lia.
    now apply Z.mod_small.
  - intros j st' k' Hj H.
    rewrite (ticks_index pool N _ score st src k st' k' Hsize Hrange H).
    set (m := Z.max 1 (Z.of_nat N - 3)) in *.
    set (w := visibleStartIndex st) in *.
    destruct (Z_lt_ge_dec (w + Z.of_nat j) m) as [Hlt|Hge].
    + rewrite Z.mod_small by lia. lia.
    + replace (w + Z.of_nat j) with ((w + Z.of_nat j - m) + 1 * m) by lia.
      rewrite Z.mod_add by lia. rewrite Z.mod_small by lia. lia.
Qed.

Lemma rotation_period_witness :
  exists st' k',
    ticks Fixtures.pool15 12 1000
      {| leaderboard := repeat (playerEntry 60) 15; visibleStartIndex := 5;
         leaderboardRef := repeat (playerEntry 60) 15 |}
      Fixtures.cyclic15 0%nat = Some (st', k') /\
    visibleStartIndex st' = 5.
Proof.
  apply (rotation_period Fixtures.pool15 15 1000
           {| leaderboard := repeat (playerEntry 60) 15; visibleStartIndex := 5;
              leaderboardRef := repeat (playerEntry 60) 15 |}
           Fixtures.cyclic15 0%nat).
  - intros j stj kj Hj. eapply ticks_keep_15; [|exact Hj]. reflexivity.
  - simpl. lia.
Defined.

(** C6. A snapshot is in non-increasing order of the scores after each
    operation that makes one: the list that the generator returns, the store
    after a live insert, and the list of the GAME_OVER branch after the entry
    of the player was pushed and the list sorted again.  So both copies of the
    store are in that order after each effect and each tick, and after every
    sequence of renders and ticks of the component. *)
Theorem snapshots_descending (pool : list string) :
  (forall fuel playerScore src k es k',
      generateLeaderboardEntries pool fuel playerScore src k = Some (es, k') ->
      descending es) /\
  (forall newEntry current, descending (insertLive newEntry current)) /\
  (forall es score, descending (mergePlayer es score)) /\
  (forall fuel status score highScore st src k st' k',
      status <> MENU ->
      seedEffect pool fuel status score highScore st src k = Some (st', k') ->
      descending (leaderboard st') /\ descending (leaderboardRef st')) /\
  (forall score st src k st' k',
      descending (leaderboard st) -> descending (leaderboardRef st) ->
      tick pool score st src k = Some (st', k') ->
      descending (leaderboard st') /\ descending (leaderboardRef st')) /\
  (forall fuel evs src k c' k',
      run pool fuel evs created src k = Some (c', k') ->
      descending (leaderboard (hooks c')) /\
      descending (leaderboardRef (hooks c'))).
Proof.
  split; [|split; [|split; [|split; [|split]]]].
  - intros *. apply generate_descending.
  - intros. apply sort_descending.
  - intros. apply sort_descending.
  - intros fuel [] score highScore st src k st' k' Hst H; [congruence| |].
    + apply seedEffect_PLAYING in H as (es & Hgen & ->). simpl.
      split; eapply generate_descending; exact Hgen.
    + apply seedEffect_GAME_OVER in H as (es & Hgen & ->). simpl.
      split; apply sort_descending.
  - intros score st src k st' k' Hl Hr H.
    rewrite tick_eq in H. unfold afterInsert in H.
    destruct (JS.gt (src k) 0.5); injection H as <- <-; simpl.
    + split; apply sort_descending.
    + now split.
  - intros fuel evs src k c' k' H.
    destruct (run_ok pool fuel evs created src k c' k' created_ok H)
      as (Hsame & Hdesc & _).
    rewrite Hsame. now split.
Qed.

Lemma snapshots_descending_witness :
  exists es k',
    generateLeaderboardEntries Fixtures.pool15 3 1000 Fixtures.cyclic15 0%nat
      = Some (es, k') /\ descending es.
Proof.
  eexists. eexists. split.
  - vm_compute. reflexivity.
  - apply (proj1 (snapshots_descending Fixtures.pool15)
             3%nat 1000%Q Fixtures.cyclic15 0%nat _ 47%nat).
    vm_compute. reflexivity.
Defined.

(** C7. The rank of an identifier in a snapshot is the 1-based index of the
    first entry with that identifier, and 0, which is no rank, exactly when no
    entry has it.  In the snapshot of GAME_OVER: when the score of the run is
    above the score of every synthetic entry the rank of the player is 1; and
    when no synthetic entry is named YOU, the rank of the player is the
    position of the entry of the player in the sorted list, which comes after
    the synthetic entries that score at least as much. *)
Theorem rank_of_player :
  (forall ident before e after,
      Forall (fun x => username x <> ident) before -> username e = ident ->
      rankOf ident (before ++ e :: after) = Z.of_nat (length before) + 1) /\
  (forall ident snapshot,
      Forall (fun x => username x <> ident) snapshot <->
      rankOf ident snapshot = 0) /\
  (forall synthetic runScore,
      Forall (fun e => (score e < runScore)%Q) synthetic ->
      rankOf YOU (mergePlayer synthetic runScore) = 1) /\
  (forall synthetic runScore,
      Forall (fun e => username e <> YOU) synthetic ->
      exists n : nat,
        rankOf YOU (mergePlayer synthetic runScore) = Z.of_nat n + 1 /\
        mergePlayer synthetic runScore !! n = Some (playerEntry runScore) /\
        n = length (List.filter (fun e => Qle_bool runScore (score e)) synthetic)) /\
  (forall pool fuel runScore highScore st src k st' k',
      ~ In "YOU"%string pool ->
      seedEffect pool fuel GAME_OVER runScore highScore st src k = Some (st', k') ->
      1 <= playerRank st' <= 16 /\
      leaderboard st' !! Z.to_nat (playerRank st' - 1)
        = Some (playerEntry runScore)).
Proof.
  split; [|split; [|split; [|split]]].
  - intros *. apply rankOf_found.
  - intros *. apply rankOf_absent.
  - intros synthetic runScore Hlow.
    destruct (mergePlayer_split synthetic runScore) as (hi & lo & -> & _ & Hlen).
    assert (Hnone : List.filter (fun e => Qle_bool runScore (score e)) synthetic = []).
    { clear - Hlow. induction Hlow as [|e l He _ IH]; simpl; [reflexivity|].
      destruct (Qle_bool runScore (score e)) eqn:E; [|exact IH].
      apply Qle_bool_iff in E. lra. }
    rewrite Hnone in Hlen. destruct hi; [|discriminate].
    now rewrite (rankOf_found YOU [] (playerEntry runScore) lo).
  - intros synthetic runScore Hnames.
    destruct (mergePlayer_split synthetic runScore) as (hi & lo & -> & Hperm & Hlen).
    exists (length hi). split; [|split; [|exact Hlen]].
    + apply rankOf_found; [|reflexivity].
      rewrite <- Hperm in Hnames. now apply Forall_app in Hnames.
    + now rewrite list_lookup_middle.
  - intros pool fuel runScore highScore st src k st' k' Hpool H.
    apply seedEffect_GAME_OVER in H as (es & Hgen & ->).
    unfold playerRank. simpl.
    pose proof (generate_names _ _ _ _ _ _ _ Hgen) as Hnames.
    pose proof (generate_length _ _ _ _ _ _ _ Hgen) as Hlen.
    destruct (mergePlayer_split es runScore) as (hi & lo & -> & Hperm & _).
    assert (Hhi : Forall (fun e => username e <> YOU) hi).
    { assert (Hall : Forall (fun e => username e <> YOU) (hi ++ lo)).
      { rewrite Hperm. eapply Forall_impl; [exact Hnames|].
        intros e He Hyou. simpl in He. apply Hpool, He. exact Hyou. }
      now apply Forall_app in Hall. }
    rewrite rankOf_found by (exact Hhi || reflexivity).
    apply Permutation_length in Hperm. rewrite length_app in Hperm.
    split; [lia|].
    replace (Z.to_nat (Z.of_nat (length hi) + 1 - 1)) with (length hi) by lia.
    now rewrite list_lookup_middle.
Qed.

Lemma rank_of_player_witness :
  rankOf YOU (mergePlayer [ {| username := Some "Ace"%string; score := 700;
                               isNew := false |};
                            {| username := Some "Bolt"%string; score := 650;
                               isNew := true |} ] 800) = 1.
Proof.
  apply (proj1 (proj2 (proj2 rank_of_player))).
  repeat constructor.
Defined.

(** C8. With bestScore = max(score, highScore), the milestone lookup returns
    the first tier of the table whose threshold is above bestScore, together
    with remaining = unlockScore - bestScore, and it returns nothing exactly
    when bestScore is at least the threshold of every tier.  With tiers at
    500 and 2000, bestScore 0 gives the tier at 500 with 500 remaining, and
    bestScore 3000 gives nothing. *)
Theorem next_milestone_first_locked (THEMES : list Theme) (score highScore : Q) :
  (forall t r,
      getNextMilestone THEMES score highScore = Some (t, r) <->
      exists before after,
        THEMES = before ++ t :: after /\
        Forall (fun t' => (unlockScore t' <= Qmax score highScore)%Q) before /\
        (Qmax score highScore < unlockScore t)%Q /\
        r = (unlockScore t - Qmax score highScore)%Q) /\
  (getNextMilestone THEMES score highScore = None <->
   Forall (fun t => (unlockScore t <= Qmax score highScore)%Q) THEMES) /\
  getNextMilestone [Fixtures.tier500; Fixtures.tier2000] 0 0
    = Some (Fixtures.tier500, 500%Q) /\
  getNextMilestone [Fixtures.tier500; Fixtures.tier2000] 3000 0 = None /\
  getNextMilestone [Fixtures.tier500; Fixtures.tier2000] 0 3000 = None.
Proof.
  split; [|split; [|split; [|split]]].
  - intros t r. apply nextMilestoneIn_Some.
  - apply nextMilestoneIn_None.
  - reflexivity.
  - reflexivity.
  - reflexivity.
Qed.

(** C9, as the code has it.  The name loop draws again until it finds a name
    that is not used, without a bound on the number of draws.  It ends for a
    fair source (after every position, every index of the pool is drawn
    again, as independent uniform draws do with probability one) over a pool
    with at least as many distinct names as entries are asked for: then a
    bound exists within which every iteration of the generator gets its name,
    and the generator returns. *)
Theorem name_loop_ends (pool : list string) (src : source) :
  fair pool src ->
  (forall (used : gset (option string)) (username : option string) (k : nat),
      (size used < size (pool_names pool))%nat ->
      exists fuel nm k',
        redraw pool fuel used username src k = Some (nm, k') /\ nm ∉ used) /\
  (forall (count : nat) (playerScore : Q) (k : nat),
      (count <= size (pool_names pool))%nat ->
      exists fuel r, generate_loop pool fuel count playerScore [] ∅ src k = Some r) /\
  ((15 <= size (pool_names pool))%nat ->
   forall (playerScore : Q) (k : nat),
      exists fuel r,
        generateLeaderboardEntries pool fuel playerScore src k = Some r).
Proof.
  intros Hfair. split; [|split].
  - intros used username k Hsize.
    destruct (free_name pool used Hsize) as (free & Hpool & Hfree).
    destruct (fair_name pool src k free Hfair Hpool) as [d Hd].
    destruct (redraw_returns pool d used username src k) as [[nm k'] Hre].
    { now rewrite Hd. }
    exists (S d), nm, k'. split; [exact Hre|].
    now apply redraw_Some in Hre.
  - intros count playerScore k Hcount.
    apply generate_loop_returns; [exact Hfair|].
    rewrite size_empty. lia.
  - intros Hpool playerScore k.
    destruct (generate_returns pool playerScore src k Hfair Hpool)
      as (fuel & es & k' & Hgen).
    now exists fuel, (es, k').
Qed.

Lemma name_loop_ends_witness :
  exists fuel r,
    generateLeaderboardEntries Fixtures.pool15 fuel 500 Fixtures.cyclic15 0%nat
      = Some r.
Proof.
  apply (proj2 (proj2 (name_loop_ends Fixtures.pool15 Fixtures.cyclic15
                         cyclic15_fair)) pool15_names).
Defined.

(** C9 fails for a source that repeats one draw: with every draw 0, in
    [0, 1), and a pool of 15 distinct names, the second iteration of the
    generator draws the first name of the pool again and again, and no bound
    on the loop is large enough for the generator to return. *)
Lemma stuck_source_never_returns :
  in_unit_interval Fixtures.stuck /\
  (15 <= size (pool_names Fixtures.pool15))%nat /\
  ~ exists fuel r,
      generateLeaderboardEntries Fixtures.pool15 fuel 500 Fixtures.stuck 0%nat
        = Some r.
Proof.
  split; [exact stuck_in_unit_interval|]. split; [exact pool15_names|].
  intros (fuel & [es k'] & E).
  unfold generateLeaderboardEntries in E.
  apply bind_Some in E as (raw & k1 & Hloop & _).
  apply generate_loop_step in Hloop as (nm & i & Hre1 & Hloop).
  rewrite redraw_unfold in Hre1.
  case_decide as Hin; [now apply not_elem_of_empty in Hin|].
  apply ret_Some in Hre1. injection Hre1 as -> ->.
  apply generate_loop_step in Hloop as (nm & i & Hre2 & _).
  assert (Hname : forall j, name_of_draw Fixtures.pool15 (Fixtures.stuck j)
                            = Some "Ace"%string) by reflexivity.
  rewrite !Hname, union_empty_r_L in Hre2.
  rewrite stuck_redraw in Hre2. discriminate.
Qed.

(** C10. The GAME_OVER branch returns for a fair source over a pool of 15
    distinct names, and it leaves a snapshot of 16 entries, the 15 of the
    generator and the entry of the player; that entry is named YOU and has
    the score of the run as it is, so a run with a score below 50 leaves an
    entry below 50 in the snapshot. *)
Theorem game_over_sixteen_raw_player (pool : list string)
    (runScore highScore : Q) (st : OverlayState) (src : source) (k : nat) :
  (fair pool src -> (15 <= size (pool_names pool))%nat ->
   exists fuel st' k',
     seedEffect pool fuel GAME_OVER runScore highScore st src k = Some (st', k')) /\
  (forall fuel st' k',
     seedEffect pool fuel GAME_OVER runScore highScore st src k = Some (st', k') ->
     length (leaderboard st') = 16%nat /\
     leaderboardRef st' = leaderboard st' /\
     (exists synthetic,
         generateLeaderboardEntries pool fuel (JS.Math_max runScore highScore)
           src k = Some (synthetic, k') /\
         length synthetic = 15%nat /\
         leaderboard st' ≡ₚ playerEntry runScore :: synthetic) /\
     In {| username := Some "YOU"%string; score := runScore; isNew := true |}
        (leaderboard st') /\
     ((runScore < 50)%Q ->
      exists e, In e (leaderboard st') /\ username e = Some "YOU"%string /\
                score e = runScore /\ (score e < 50)%Q)).
Proof.
  split.
  - intros Hfair Hpool.
    destruct (generate_returns pool (JS.Math_max runScore highScore) src k
                Hfair Hpool) as (fuel & es & k' & Hgen).
    exists fuel. eexists. exists k'.
    apply seedEffect_GAME_OVER. exists es. split; [exact Hgen|reflexivity].
  - intros fuel st' k' H.
    apply seedEffect_GAME_OVER in H as (es & Hgen & ->). simpl.
    pose proof (generate_length _ _ _ _ _ _ _ Hgen) as Hlen.
    assert (Hin : In (playerEntry runScore) (mergePlayer es runScore)).
    { apply list_elem_of_In. rewrite mergePlayer_Permutation. now left. }
    split; [|split; [reflexivity|split; [|split]]].
    + rewrite (Permutation_length (mergePlayer_Permutation es runScore)).
      simpl. now rewrite Hlen.
    + exists es. split; [exact Hgen|]. split; [exact Hlen|].
      apply mergePlayer_Permutation.
    + exact Hin.
    + intros Hlow. exists (playerEntry runScore). now repeat split.
Qed.

Lemma game_over_sixteen_raw_player_witness :
  exists st' k',
    seedEffect Fixtures.pool15 3 GAME_OVER 10 0 initialState
      Fixtures.cyclic15 0%nat = Some (st', k') /\
    length (leaderboard st') = 16%nat.
Proof.
  eexists. eexists. split.
  - vm_compute. reflexivity.
  - apply (proj2 (game_over_sixteen_raw_player Fixtures.pool15 10 0 initialState
                    Fixtures.cyclic15 0%nat) 3%nat _ 47%nat).
    vm_compute. reflexivity.
Defined.

(** * Further properties of the code *)

(** ** The window and the store *)



(** The last entry of a descending list has the lowest score. *)
Lemma descending_snoc (l : list LeaderboardEntry) (x : LeaderboardEntry) :
  descending (l ++ [x]) -> Forall (fun y => (score x <= score y)%Q) l.
Proof.
  unfold descending. intros H.
  apply Forall_forall. intros y Hy.
  apply (StronglySorted_app_1_elem_of _ _ _ y x H Hy).
  now apply list_elem_of_singleton.
Qed.

(** The GAME_OVER branch is remembered by every later event. *)
Lemma step_game_over_ok (pool : list string) (fuel : nat) (c : Component)
    (ev : Event) (src : source) (k : nat) (c' : Component) (k' : nat) :
  game_over_ok pool fuel src c -> step pool fuel c ev src k = Some (c', k') ->
  game_over_ok pool fuel src c'.
Proof.
  intros Hok H. destruct ev as [status sc hs|].
  - apply step_Props in H as (st' & Hseed & ->).
    unfold game_over_ok. simpl. intros ->.
    apply seedEffect_GAME_OVER in Hseed as (es & Hgen & ->). simpl.
    now exists es, k, k'.
  - simpl in H. destruct (props_status c) eqn:Est.
    + apply ret_Some in H. now injection H as -> _.
    + apply bind_Some in H as (st' & k1 & _ & H).
      apply ret_Some in H. injection H as -> _.
      unfold game_over_ok. simpl. discriminate.
    + apply ret_Some in H. now injection H as -> _.
Qed.

Lemma run_game_over_ok (pool : list string) (fuel : nat) (evs : list Event)
    (c : Component) (src : source) (k : nat) (c' : Component) (k' : nat) :
  game_over_ok pool fuel src c -> run pool fuel evs c src k = Some (c', k') ->
  game_over_ok pool fuel src c'.
Proof.
  revert c k. induction evs as [|ev evs IH]; intros c k Hok H.
  - simpl in H. apply ret_Some in H. now injection H as -> ->.
  - apply run_cons in H as (c1 & k1 & Hstep & H).
    eapply IH; [|exact H]. eapply step_game_over_ok; [exact Hok|exact Hstep].
Qed.

Lemma created_game_over_ok (pool : list string) (fuel : nat) (src : source) :
  game_over_ok pool fuel src created.
Proof. unfold game_over_ok, created. simpl. discriminate. Qed.

(** *** The renders *)















(** X4. A live insert into a store of at most 14 entries drops nothing.
    Into a longer store in descending order it drops the entries behind the
    first 14, none of which scores more than an entry that is kept: the
    entries with the lowest scores go, whatever the score of the new entry
    is. *)
Theorem live_insert_evicts_lowest (newEntry : LeaderboardEntry)
    (current : list LeaderboardEntry) :
  ((length current <= 14)%nat ->
   insertLive newEntry current ≡ₚ newEntry :: current) /\
  (descending current -> (14 <= length current)%nat ->
   exists kept dropped,
     current = kept ++ dropped /\
     length kept = 14%nat /\
     length dropped = (length current - 14)%nat /\
     insertLive newEntry current ≡ₚ newEntry :: kept /\
     In newEntry (insertLive newEntry current) /\
     forall x y, In x kept -> In y dropped -> (score y <= score x)%Q).
Proof.
  split.
  - intros Hlen. rewrite insertLive_Permutation.
    now rewrite take_ge by lia.
  - intros Hdesc Hlen.
    exists (take 14 current), (drop 14 current).
    split; [now rewrite take_drop|].
    split; [rewrite length_take; lia|].
    split; [now rewrite length_drop|].
    split; [apply insertLive_Permutation|].
    split.
    + apply list_elem_of_In. rewrite insertLive_Permutation. now left.
    + intros x y Hx Hy.
      assert (H : StronglySorted score_ge (take 14 current ++ drop 14 current)).
      { rewrite take_drop. exact Hdesc. }
      apply (StronglySorted_app_1_elem_of _ _ _ x y H);
        now apply list_elem_of_In.
Qed.

Lemma live_insert_evicts_lowest_witness :
  exists kept dropped,
    [ playerEntry 90; playerEntry 80 ] ++ repeat (playerEntry 60) 13
      = kept ++ dropped /\
    length dropped = 1%nat /\
    insertLive (playerEntry 10)
      ([ playerEntry 90; playerEntry 80 ] ++ repeat (playerEntry 60) 13)
      ≡ₚ playerEntry 10 :: kept.
Proof.
  destruct (proj2 (live_insert_evicts_lowest (playerEntry 10)
              ([ playerEntry 90; playerEntry 80 ] ++ repeat (playerEntry 60) 13)))
    as (kept & dropped & Hcur & _ & Hdropped & Hperm & _).
  - unfold descending. simpl.
    repeat (constructor; [|repeat constructor; unfold score_ge, Qle; simpl; lia]).
    constructor.
  - simpl. lia.
  - now exists kept, dropped.
Defined.

(** ** The generated batch *)

Lemma sort_usernames (l : list LeaderboardEntry) :
  map username (JS.sort by_score_desc l) ≡ₚ map username l.
Proof. apply Permutation_map, sort_Permutation. Qed.

(** X5. The names of a batch that the generator returns are pairwise
    distinct; and when the pool does not hold the name YOU, so are the 16
    names of the GAME_OVER snapshot. *)
Theorem generated_names_distinct (pool : list string) (fuel : nat)
    (playerScore : Q) (src : source) (k : nat) (es : list LeaderboardEntry)
    (k' : nat) :
  generateLeaderboardEntries pool fuel playerScore src k = Some (es, k') ->
  NoDup (map username es) /\
  (~ In "YOU"%string pool ->
   forall runScore, NoDup (map username (mergePlayer es runScore))).
Proof.
  intros H.
  pose proof (generate_names _ _ _ _ _ _ _ H) as Hnames.
  apply generate_Some in H as (draws & _ & _ & -> & Hnd).
  assert (Hes : NoDup (map username
            (JS.sort by_score_desc (map (entry_at pool playerScore src) draws)))).
  { rewrite sort_usernames, map_map. exact Hnd. }
  split; [exact Hes|].
  intros Hpool runScore.
  unfold mergePlayer. rewrite sort_usernames, map_app. simpl.
  rewrite <- Permutation_cons_append.
  constructor; [|exact Hes].
  intros Hin. apply list_elem_of_In, in_map_iff in Hin as (e & He & Hin).
  apply list_elem_of_In in Hin. rewrite Forall_forall in Hnames.
  apply Hpool, (Hnames e Hin). exact He.
Qed.

Lemma generated_names_distinct_witness :
  exists es k',
    generateLeaderboardEntries Fixtures.pool15 3 1000 Fixtures.cyclic15 0%nat
      = Some (es, k') /\ NoDup (map username es).
Proof.
  eexists. eexists. split.
  - vm_compute. reflexivity.
  - eapply (generated_names_distinct Fixtures.pool15 3 1000 Fixtures.cyclic15
              0%nat).
    vm_compute. reflexivity.
Defined.

Lemma baseScore_of_above_100 (playerScore : Q) :
  (100 < baseScore_of playerScore)%Q.
Proof.
  unfold baseScore_of. destruct (JS.gt playerScore 100) eqn:E.
  - now apply gt_true in E.
  - reflexivity.
Qed.

Lemma Math_max_right (a b : Q) : (a < b)%Q -> JS.Math_max a b = b.
Proof.
  intros H. unfold JS.Math_max, Qmax, GenericMinMax.gmax.
  now rewrite (proj1 (Qlt_alt a b) H).
Qed.

(** *** The range of the scores, in the arithmetic of doubles *)

Section ScoreRange.

Local Open Scope Q_scope.

Lemma fl_0_3 : JS.fl 0.3 = 5404319552844595 # 18014398509481984.
Proof. vm_compute. reflexivity. Qed.

Lemma fl_0_8 : JS.fl 0.8 = 3602879701896397 # 4503599627370496.
Proof. vm_compute. reflexivity. Qed.

(** The relative error of the rounding, for numbers that are not small. *)
Lemma fl_pos_bounds (x : Q) :
  1 <= x ->
  x * (1 - (1 # 9007199254740992)) <= JS.fl x
  /\ JS.fl x <= x * (1 + (1 # 9007199254740992)).
Proof.
  intros Hx.
  assert (Hn : 2 ^ (-1022) <= Qabs x).
  { rewrite Qabs_pos by lra.
    eapply Qle_trans; [apply (pow2_le (-1022) 0); lia|]. exact Hx. }
  pose proof (fl_rel_error x Hn) as H.
  change (2 ^ (-53)) with (1 # 9007199254740992) in H.
  rewrite (Qabs_pos x) in H by lra. split; qabs.
Qed.

Lemma fl_neg_bounds (x : Q) :
  x <= -1 ->
  x * (1 + (1 # 9007199254740992)) <= JS.fl x
  /\ JS.fl x <= x * (1 - (1 # 9007199254740992)).
Proof.
  intros Hx.
  assert (Hn : 2 ^ (-1022) <= Qabs x).
  { rewrite Qabs_neg by lra.
    eapply Qle_trans; [apply (pow2_le (-1022) 0); lia|].
    change (2 ^ 0) with 1. lra. }
  pose proof (fl_rel_error x Hn) as H.
  change (2 ^ (-53)) with (1 # 9007199254740992) in H.
  rewrite (Qabs_neg x) in H by lra. split; qabs.
Qed.

Lemma floor_between (x : Q) :
  inject_Z (Qfloor x) <= x /\ x - 1 < inject_Z (Qfloor x).
Proof.
  pose proof (Qfloor_le x) as H1. pose proof (Qlt_floor x) as H2.
  rewrite inject_Z_plus in H2. change (inject_Z 1) with 1 in H2.
  split; lra.
Qed.

Lemma floor_at_least (x : Q) (n : Z) : inject_Z n <= x -> (n <= Qfloor x)%Z.
Proof.
  intros H. rewrite <- (Qfloor_Z n). now apply Qfloor_resp_le.
Qed.

(** The number under the floor in the score of a draw [u] of [0, 1): about
    0.76 to 1.56 times the base. *)
Lemma randomScore_range (b u : Q) :
  100 < b -> 0 <= u < 1 ->
  let s := JS.add b (JS.mul (JS.sub u (JS.fl 0.3)) (JS.mul b (JS.fl 0.8))) in
  b * 0.76 * (1 - (1 # 1125899906842624)) <= s
  /\ s <= b * 1.56 * (1 + (1 # 1125899906842624)).
Proof.
  intros Hb [Hu0 Hu1]. rewrite fl_0_3, fl_0_8. unfold JS.add, JS.mul, JS.sub.
  set (v := JS.fl (b * (3602879701896397 # 4503599627370496))).
  set (a := JS.fl (u - (5404319552844595 # 18014398509481984))).
  set (p := JS.fl (a * v)).
  destruct (fl_pos_bounds (b * (3602879701896397 # 4503599627370496))
              ltac:(lra)) as [Hv1 Hv2].
  fold v in Hv1, Hv2.
  assert (Ha1 : - (3 # 10) <= a).
  { assert (E : - (3 # 10) <= JS.fl (- (5404319552844595 # 18014398509481984)))
      by (vm_compute; discriminate).
    eapply Qle_trans; [exact E|]. apply fl_mono. lra. }
  assert (Ha2 : a <= 7 # 10).
  { assert (E : JS.fl (1 - (5404319552844595 # 18014398509481984)) <= 7 # 10)
      by (vm_compute; discriminate).
    eapply Qle_trans; [|exact E]. apply fl_mono. lra. }
  assert (Hv0 : 79 <= v) by lra.
  assert (Hp1 : (- (3 # 10) * v) * (1 + (1 # 9007199254740992)) <= p).
  { destruct (fl_neg_bounds (- (3 # 10) * v) ltac:(lra)) as [H1 _].
    eapply Qle_trans; [exact H1|]. apply fl_mono.
    apply Qmult_le_compat_r; lra. }
  assert (Hp2 : p <= ((7 # 10) * v) * (1 + (1 # 9007199254740992))).
  { destruct (fl_pos_bounds ((7 # 10) * v) ltac:(lra)) as [_ H2].
    eapply Qle_trans; [|exact H2]. apply fl_mono.
    apply Qmult_le_compat_r; lra. }
  destruct (fl_pos_bounds (b + p) ltac:(lra)) as [Hs1 Hs2].
  cbv zeta. split; lra.
Qed.

End ScoreRange.

(** For a draw in [0, 1) the number under the floor is about 0.76 to 1.56
    times the base, so that the floor of 50 does not apply. *)
Lemma score_of_draw_range (playerScore u : Q) :
  (0 <= u < 1)%Q ->
  let b := baseScore_of playerScore in
  score_of_draw playerScore u
    = inject_Z (Qfloor (JS.add b (JS.mul (JS.sub u (JS.fl 0.3))
                                         (JS.mul b (JS.fl 0.8))))) /\
  (75 <= score_of_draw playerScore u)%Q /\
  (b * 0.76 * (1 - (1 # 1125899906842624)) - 1
   < score_of_draw playerScore u)%Q /\
  (score_of_draw playerScore u
   <= b * 1.56 * (1 + (1 # 1125899906842624)))%Q.
Proof.
  intros Hu. cbv zeta.
  pose proof (baseScore_of_above_100 playerScore) as Hbase.
  unfold score_of_draw, JS.Math_floor.
  set (b := baseScore_of playerScore) in *.
  destruct (randomScore_range b u Hbase Hu) as [Hs1 Hs2]. cbv zeta in Hs1, Hs2.
  set (s := JS.add b (JS.mul (JS.sub u (JS.fl 0.3)) (JS.mul b (JS.fl 0.8))))
    in *.
  destruct (floor_between s) as [Hf1 Hf2].
  assert (H75 : (75 <= inject_Z (Qfloor s))%Q).
  { change 75%Q with (inject_Z 75). rewrite <- Zle_Qle.
    apply floor_at_least. change (inject_Z 75) with 75%Q. lra. }
  rewrite Math_max_right by lra.
  repeat split; lra.
Qed.

(** X6. With draws in [0, 1) every score of a generated batch is the floor
    of base + (u - 0.3) * (base * 0.8), computed in doubles, for a draw u,
    where base is the reference score when that is above 100 and 500
    otherwise: it is at least 75, so the floor of 50 never applies in the
    generator, and it lies between 0.76 * base - 1 and 1.56 * base up to the
    rounding, which is less than one part in 2^50. *)
Theorem generated_score_range (pool : list string) (fuel : nat)
    (referenceScore : Q) (src : source) (k : nat)
    (es : list LeaderboardEntry) (k' : nat) :
  in_unit_interval src ->
  generateLeaderboardEntries pool fuel referenceScore src k = Some (es, k') ->
  Forall (fun e =>
    let base := if Qlt_le_dec 100 referenceScore
                then referenceScore else 500%Q in
    (exists u, (0 <= u < 1)%Q /\
       score e
       = inject_Z (Qfloor (JS.add base (JS.mul (JS.sub u (JS.fl 0.3))
                                               (JS.mul base (JS.fl 0.8)))))) /\
    (75 <= score e)%Q /\
    (base * 0.76 * (1 - (1 # 1125899906842624)) - 1 < score e)%Q /\
    (score e <= base * 1.56 * (1 + (1 # 1125899906842624)))%Q) es.
Proof.
  intros Hunit H.
  apply generate_Some in H as (draws & _ & _ & -> & _).
  apply sort_Forall, Forall_forall. intros e He.
  apply list_elem_of_In, in_map_iff in He as (i & <- & _).
  simpl. rewrite <- baseScore_of_eq.
  destruct (score_of_draw_range referenceScore (src i) (Hunit i))
    as (Heq & H75 & Hlo & Hhi).
  split; [|now repeat split].
  exists (src i). split; [apply Hunit|exact Heq].
Qed.

Lemma generated_score_range_witness :
  exists es k',
    generateLeaderboardEntries Fixtures.pool15 3 40 Fixtures.cyclic15 0%nat
      = Some (es, k') /\
    Forall (fun e => (75 <= score e)%Q) es.
Proof.
  eexists. eexists. split.
  - vm_compute. reflexivity.
  - eapply Forall_impl.
    + eapply (generated_score_range Fixtures.pool15 3 40 Fixtures.cyclic15
                0%nat _ _ cyclic15_in_unit_interval).
      vm_compute. reflexivity.
    + intros e He. simpl in He. tauto.
Defined.

(** ** The GAME_OVER screen *)

(** The snapshot of a finished run, when the pool does not hold the name
    YOU: the entry of the player stands between the synthetic entries that
    score at least as much and those that score less. *)
Lemma game_over_shape (pool : list string) (fuel : nat) (evs : list Event)
    (src : source) (k : nat) (c : Component) (k' : nat) :
  run pool fuel evs created src k = Some (c, k') ->
  props_status c = GAME_OVER ->
  ~ In "YOU"%string pool ->
  exists synthetic k0 k1 hi lo,
    generateLeaderboardEntries pool fuel
      (JS.Math_max (props_score c) (props_highScore c)) src k0
      = Some (synthetic, k1) /\
    leaderboard (hooks c) = hi ++ playerEntry (props_score c) :: lo /\
    hi ++ lo ≡ₚ synthetic /\
    length synthetic = 15%nat /\
    Forall (fun e => username e <> YOU) (hi ++ lo) /\
    length hi = length (List.filter
                  (fun e => Qle_bool (props_score c) (score e)) synthetic) /\
    playerRank (hooks c) = Z.of_nat (length hi) + 1.
Proof.
  intros H Hst Hpool.
  pose proof (run_game_over_ok pool fuel evs created src k c k'
                (created_game_over_ok pool fuel src) H Hst)
    as (es & k0 & k1 & Hgen & Hboard).
  destruct (mergePlayer_split es (props_score c)) as (hi & lo & Hm & Hperm & Hlen).
  exists es, k0, k1, hi, lo.
  assert (Hnames : Forall (fun e => username e <> YOU) (hi ++ lo)).
  { rewrite Hperm.
    eapply Forall_impl; [exact (generate_names _ _ _ _ _ _ _ Hgen)|].
    intros e He Hyou. simpl in He. apply Hpool, He. exact Hyou. }
  split; [exact Hgen|]. split; [now rewrite Hboard|].
  split; [exact Hperm|].
  split; [exact (generate_length _ _ _ _ _ _ _ Hgen)|].
  split; [exact Hnames|]. split; [exact Hlen|].
  unfold playerRank. rewrite Hboard, Hm.
  apply rankOf_found; [|reflexivity]. now apply Forall_app in Hnames.
Qed.

Lemma filter_all {A} (f : A -> bool) (l : list A) :
  Forall (fun x => f x = true) l -> List.filter f l = l.
Proof.
  induction 1 as [|x l Hx _ IH]; simpl; [reflexivity|]. now rewrite Hx, IH.
Qed.

Lemma filter_none_iff {A} (f : A -> bool) (l : list A) :
  length (List.filter f l) = 0%nat <-> Forall (fun x => f x = false) l.
Proof.
  induction l as [|x l IH]; simpl.
  - split; [constructor|reflexivity].
  - destruct (f x) eqn:E; simpl.
    + split; [discriminate|]. intros H. inversion H. congruence.
    + rewrite IH. split; [now constructor|]. intros H. now inversion H.
Qed.

Lemma pool15_no_YOU : ~ In "YOU"%string Fixtures.pool15.
Proof.
  intros Hin. simpl in Hin.
  repeat (destruct Hin as [Hin|Hin]; [discriminate|]). exact Hin.
Qed.

(** While a run is played no entry of the store is named YOU, when the
    pool does not hold that name. *)
Lemma step_no_player (pool : list string) (fuel : nat) (c : Component)
    (ev : Event) (src : source) (k : nat) (c' : Component) (k' : nat) :
  ~ In "YOU"%string pool -> component_ok c ->
  (props_status c = PLAYING -> no_player (hooks c)) ->
  step pool fuel c ev src k = Some (c', k') ->
  props_status c' = PLAYING -> no_player (hooks c').
Proof.
  intros Hpool (Hsame & _) Hno H.
  destruct ev as [status score highScore|].
  - apply step_Props in H as (st' & Hseed & ->). cbn [props_status hooks].
    intros ->.
    apply seedEffect_PLAYING in Hseed as (es & Hgen & ->).
    unfold no_player. cbn [leaderboard].
    eapply Forall_impl; [exact (generate_names _ _ _ _ _ _ _ Hgen)|].
    intros e He Hyou. apply Hpool, He. exact Hyou.
  - simpl in H. destruct (props_status c) eqn:Est.
    + apply ret_Some in H. injection H as -> _. rewrite Est. discriminate.
    + apply bind_Some in H as (st' & k1 & Htick & H).
      apply ret_Some in H. injection H as -> _. intros _.
      cbn [hooks]. rewrite tick_eq in Htick. unfold afterInsert in Htick.
      specialize (Hno eq_refl). unfold no_player in *.
      destruct (JS.gt (src k) 0.5); injection Htick as <- _;
        cbn [leaderboard]; [|exact Hno].
      rewrite insertLive_Permutation. constructor.
      * cbn [username]. intros Hyou.
        apply Hpool, (name_of_draw_pool pool (src (S k))). exact Hyou.
      * rewrite <- Hsame. now apply Forall_take.
    + apply ret_Some in H. injection H as -> _. rewrite Est. discriminate.
Qed.

Lemma run_no_player (pool : list string) (fuel : nat) (evs : list Event) :
  forall (c : Component) (src : source) (k : nat) (c' : Component) (k' : nat),
    ~ In "YOU"%string pool -> component_ok c ->
    (props_status c = PLAYING -> no_player (hooks c)) ->
    run pool fuel evs c src k = Some (c', k') ->
    props_status c' = PLAYING -> no_player (hooks c').
Proof.
  induction evs as [|ev evs IH]; intros c src k c' k' Hpool Hok Hno H.
  - simpl in H. apply ret_Some in H. now injection H as -> ->.
  - apply run_cons in H as (c1 & k1 & Hstep & H).
    eapply IH; [exact Hpool| | |exact H].
    + eapply step_ok; [exact Hok|exact Hstep].
    + eapply step_no_player; [exact Hpool|exact Hok|exact Hno|exact Hstep].
Qed.

(** The render of the GAME_OVER props that is committed before its effect
    shows the store of the run, in which the player has no entry. *)
Lemma first_game_over_render (pool : list string) (fuel : nat)
    (evs : list Event) (src : source) (k : nat) (c : Component) (k' : nat)
    (score highScore : Q) :
  ~ In "YOU"%string pool ->
  run pool fuel evs created src k = Some (c, k') ->
  props_status c = PLAYING ->
  no_player (hooks (render c GAME_OVER score highScore)) /\
  length (leaderboard (hooks (render c GAME_OVER score highScore))) = 15%nat.
Proof.
  intros Hpool H Hst. cbn [render hooks]. split.
  - eapply (run_no_player pool fuel evs created);
      [exact Hpool|exact created_ok| |exact H|exact Hst].
    discriminate.
  - destruct (run_ok pool fuel evs created src k c k' created_ok H)
      as (Hsame & _ & _ & Hplay).
    rewrite Hsame. now apply Hplay.
Qed.

(** X7. Once the seeding effect of the GAME_OVER render has run, a run whose
    score is at most 0.76 * base - 1 up to the rounding, where base is the
    best of score and high score when that is above 100 and 500 otherwise,
    ranks last: with draws in [0, 1) and a pool without the name YOU, the rank
    of the player is 16.  So a player whose best score is at most 100 is then
    ranked 16th of 16.  In the render of the GAME_OVER props that is committed
    before that effect, after a run, the store is still the one of the run and
    the rank of the player is 0. *)
Theorem low_run_ranks_last (pool : list string) (fuel : nat)
    (evs : list Event) (src : source) (k : nat) (c : Component) (k' : nat) :
  in_unit_interval src ->
  ~ In "YOU"%string pool ->
  run pool fuel evs created src k = Some (c, k') ->
  (props_status c = GAME_OVER ->
   ((props_score c
     <= baseScore_of (JS.Math_max (props_score c) (props_highScore c))
        * 0.76 * (1 - (1 # 1125899906842624)) - 1)%Q
    -> playerRank (hooks c) = 16) /\
   ((JS.Math_max (props_score c) (props_highScore c) <= 100)%Q ->
    playerRank (hooks c) = 16)) /\
  (props_status c = PLAYING ->
   forall score highScore,
     playerRank (hooks (render c GAME_OVER score highScore)) = 0).
Proof.
  intros Hunit Hpool H. split; [intros Hst|intros Hst sc hs].
  2:{ apply rankOf_absent.
      exact (proj1 (first_game_over_render pool fuel evs src k c k' sc hs
                      Hpool H Hst)). }
  destruct (game_over_shape pool fuel evs src k c k' H Hst Hpool)
    as (es & k0 & k1 & hi & lo & Hgen & _ & _ & Hlen15 & _ & Hlen & Hrank).
  assert (Hlow : (props_score c
      <= baseScore_of (JS.Math_max (props_score c) (props_highScore c))
         * 0.76 * (1 - (1 # 1125899906842624)) - 1)%Q
      -> playerRank (hooks c) = 16).
  { intros Hscore.
    assert (Hall : Forall
              (fun e => Qle_bool (props_score c) (score e) = true) es).
    { pose proof (generated_score_floor := generate_Some _ _ _ _ _ _ _ Hgen).
      destruct generated_score_floor as (draws & _ & _ & -> & _).
      apply sort_Forall, Forall_forall. intros e He.
      apply list_elem_of_In, in_map_iff in He as (i & <- & _). simpl.
      apply Qle_bool_iff.
      destruct (score_of_draw_range
                  (JS.Math_max (props_score c) (props_highScore c))
                  (src i) (Hunit i)) as (_ & _ & Hlo & _).
      lra. }
    rewrite (filter_all _ _ Hall), Hlen15 in Hlen.
    rewrite Hrank, Hlen. reflexivity. }
  split; [exact Hlow|].
  intros Hbest. apply Hlow.
  assert (Hbase : baseScore_of (JS.Math_max (props_score c) (props_highScore c))
                  = 500%Q).
  { unfold baseScore_of.
    destruct (JS.gt (JS.Math_max (props_score c) (props_highScore c)) 100) eqn:E;
      [|reflexivity].
    apply gt_true in E. lra. }
  rewrite Hbase.
  pose proof (Q.le_max_l (props_score c) (props_highScore c)) as Hmax.
  unfold JS.Math_max in Hbest. lra.
Qed.

Lemma low_run_ranks_last_witness :
  exists c k',
    run Fixtures.pool15 3 [ Props PLAYING 0 0; Props GAME_OVER 60 0 ] created
      Fixtures.cyclic15 0%nat = Some (c, k') /\
    playerRank (hooks c) = 16.
Proof.
  eexists. eexists. split.
  - vm_compute. reflexivity.
  - eapply (fun Hrun Hst Hbest =>
              proj2 (proj1 (low_run_ranks_last Fixtures.pool15 3
                              [ Props PLAYING 0 0; Props GAME_OVER 60 0 ]
                              Fixtures.cyclic15 0%nat _ _
                              cyclic15_in_unit_interval pool15_no_YOU Hrun)
                       Hst) Hbest).
    + vm_compute. reflexivity.
    + reflexivity.
    + vm_compute. intros Hc. discriminate Hc.
Defined.

(** X8. On the GAME_OVER screen, with a pool that does not hold the name YOU:
    once the seeding effect of the GAME_OVER render has run, the rank of the
    player is shown; it is one more than the number of synthetic entries that
    score at least as much as the run, so a tie is lost.  The caption is
    CHAMPION exactly when the run scored more than every synthetic entry, and
    "Out of 16 players" otherwise.  In the render of the GAME_OVER props that
    is committed before that effect, after a run, no rank is shown. *)
Theorem champion_iff_beats_all (pool : list string) (fuel : nat)
    (evs : list Event) (src : source) (k : nat) (c : Component) (k' : nat) :
  ~ In "YOU"%string pool ->
  run pool fuel evs created src k = Some (c, k') ->
  (props_status c = GAME_OVER ->
   exists synthetic rank caption,
     leaderboard (hooks c) ≡ₚ playerEntry (props_score c) :: synthetic /\
     length synthetic = 15%nat /\
     rankDisplay (hooks c) = Some (rank, caption) /\
     rank = Z.of_nat (length (List.filter
              (fun e => Qle_bool (props_score c) (score e)) synthetic)) + 1 /\
     (caption = Champion <->
      Forall (fun e => (score e < props_score c)%Q) synthetic) /\
     (caption = Champion \/ caption = OutOf 16)) /\
  (props_status c = PLAYING ->
   forall score highScore,
     rankDisplay (hooks (render c GAME_OVER score highScore)) = None).
Proof.
  intros Hpool H. split; [intros Hst|intros Hst sc hs].
  2:{ unfold rankDisplay, playerRank.
      rewrite (proj1 (rankOf_absent YOU _)
                 (proj1 (first_game_over_render pool fuel evs src k c k' sc hs
                           Hpool H Hst))).
      reflexivity. }
  destruct (game_over_shape pool fuel evs src k c k' H Hst Hpool)
    as (es & k0 & k1 & hi & lo & _ & Hboard & Hperm & Hlen15 & _ & Hlen & Hrank).
  assert (Hfilter : length (List.filter
            (fun e => Qle_bool (props_score c) (score e)) es) = 0%nat <->
          Forall (fun e => (score e < props_score c)%Q) es).
  { rewrite filter_none_iff. split; intros Hall;
      (eapply Forall_impl; [exact Hall|]); intros e He; simpl in *.
    - apply Qnot_le_lt. intros Hle. apply Qle_bool_iff in Hle. congruence.
    - destruct (Qle_bool (props_score c) (score e)) eqn:E; [|reflexivity].
      apply Qle_bool_iff in E. lra. }
  assert (Hlen16 : length (leaderboard (hooks c)) = 16%nat).
  { rewrite Hboard, length_app. simpl.
    apply Permutation_length in Hperm. rewrite length_app in Hperm. lia. }
  exists es, (playerRank (hooks c)).
  unfold rankDisplay. rewrite Hlen16, Hrank.
  destruct (Z.ltb_spec 0 (Z.of_nat (length hi) + 1)); [|lia].
  eexists. split; [|split; [exact Hlen15|split; [reflexivity|split]]].
  - rewrite Hboard, <- Hperm. symmetry. apply Permutation_middle.
  - now rewrite Hlen.
  - destruct (Z.eqb_spec (Z.of_nat (length hi) + 1) 1) as [Hone|Hmore].
    + split; [|now left]. split; [|reflexivity].
      intros _. apply Hfilter. lia.
    + split; [|now right]. split; [discriminate|].
      intros Hall. apply Hfilter in Hall. lia.
Qed.

Lemma champion_iff_beats_all_witness :
  exists c k',
    run Fixtures.pool15 3 [ Props PLAYING 0 0; Props GAME_OVER 60 0 ] created
      Fixtures.cyclic15 0%nat = Some (c, k') /\
    exists synthetic rank caption,
      leaderboard (hooks c) ≡ₚ playerEntry (props_score c) :: synthetic /\
      length synthetic = 15%nat /\
      rankDisplay (hooks c) = Some (rank, caption) /\
      rank = Z.of_nat (length (List.filter
               (fun e => Qle_bool (props_score c) (score e)) synthetic)) + 1 /\
      (caption = Champion <->
       Forall (fun e => (score e < props_score c)%Q) synthetic) /\
      (caption = Champion \/ caption = OutOf 16).
Proof.
  eexists. eexists. split.
  - vm_compute. reflexivity.
  - eapply (fun Hrun Hst =>
              proj1 (champion_iff_beats_all Fixtures.pool15 3
                       [ Props PLAYING 0 0; Props GAME_OVER 60 0 ]
                       Fixtures.cyclic15 0%nat _ _ pool15_no_YOU Hrun) Hst).
    + vm_compute. reflexivity.
    + reflexivity.
Defined.

(** ** The rows of the GAME_OVER list *)

Lemma map_indexed_from_lookup {A B} (f : A -> Z -> B) (arr : list A) (i0 : Z)
    (n : nat) :
  JSMore.map_indexed_from f arr i0 !! n
    = (fun x => f x (i0 + Z.of_nat n)) <$> arr !! n.
Proof.
  revert i0 n. induction arr as [|x arr IH]; intros i0 n; [now destruct n|].
  destruct n as [|n]; simpl.
  - f_equal. f_equal. lia.
  - rewrite IH. destruct (arr !! n); simpl; [|reflexivity].
    f_equal. f_equal. lia.
Qed.

Lemma map_indexed_from_length {A B} (f : A -> Z -> B) (arr : list A) (i0 : Z) :
  length (JSMore.map_indexed_from f arr i0) = length arr.
Proof.
  revert i0. induction arr as [|x arr IH]; intros i0; simpl; [reflexivity|].
  now rewrite IH.
Qed.

Lemma gameOverRows_eq (st : OverlayState) :
  gameOverRows st
  = JSMore.map_indexed_from
      (fun entry idx =>
         {| row_number := idx + 1;
            row_isPlayer := bool_decide (username entry = YOU);
            row_pulse := isNew entry && negb (bool_decide (username entry = YOU));
            row_entry := entry |})
      (take 10 (leaderboard st)) 0.
Proof. reflexivity. Qed.

Lemma gameOverRows_isPlayer (st : OverlayState) :
  Forall (fun row => row_isPlayer row
                     = bool_decide (username (row_entry row) = YOU) /\
                     In (row_entry row) (leaderboard st))
         (gameOverRows st).
Proof.
  apply Forall_forall. intros row Hin.
  apply list_elem_of_lookup in Hin as [i Hi].
  rewrite gameOverRows_eq, map_indexed_from_lookup in Hi.
  destruct (take 10 (leaderboard st) !! i) as [e|] eqn:He; [|discriminate].
  simpl in Hi. injection Hi as <-. cbn [row_isPlayer row_entry].
  split; [reflexivity|].
  apply lookup_take_Some in He as [He _].
  eapply list_elem_of_In, list_elem_of_lookup_2. exact He.
Qed.

(** X9. With a pool that does not hold the name YOU: once the seeding effect
    of the GAME_OVER render has run, the GAME_OVER list shows the first 10 of
    the 16 entries, numbered from 1 in the order of the snapshot; the row that
    is marked as the row of the player is the row whose number is the rank
    shown beside the list; it holds the entry of the player and never pulses.
    So the player is then in the list exactly when the rank is at most 10.  In
    the render of the GAME_OVER props that is committed before that effect,
    after a run, the list shows the first 10 of the 15 entries of the run and
    no row is the row of the player. *)
Theorem player_row_matches_rank (pool : list string) (fuel : nat)
    (evs : list Event) (src : source) (k : nat) (c : Component) (k' : nat) :
  ~ In "YOU"%string pool ->
  run pool fuel evs created src k = Some (c, k') ->
  (props_status c = GAME_OVER ->
   length (gameOverRows (hooks c)) = 10%nat /\
   (forall (i : nat) row,
      gameOverRows (hooks c) !! i = Some row ->
      leaderboard (hooks c) !! i = Some (row_entry row) /\
      row_number row = Z.of_nat i + 1 /\
      (row_isPlayer row = true <-> row_number row = playerRank (hooks c)) /\
      (row_isPlayer row = true ->
       row_entry row = playerEntry (props_score c) /\ row_pulse row = false)) /\
   (Exists (fun row => row_isPlayer row = true) (gameOverRows (hooks c)) <->
    playerRank (hooks c) <= 10)) /\
  (props_status c = PLAYING ->
   forall score highScore,
     length (gameOverRows (hooks (render c GAME_OVER score highScore)))
     = 10%nat /\
     Forall (fun row => row_isPlayer row = false)
            (gameOverRows (hooks (render c GAME_OVER score highScore)))).
Proof.
  intros Hpool H. split; [intros Hst|intros Hst sc hs].
  2:{ destruct (first_game_over_render pool fuel evs src k c k' sc hs
                  Hpool H Hst) as [Hno Hlen].
      split.
      - rewrite gameOverRows_eq, map_indexed_from_length, length_take.
        rewrite Hlen. reflexivity.
      - eapply Forall_impl; [apply gameOverRows_isPlayer|].
        intros row [-> Hin]. apply bool_decide_eq_false.
        unfold no_player in Hno. rewrite Forall_forall in Hno.
        apply Hno. now apply list_elem_of_In. }
  destruct (game_over_shape pool fuel evs src k c k' H Hst Hpool)
    as (es & k0 & k1 & hi & lo & _ & Hboard & Hperm & Hlen15 & Hnames & _ & Hrank).
  assert (Hlen16 : (length hi + length lo = 15)%nat).
  { apply Permutation_length in Hperm. rewrite length_app in Hperm. lia. }
  apply Forall_app in Hnames as [Hhi Hlo].
  assert (Hrow : forall (i : nat) row,
    gameOverRows (hooks c) !! i = Some row ->
    (i < 10)%nat /\
    leaderboard (hooks c) !! i = Some (row_entry row) /\
    row_number row = Z.of_nat i + 1 /\
    row_isPlayer row = bool_decide (username (row_entry row) = YOU) /\
    row_pulse row = isNew (row_entry row) && negb (row_isPlayer row)).
  { intros i row Hi. rewrite gameOverRows_eq in Hi.
    rewrite map_indexed_from_lookup in Hi.
    destruct (take 10 (leaderboard (hooks c)) !! i) as [e|] eqn:He;
      [|discriminate].
    simpl in Hi. injection Hi as <-. simpl.
    apply lookup_take_Some in He as [He Hlt].
    split; [exact Hlt|]. split; [exact He|]. split; [lia|]. now split. }
  assert (Hplayer : forall (i : nat) e,
    leaderboard (hooks c) !! i = Some e ->
    (username e = YOU <-> i = length hi) /\
    (i = length hi -> e = playerEntry (props_score c))).
  { intros i e He. rewrite Hboard in He.
    destruct (Nat.lt_trichotomy i (length hi)) as [Hlt|[->|Hgt]].
    - rewrite lookup_app_l in He by exact Hlt.
      rewrite Forall_forall in Hhi.
      apply list_elem_of_lookup_2, Hhi in He.
      split; [|intros Heq; exfalso; lia].
      split; [contradiction|intros Heq; exfalso; lia].
    - rewrite list_lookup_middle in He by reflexivity. injection He as <-.
      split; [|reflexivity]. split; reflexivity.
    - rewrite lookup_app_r in He by lia.
      destruct (i - length hi)%nat as [|j] eqn:Ej; [lia|]. simpl in He.
      rewrite Forall_forall in Hlo.
      apply list_elem_of_lookup_2, Hlo in He.
      split; [|intros Heq; exfalso; lia].
      split; [contradiction|intros Heq; exfalso; lia]. }
  split; [|split].
  - rewrite gameOverRows_eq, map_indexed_from_length.
    rewrite length_take, Hboard, length_app, length_cons. lia.
  - intros i row Hi.
    destruct (Hrow i row Hi) as (_ & He & Hnum & Hisp & Hpulse).
    destruct (Hplayer i (row_entry row) He) as [Hyou Hentry].
    split; [exact He|]. split; [exact Hnum|]. split.
    + rewrite Hisp, bool_decide_eq_true, Hyou, Hnum, Hrank. lia.
    + intros Htrue. rewrite Hisp, bool_decide_eq_true, Hyou in Htrue.
      split; [now apply Hentry|].
      rewrite Hpulse, Hisp, (Hentry Htrue). reflexivity.
  - rewrite Exists_exists. split.
    + intros (row & Hin & Htrue).
      apply list_elem_of_lookup in Hin as [i Hi].
      destruct (Hrow i row Hi) as (Hlt & He & _ & Hisp & _).
      destruct (Hplayer i (row_entry row) He) as [Hyou _].
      rewrite Hisp, bool_decide_eq_true, Hyou in Htrue. lia.
    + intros Hle. rewrite Hrank in Hle.
      destruct (lookup_lt_is_Some_2 (gameOverRows (hooks c)) (length hi))
        as [row Hi].
      { rewrite gameOverRows_eq, map_indexed_from_length.
        rewrite length_take, Hboard, length_app, length_cons. lia. }
      exists row. split; [eapply list_elem_of_lookup_2; exact Hi|].
      destruct (Hrow _ row Hi) as (_ & He & _ & Hisp & _).
      destruct (Hplayer _ (row_entry row) He) as [Hyou _].
      rewrite Hisp, bool_decide_eq_true, Hyou. reflexivity.
Qed.

Lemma player_row_matches_rank_witness :
  exists c k',
    run Fixtures.pool15 3 [ Props PLAYING 0 0; Props GAME_OVER 600 0 ] created
      Fixtures.cyclic15 0%nat = Some (c, k') /\
    length (gameOverRows (hooks c)) = 10%nat.
Proof.
  eexists. eexists. split.
  - vm_compute. reflexivity.
  - eapply (fun Hrun Hst =>
              proj1 (proj1 (player_row_matches_rank Fixtures.pool15 3
                              [ Props PLAYING 0 0; Props GAME_OVER 600 0 ]
                              Fixtures.cyclic15 0%nat _ _ pool15_no_YOU Hrun)
                       Hst)).
    + vm_compute. reflexivity.
    + reflexivity.
Defined.

(** ** Themes *)

Lemma find_Some {A} (p : A -> bool) (arr : list A) (x : A) :
  JSMore.find p arr = Some x <->
  exists before after,
    arr = before ++ x :: after /\ Forall (fun y => p y = false) before /\
    p x = true.
Proof.
  induction arr as [|y arr IH]; simpl.
  - split; [discriminate|]. intros (before & after & H & _). now destruct before.
  - destruct (p y) eqn:E.
    + split.
      * intros [= <-]. exists [], arr. repeat split; [constructor|exact E].
      * intros ([|z before] & after & H & Hbefore & Hx);
          simpl in H; injection H as -> ->; [reflexivity|].
        inversion Hbefore; congruence.
    + rewrite IH. split.
      * intros (before & after & -> & Hbefore & Hx).
        exists (y :: before), after. repeat split; [now constructor|exact Hx].
      * intros ([|z before] & after & H & Hbefore & Hx);
          simpl in H; injection H as -> ->; [congruence|].
        inversion Hbefore; subst. now exists before, after.
Qed.

Lemma find_None {A} (p : A -> bool) (arr : list A) :
  JSMore.find p arr = None <-> Forall (fun y => p y = false) arr.
Proof.
  induction arr as [|y arr IH]; simpl.
  - split; [constructor|reflexivity].
  - destruct (p y) eqn:E.
    + split; [discriminate|]. intros H. inversion H; congruence.
    + rewrite IH. split; [now constructor|]. intros H. now inversion H.
Qed.

Lemma Math_max_same (a : Q) : JS.Math_max a a = a.
Proof.
  unfold JS.Math_max, Qmax, GenericMinMax.gmax. now destruct (a ?= a)%Q.
Qed.

Lemma ge_true (a b : Q) : JSMore.ge a b = true <-> (b <= a)%Q.
Proof. apply Qle_bool_iff. Qed.

Lemma ge_false (a b : Q) : JSMore.ge a b = false <-> (a < b)%Q.
Proof.
  unfold JSMore.ge. split.
  - intros H. apply Qnot_le_lt. intros Hle. apply Qle_bool_iff in Hle. congruence.
  - intros H. destruct (Qle_bool b a) eqn:E; [|reflexivity].
    apply Qle_bool_iff in E. lra.
Qed.

Lemma unlocked_none (themes : list Theme) (best : Q) :
  Forall (fun t => (best < unlockScore t)%Q) themes ->
  List.filter (fun t => JSMore.ge best (unlockScore t)) themes = [].
Proof.
  induction 1 as [|t themes Ht _ IH]; simpl; [reflexivity|].
  now rewrite (proj2 (ge_false _ _) Ht).
Qed.

(** X10. The unlocked themes and the next milestone divide the table: the
    lookup returns nothing exactly when every theme is unlocked, the theme it
    returns is not among the unlocked ones and has a positive distance
    remaining, and when the table is in ascending order of the thresholds it
    is the unlocked themes followed by the locked ones, the first of which is
    the next milestone. *)
Theorem unlocked_then_milestone (THEMES : list Theme) (score highScore : Q) :
  (getNextMilestone THEMES score highScore = None <->
   unlockedThemes THEMES score highScore = THEMES) /\
  (forall t r,
     getNextMilestone THEMES score highScore = Some (t, r) ->
     ~ In t (unlockedThemes THEMES score highScore) /\ (0 < r)%Q) /\
  (ascending THEMES ->
   exists locked,
     THEMES = unlockedThemes THEMES score highScore ++ locked /\
     Forall (fun t => (Qmax score highScore < unlockScore t)%Q) locked /\
     getNextMilestone THEMES score highScore
       = match locked with
         | [] => None
         | t :: _ => Some (t, (unlockScore t - Qmax score highScore)%Q)
         end).
Proof.
  unfold getNextMilestone, unlockedThemes, JS.Math_max.
  set (best := Qmax score highScore).
  split; [|split].
  - rewrite nextMilestoneIn_None. fold best.
    induction THEMES as [|t themes IH]; simpl.
    + split; [reflexivity|constructor].
    + destruct (JSMore.ge best (unlockScore t)) eqn:E.
      * apply ge_true in E. split.
        -- intros H. inversion H; subst. f_equal. now apply IH.
        -- intros [= H]. constructor; [exact E|now apply IH].
      * apply ge_false in E. split.
        -- intros H. inversion H; subst. lra.
        -- intros H. exfalso.
           assert (Hlen : (length (List.filter
                     (fun t0 => JSMore.ge best (unlockScore t0)) themes)
                   <= length themes)%nat) by apply List.filter_length_le.
           rewrite H in Hlen. simpl in Hlen. lia.
  - intros t r H. apply nextMilestoneIn_Some in H
      as (before & after & _ & _ & Hlt & ->). fold best in Hlt |- *.
    split; [|lra].
    intros Hin. apply filter_In in Hin as [_ Hge].
    apply ge_true in Hge. lra.
  - intros Hasc. induction Hasc as [|t themes _ IH Ht]; simpl.
    + exists []. repeat split. constructor.
    + unfold JS.lt, JS.Math_max. fold best.
      change (Qle_bool (unlockScore t) best)
        with (JSMore.ge best (unlockScore t)).
      destruct (JSMore.ge best (unlockScore t)) eqn:E; simpl.
      * destruct IH as (locked & Hthemes & Hlocked & Hnext).
        exists locked. split; [now rewrite <- Hthemes|]. now split.
      * apply ge_false in E.
        assert (Hall : Forall (fun t0 => (best < unlockScore t0)%Q) themes).
        { eapply Forall_impl; [exact Ht|]. intros t0 Ht0. simpl in Ht0. lra. }
        exists (t :: themes). rewrite (unlocked_none themes best Hall).
        repeat split. now constructor.
Qed.

Lemma unlocked_then_milestone_witness :
  exists locked,
    [Fixtures.tier500; Fixtures.tier2000]
      = unlockedThemes [Fixtures.tier500; Fixtures.tier2000] 700 0 ++ locked /\
    Forall (fun t => (Qmax 700 0 < unlockScore t)%Q) locked /\
    getNextMilestone [Fixtures.tier500; Fixtures.tier2000] 700 0
      = match locked with
        | [] => None
        | t :: _ => Some (t, (unlockScore t - Qmax 700 0)%Q)
        end.
Proof.
  apply (proj2 (proj2 (unlocked_then_milestone
                         [Fixtures.tier500; Fixtures.tier2000] 700 0))).
  unfold ascending.
  repeat (constructor; [|repeat constructor; unfold Qle; simpl; lia]).
  constructor.
Defined.

Lemma newUnlock_test (score highScore : Q) (t : Theme) :
  JSMore.ge score (unlockScore t) && JS.lt highScore (unlockScore t) = true <->
  (highScore < unlockScore t <= score)%Q.
Proof.
  rewrite andb_true_iff, ge_true, lt_true. tauto.
Qed.

(** X11. A newly unlocked theme is announced only for a new record: the
    announced theme has its threshold above the old high score and at most
    the score of the run, it is among the themes that are unlocked now, and
    nothing is announced when the score is not above the high score.  When
    the table is in ascending order, the announced theme is the milestone
    that was next for the old high score, and it is announced exactly when
    the run reached it; thresholds further up that the run also passed are
    not announced. *)
Theorem new_unlock_is_reached_milestone (THEMES : list Theme)
    (score highScore : Q) :
  (forall t,
     newUnlock THEMES score highScore = Some t ->
     isNewRecord score highScore = true /\
     (highScore < unlockScore t <= score)%Q /\
     In t (unlockedThemes THEMES score highScore)) /\
  ((score <= highScore)%Q -> newUnlock THEMES score highScore = None) /\
  (ascending THEMES ->
   forall t,
     newUnlock THEMES score highScore = Some t <->
     (exists r, getNextMilestone THEMES highScore highScore = Some (t, r)) /\
     (unlockScore t <= score)%Q).
Proof.
  split; [|split].
  - intros t H. apply find_Some in H as (before & after & Hthemes & _ & Ht).
    apply newUnlock_test in Ht.
    split; [apply gt_true; lra|]. split; [exact Ht|].
    apply filter_In. split.
    + rewrite Hthemes. apply in_or_app. right. now left.
    + apply ge_true. pose proof (Q.le_max_l score highScore).
      unfold JS.Math_max. lra.
  - intros Hle. apply find_None, Forall_forall. intros t _.
    destruct (JSMore.ge score (unlockScore t) && JS.lt highScore (unlockScore t))
      eqn:E; [|reflexivity].
    apply newUnlock_test in E. lra.
  - unfold newUnlock, getNextMilestone.
    intros Hasc t. induction Hasc as [|t0 themes _ IH Ht0]; simpl.
    + split; [discriminate|]. now intros [[r [=]] _].
    + rewrite Math_max_same.
      destruct (JS.lt highScore (unlockScore t0)) eqn:Elt.
      * rewrite andb_true_r.
        destruct (JSMore.ge score (unlockScore t0)) eqn:Ege.
        -- apply ge_true in Ege. split.
           ++ intros [= <-]. split; [now eexists|exact Ege].
           ++ now intros [[r [= <- _]] _].
        -- apply ge_false in Ege. split.
           ++ intros H. exfalso.
              apply find_Some in H as (before & after & -> & _ & Ht).
              apply newUnlock_test in Ht.
              rewrite Forall_app, Forall_cons in Ht0.
              destruct Ht0 as (_ & Ht0 & _). simpl in Ht0. lra.
           ++ intros [[r [= <- _]] Hle]. lra.
      * rewrite andb_false_r. exact IH.
Qed.

Lemma new_unlock_is_reached_milestone_witness :
  newUnlock [Fixtures.tier500; Fixtures.tier2000] 2500 100
    = Some Fixtures.tier500 <->
  (exists r, getNextMilestone [Fixtures.tier500; Fixtures.tier2000] 100 100
             = Some (Fixtures.tier500, r)) /\
  (unlockScore Fixtures.tier500 <= 2500)%Q.
Proof.
  apply (proj2 (proj2 (new_unlock_is_reached_milestone
                         [Fixtures.tier500; Fixtures.tier2000] 2500 100))).
  unfold ascending.
  repeat (constructor; [|repeat constructor; unfold Qle; simpl; lia]).
  constructor.
Defined.

(** X12. While a next milestone exists and the best score is not negative,
    the progress bar is a number of percent in [0, 100): it is the best score
    over the threshold, times 100, and the cap of 100 is never reached. *)
Theorem progress_below_cap (THEMES : list Theme) (score highScore : Q)
    (t : Theme) (r : Q) :
  getNextMilestone THEMES score highScore = Some (t, r) ->
  (0 <= Qmax score highScore)%Q ->
  exists w,
    progressWidth score highScore t = Some w /\
    (w == Qmax score highScore / unlockScore t * 100)%Q /\
    (0 <= w < 100)%Q /\
    (w == 100 - r / unlockScore t * 100)%Q.
Proof.
  intros H Hbest.
  apply nextMilestoneIn_Some in H as (_ & _ & _ & _ & Hlt & ->).
  unfold progressWidth, JS.Math_max, JSMore.Math_min.
  set (best := Qmax score highScore) in *.
  set (u := unlockScore t) in *.
  assert (Hu : (0 < u)%Q) by lra.
  destruct (Qeq_bool u 0) eqn:E.
  { apply Qeq_bool_iff in E. lra. }
  eexists. split; [reflexivity|].
  assert (Hratio0 : (0 <= best / u)%Q).
  { apply Qle_shift_div_l; [exact Hu|lra]. }
  assert (Hratio1 : (best / u < 1)%Q).
  { apply Qlt_shift_div_r; [exact Hu|lra]. }
  assert (Hmin : (Qmin 100 (best / u * 100) == best / u * 100)%Q).
  { apply Q.min_r. lra. }
  split; [exact Hmin|]. split; [rewrite Hmin; lra|].
  rewrite Hmin. field. lra.
Qed.

Lemma progress_below_cap_witness :
  exists w,
    progressWidth 100 0 Fixtures.tier500 = Some w /\ (0 <= w < 100)%Q.
Proof.
  destruct (progress_below_cap [Fixtures.tier500; Fixtures.tier2000] 100 0
              Fixtures.tier500 400 eq_refl)
    as (w & Hw & _ & Hrange & _).
  - unfold Qle. simpl. lia.
  - now exists w.
Defined.

(** X13. The current theme is the first theme of the table with the
    requested id, and the first theme of the table when no theme has that id;
    it is always a theme of the table, and it is undefined only for an empty
    table. *)
Theorem current_theme_found_or_first (THEMES : list Theme)
    (currentThemeId : string) :
  (forall before t after,
     THEMES = before ++ t :: after ->
     Forall (fun t' => id t' <> currentThemeId) before ->
     id t = currentThemeId ->
     currentTheme THEMES currentThemeId = Some t) /\
  (Forall (fun t' => id t' <> currentThemeId) THEMES ->
   currentTheme THEMES currentThemeId = head THEMES) /\
  (forall t, currentTheme THEMES currentThemeId = Some t -> In t THEMES) /\
  (currentTheme THEMES currentThemeId = None <-> THEMES = []).
Proof.
  assert (Hnone : Forall (fun t' => id t' <> currentThemeId) THEMES ->
                  currentTheme THEMES currentThemeId = head THEMES).
  { intros Hall. unfold currentTheme.
    rewrite (proj2 (find_None _ THEMES)).
    - unfold JS.get. simpl. now destruct THEMES.
    - eapply Forall_impl; [exact Hall|]. intros t Ht. simpl in Ht.
      now apply String.eqb_neq. }
  split; [|split; [exact Hnone|split]].
  - intros before t after Hthemes Hbefore Hid. unfold currentTheme.
    rewrite (proj2 (find_Some _ THEMES t)); [reflexivity|].
    exists before, after. split; [exact Hthemes|]. split.
    + eapply Forall_impl; [exact Hbefore|]. intros t' Ht'. simpl in Ht'.
      now apply String.eqb_neq.
    + now apply String.eqb_eq.
  - intros t. unfold currentTheme.
    destruct (JSMore.find (fun t0 => (id t0 =? currentThemeId)%string) THEMES)
      as [t'|] eqn:E.
    + intros [= <-]. apply find_Some in E as (before & after & -> & _).
      apply in_or_app. right. now left.
    + unfold JS.get. simpl. destruct THEMES as [|t0 rest]; [discriminate|].
      intros [= <-]. now left.
  - unfold currentTheme.
    destruct (JSMore.find (fun t0 => (id t0 =? currentThemeId)%string) THEMES)
      as [t'|] eqn:E.
    + split; [discriminate|]. intros ->. discriminate.
    + unfold JS.get. simpl. destruct THEMES; split; try discriminate; reflexivity.
Qed.

Lemma current_theme_found_or_first_witness :
  currentTheme [Fixtures.tier500; Fixtures.tier2000] "lava"
    = Some Fixtures.tier2000.
Proof.
  apply (proj1 (current_theme_found_or_first
                  [Fixtures.tier500; Fixtures.tier2000] "lava")
           [Fixtures.tier500] Fixtures.tier2000 []).
  - reflexivity.
  - repeat constructor. discriminate.
  - reflexivity.
Defined.

(** ** Live entries *)

Lemma Math_max_left (a b : Q) : (b < a)%Q -> JS.Math_max a b = a.
Proof.
  intros H. unfold JS.Math_max, Qmax, GenericMinMax.gmax.
  now rewrite (proj1 (Qgt_alt a b) H).
Qed.

(** The score of a live entry, for a draw of [0, 1) and a score of the
    player that is not negative. *)
Lemma live_score_of_draw_range (playerScore u : Q) :
  (0 <= playerScore)%Q -> (0 <= u < 1)%Q ->
  (50 <= live_score_of_draw playerScore u)%Q /\
  (playerScore * 0.5 * (1 - (1 # 9007199254740992)) - 1
   < live_score_of_draw playerScore u)%Q /\
  (live_score_of_draw playerScore u
   <= Qmax 50 (playerScore * 1.5 * (1 + (1 # 9007199254740992))))%Q /\
  ((playerScore * 1.5 <= 50)%Q -> live_score_of_draw playerScore u = 50%Q).
Proof.
  intros Hs [Hu0 Hu1].
  unfold live_score_of_draw, JS.Math_floor, JS.mul, JS.add.
  set (h := JS.fl (0.5 + u)).
  set (t := JS.fl (playerScore * h)).
  assert (Hh1 : (1 # 2 <= h)%Q).
  { assert (E : (1 # 2 <= JS.fl (1 # 2))%Q) by (vm_compute; discriminate).
    eapply Qle_trans; [exact E|]. apply fl_mono. lra. }
  assert (Hh2 : (h <= 3 # 2)%Q).
  { assert (E : (JS.fl (3 # 2) <= 3 # 2)%Q) by (vm_compute; discriminate).
    eapply Qle_trans; [|exact E]. apply fl_mono. lra. }
  assert (Hlo : (playerScore * (1 # 2) <= playerScore * h)%Q)
    by nra.
  assert (Hhi : (playerScore * h <= playerScore * (3 # 2))%Q)
    by nra.
  assert (Ht1 : (JS.fl (playerScore * (1 # 2)) <= t)%Q) by now apply fl_mono.
  assert (Ht2 : (t <= JS.fl (playerScore * (3 # 2)))%Q) by now apply fl_mono.
  destruct (floor_between t) as [Hf1 Hf2].
  pose proof (Q.le_max_l 50 (inject_Z (Qfloor t))) as Hm1.
  pose proof (Q.le_max_r 50 (inject_Z (Qfloor t))) as Hm2.
  unfold JS.Math_max.
  split; [exact Hm1|]. split; [|split].
  - destruct (Qlt_le_dec (playerScore * (1 # 2)) 1) as [Hsmall|Hbig].
    + lra.
    + destruct (fl_pos_bounds _ Hbig) as [Hb _]. lra.
  - apply Q.max_lub; [apply Q.le_max_l|].
    destruct (Qlt_le_dec (playerScore * (3 # 2)) 1) as [Hsmall|Hbig].
    + assert (E : (JS.fl 1 <= 1)%Q) by (vm_compute; discriminate).
      assert (Ht3 : (JS.fl (playerScore * (3 # 2)) <= JS.fl 1)%Q)
        by (apply fl_mono; lra).
      pose proof (Q.le_max_l 50 (playerScore * 1.5
                                 * (1 + (1 # 9007199254740992)))).
      lra.
    + destruct (fl_pos_bounds _ Hbig) as [_ Hb].
      pose proof (Q.le_max_r 50 (playerScore * 1.5
                                 * (1 + (1 # 9007199254740992)))).
      lra.
  - intros Hlow.
    assert (E : (JS.fl 50 <= 50)%Q) by (vm_compute; discriminate).
    assert (Ht3 : (JS.fl (playerScore * (3 # 2)) <= JS.fl 50)%Q)
      by (apply fl_mono; lra).
    assert (Hz : (Qfloor t <= 50)%Z).
    { rewrite Zle_Qle. change (inject_Z 50) with 50%Q. lra. }
    destruct (Z.eq_dec (Qfloor t) 50) as [->|Hne]; [reflexivity|].
    apply Math_max_left. change 50%Q with (inject_Z 50).
    rewrite <- Zlt_Qlt. lia.
Qed.

(** X14. A tick inserts an entry exactly when its first draw is above 0.5,
    and otherwise leaves the store as it is.  With draws in [0, 1) and a score
    that is not negative, the entry it inserts is flagged as new and scores at
    least 50, more than half the score of the player minus 1, and at most the
    larger of 50 and 1.5 times the score of the player, both up to the
    rounding of the doubles, which is one part in 2^53; while the score of the
    player is at most 100/3, every live entry scores exactly 50. *)
Theorem live_entry_score_range (pool : list string) (playerScore : Q)
    (st : OverlayState) (src : source) (k : nat) (st' : OverlayState)
    (k' : nat) :
  in_unit_interval src -> (0 <= playerScore)%Q ->
  tick pool playerScore st src k = Some (st', k') ->
  (JS.gt (src k) 0.5 = false ->
   leaderboardRef st' = leaderboardRef st /\ leaderboard st' = leaderboard st) /\
  (JS.gt (src k) 0.5 = true ->
   exists e,
     leaderboardRef st' = insertLive e (leaderboardRef st) /\
     leaderboard st' = leaderboardRef st' /\
     In e (leaderboardRef st') /\
     isNew e = true /\
     (50 <= score e)%Q /\
     (playerScore * 0.5 * (1 - (1 # 9007199254740992)) - 1 < score e)%Q /\
     (score e
      <= Qmax 50 (playerScore * 1.5 * (1 + (1 # 9007199254740992))))%Q /\
     ((playerScore * 1.5 <= 50)%Q -> score e = 50%Q)).
Proof.
  intros Hunit Hscore H. rewrite tick_eq in H. unfold afterInsert in H.
  destruct (JS.gt (src k) 0.5); injection H as <- <-; simpl;
    [|split; [now intros _|discriminate]].
  split; [discriminate|]. intros _.
  eexists. split; [reflexivity|]. split; [reflexivity|].
  split; [apply list_elem_of_In; rewrite insertLive_Permutation; now left|].
  split; [reflexivity|]. simpl.
  exact (live_score_of_draw_range playerScore (src (S (S k))) Hscore
           (Hunit (S (S k)))).
Qed.

Lemma live_entry_score_range_witness :
  exists st' k',
    tick Fixtures.pool15 20 initialState (fun _ => 3 # 4)%Q 0%nat
      = Some (st', k') /\
    exists e,
      leaderboardRef st' = insertLive e (leaderboardRef initialState) /\
      score e = 50%Q.
Proof.
  eexists. eexists. split.
  - vm_compute. reflexivity.
  - lazymatch goal with
    | |- exists e, leaderboardRef ?st' = _ /\ _ =>
        destruct (proj2 (live_entry_score_range Fixtures.pool15 20
                    initialState (fun _ => 3 # 4)%Q 0%nat st' 3%nat
                    ltac:(intros i; split; [unfold Qle|unfold Qlt]; simpl; lia)
                    ltac:(unfold Qle; simpl; lia)
                    ltac:(vm_compute; reflexivity)) eq_refl)
          as (e & Href & _ & _ & _ & _ & _ & _ & H50)
    end.
    exists e. split; [exact Href|]. apply H50. unfold Qle. simpl. lia.
Defined.

(** ** The audio manager *)

(** Runs a method on a manager and a world that are given by their fields. *)
Ltac audio_run :=
  cbv [Audio.init Audio.resume Audio.playJump Audio.playLand
       Audio.playGameOver Audio.play Audio.invoke
       mbind Audio.Act_bind mret Audio.Act_ret Audio.call Audio.new_handle
       Audio.read_currentTime Audio.read Audio.throw
       Audio.ctx Audio.masterGain Audio.isMuted
       Audio.calls Audio.fresh Audio.timeReads Audio.drawn].

Ltac audio_run_in H :=
  cbv [Audio.init Audio.resume Audio.playJump Audio.playLand
       Audio.playGameOver Audio.play Audio.invoke
       mbind Audio.Act_bind mret Audio.Act_ret Audio.call Audio.new_handle
       Audio.read_currentTime Audio.read Audio.throw
       Audio.ctx Audio.masterGain Audio.isMuted
       Audio.calls Audio.fresh Audio.timeReads Audio.drawn] in H.

Lemma audio_play_uninitialised (fuel : nat) (s : Audio.Sound)
    (this : Audio.AudioManager) (br : Audio.Browser) (w : Audio.World) :
  Audio.ctx this = None \/ Audio.masterGain this = None ->
  Audio.play fuel s this br w = Audio.Returned this w.
Proof.
  destruct this as [[c|] [g|] b]; simpl; intros [H|H]; try discriminate;
    destruct s; reflexivity.
Qed.

Lemma audio_playJump_calls (c g : Audio.handle) (b : bool)
    (br : Audio.Browser) (cs : list Audio.Call) (f tr d : nat) :
  Audio.playJump {| Audio.ctx := Some c; Audio.masterGain := Some g;
                    Audio.isMuted := b |} br
    {| Audio.calls := cs; Audio.fresh := f; Audio.timeReads := tr;
       Audio.drawn := d |}
  = Audio.Returned
      {| Audio.ctx := Some c; Audio.masterGain := Some g; Audio.isMuted := b |}
      {| Audio.calls := cs ++
           [ Audio.createOscillator c f;
             Audio.createGain c (S f);
             Audio.set_type f "square";
             Audio.setValueAtTime f Audio.frequency 150
               (Audio.currentTime br tr);
             Audio.exponentialRampToValueAtTime f Audio.frequency 600
               (Audio.currentTime br (S tr) + 0.3);
             Audio.setValueAtTime (S f) Audio.gain 0.1
               (Audio.currentTime br (S (S tr)));
             Audio.exponentialRampToValueAtTime (S f) Audio.gain 0.01
               (Audio.currentTime br (S (S (S tr))) + 0.3);
             Audio.connect f (Audio.to_node (S f));
             Audio.connect (S f) (Audio.to_node g);
             Audio.start f;
             Audio.stop f (Audio.currentTime br (S (S (S (S tr)))) + 0.3) ];
         Audio.fresh := S (S f);
         Audio.timeReads := S (S (S (S (S tr))));
         Audio.drawn := d |}.
Proof. audio_run. now rewrite <- !app_assoc. Qed.

Lemma audio_playGameOver_calls (c g : Audio.handle) (b : bool)
    (br : Audio.Browser) (cs : list Audio.Call) (f tr d : nat) :
  Audio.playGameOver {| Audio.ctx := Some c; Audio.masterGain := Some g;
                        Audio.isMuted := b |} br
    {| Audio.calls := cs; Audio.fresh := f; Audio.timeReads := tr;
       Audio.drawn := d |}
  = Audio.Returned
      {| Audio.ctx := Some c; Audio.masterGain := Some g; Audio.isMuted := b |}
      {| Audio.calls := cs ++
           [ Audio.createOscillator c f;
             Audio.createGain c (S f);
             Audio.set_type f "sawtooth";
             Audio.setValueAtTime f Audio.frequency 200
               (Audio.currentTime br tr);
             Audio.exponentialRampToValueAtTime f Audio.frequency 50
               (Audio.currentTime br (S tr) + 1.0);
             Audio.setValueAtTime (S f) Audio.gain 0.3
               (Audio.currentTime br (S (S tr)));
             Audio.linearRampToValueAtTime (S f) Audio.gain 0
               (Audio.currentTime br (S (S (S tr))) + 1.0);
             Audio.connect f (Audio.to_node (S f));
             Audio.connect (S f) (Audio.to_node g);
             Audio.start f;
             Audio.stop f (Audio.currentTime br (S (S (S (S tr)))) + 1.0) ];
         Audio.fresh := S (S f);
         Audio.timeReads := S (S (S (S (S tr))));
         Audio.drawn := d |}.
Proof. audio_run. now rewrite <- !app_assoc. Qed.

(** The test of the loop, for an integer [i]: [i < bufferSize] exactly when
    [i] is below the ceiling of [bufferSize]. *)
Lemma noise_test (i : Z) (bufferSize : Q) :
  JS.lt (inject_Z i) bufferSize = true <-> i < Qceiling bufferSize.
Proof.
  rewrite lt_true. split; intros H.
  - pose proof (Qle_ceiling bufferSize) as Hc.
    rewrite Zlt_Qlt. lra.
  - pose proof (Qceiling_lt bufferSize) as Hc.
    assert (Hle : (inject_Z i <= inject_Z (Qceiling bufferSize - 1))%Q).
    { rewrite <- Zle_Qle. lia. }
    lra.
Qed.

Lemma audio_fillNoise_unfold (fuel : nat) (buf : Audio.handle)
    (bufferSize : Q) (i : Z) :
  Audio.fillNoise fuel buf bufferSize i =
  if JS.lt (inject_Z i) bufferSize then
    match fuel with
    | O => Audio.looping
    | S fuel' =>
        u ← Audio.Math_random;
        Audio.call (Audio.set_sample buf i (u * 2 - 1));;
        Audio.fillNoise fuel' buf bufferSize (i + 1)
    end
  else mret tt.
Proof. destruct fuel; reflexivity. Qed.

(** With a bound that is large enough the loop writes one sample for each
    index below the ceiling of [bufferSize], each from a draw of its own. *)
Lemma audio_fillNoise_calls (n : nat) :
  forall (fuel : nat) (buf : Audio.handle) (bufferSize : Q) (i : Z)
         (br : Audio.Browser) (cs : list Audio.Call) (f tr d : nat),
    Z.to_nat (Qceiling bufferSize - i) = n -> (n <= fuel)%nat ->
    Audio.fillNoise fuel buf bufferSize i br
      {| Audio.calls := cs; Audio.fresh := f; Audio.timeReads := tr;
         Audio.drawn := d |}
    = Audio.Returned tt
        {| Audio.calls := cs ++
             map (fun j : nat =>
                    Audio.set_sample buf (i + Z.of_nat j)
                      (Audio.random br (d + j)%nat * 2 - 1)) (seq 0 n);
           Audio.fresh := f; Audio.timeReads := tr;
           Audio.drawn := (d + n)%nat |}.
Proof.
  induction n as [|n IH]; intros fuel buf bufferSize i br cs f tr d Hn Hfuel;
    rewrite audio_fillNoise_unfold.
  - destruct (JS.lt (inject_Z i) bufferSize) eqn:E.
    { apply noise_test in E. lia. }
    simpl. now rewrite app_nil_r, Nat.add_0_r.
  - destruct (JS.lt (inject_Z i) bufferSize) eqn:E.
    2:{ assert (Hnot : ~ i < Qceiling bufferSize).
        { intros Hlt. apply noise_test in Hlt. congruence. }
        lia. }
    destruct fuel as [|fuel]; [lia|].
    cbv [mbind Audio.Act_bind Audio.Math_random Audio.call
         Audio.calls Audio.fresh Audio.timeReads Audio.drawn].
    rewrite (IH fuel buf bufferSize (i + 1) br _ f tr (S d)) by lia.
    f_equal. f_equal; [|lia].
    rewrite <- app_assoc. f_equal. simpl. f_equal.
    + f_equal; [lia|]. now rewrite Nat.add_0_r.
    + rewrite <- seq_shift, map_map. apply map_ext. intros j.
      f_equal; [lia|]. f_equal. f_equal. f_equal. lia.
Qed.

(** Whatever the bound, the loop makes only writes of samples. *)
Lemma audio_fillNoise_only_samples (fuel : nat) :
  forall (buf : Audio.handle) (bufferSize : Q) (i : Z) (br : Audio.Browser)
         (w w' : Audio.World),
    Audio.fillNoise fuel buf bufferSize i br w = Audio.Returned tt w' ->
    exists new,
      Audio.calls w' = Audio.calls w ++ new /\
      Forall (fun c => exists j v, c = Audio.set_sample buf j v) new /\
      Audio.fresh w' = Audio.fresh w /\
      Audio.timeReads w' = Audio.timeReads w.
Proof.
  induction fuel as [|fuel IH]; intros buf bufferSize i br w w' H;
    rewrite audio_fillNoise_unfold in H;
    destruct (JS.lt (inject_Z i) bufferSize).
  - discriminate.
  - injection H as <-. exists []. now rewrite app_nil_r.
  - cbv [mbind Audio.Act_bind Audio.Math_random Audio.call] in H.
    apply IH in H as (new & Hcalls & Hnew & Hfresh & Htime).
    simpl in *. eexists (_ :: new).
    split; [rewrite Hcalls, <- app_assoc; reflexivity|].
    split; [|now split].
    constructor; [now eexists; eexists|exact Hnew].
  - injection H as <-. exists []. now rewrite app_nil_r.
Qed.

Lemma audio_playLand_calls (fuel : nat) (c g : Audio.handle) (b : bool)
    (br : Audio.Browser) (cs : list Audio.Call) (f tr d : nat)
    (this' : Audio.AudioManager) (w' : Audio.World) :
  Audio.playLand fuel {| Audio.ctx := Some c; Audio.masterGain := Some g;
                         Audio.isMuted := b |} br
    {| Audio.calls := cs; Audio.fresh := f; Audio.timeReads := tr;
       Audio.drawn := d |}
  = Audio.Returned this' w' ->
  this' = {| Audio.ctx := Some c; Audio.masterGain := Some g;
             Audio.isMuted := b |} /\
  exists smp,
    Forall (fun x => exists j v, x = Audio.set_sample f j v) smp /\
    Audio.fresh w' = S (S (S (S f))) /\
    Audio.timeReads w' = S (S tr) /\
    Audio.calls w' = cs ++
      [ Audio.createBuffer c f 1 (Audio.sampleRate br * 0.1)
          (Audio.sampleRate br);
        Audio.getChannelData f 0 ] ++
      smp ++
      [ Audio.createBufferSource c (S f);
        Audio.set_buffer (S f) f;
        Audio.createBiquadFilter c (S (S f));
        Audio.set_type (S (S f)) "lowpass";
        Audio.set_value (S (S f)) Audio.frequency 500;
        Audio.createGain c (S (S (S f)));
        Audio.setValueAtTime (S (S (S f))) Audio.gain 0.2
          (Audio.currentTime br tr);
        Audio.exponentialRampToValueAtTime (S (S (S f))) Audio.gain 0.01
          (Audio.currentTime br (S tr) + 0.1);
        Audio.connect (S f) (Audio.to_node (S (S f)));
        Audio.connect (S (S f)) (Audio.to_node (S (S (S f))));
        Audio.connect (S (S (S f))) (Audio.to_node g);
        Audio.start (S f) ].
Proof.
  intros H. audio_run_in H.
  destruct (Audio.fillNoise fuel f (Audio.sampleRate br * 0.1) 0 br _)
    as [[] w2| |] eqn:E; try discriminate.
  apply audio_fillNoise_only_samples in E as (smp & Hcalls & Hsmp & Hf & Ht).
  destruct w2 as [cs2 f2 tr2 d2]. simpl in *. subst.
  injection H as <- <-. split; [reflexivity|].
  exists smp. split; [exact Hsmp|]. simpl.
  split; [reflexivity|]. split; [reflexivity|].
  now rewrite <- !app_assoc.
Qed.

Lemma routed_more (cs cs' : list Audio.Call) (n m : Audio.handle) :
  (forall x, In x cs -> In x cs') ->
  Audio.routed cs n m -> Audio.routed cs' n m.
Proof.
  intros Hsub. induction 1 as [n m H|n m p H _ IH].
  - apply Audio.routed_connect. now apply Hsub.
  - eapply Audio.routed_through; [apply Hsub; exact H|exact IH].
Qed.

Lemma no_context_filter (new : list Audio.Call) :
  Forall (fun x => Audio.is_new_AudioContext x = false) new ->
  List.filter Audio.is_new_AudioContext new = [].
Proof.
  induction 1 as [|x new Hx _ IH]; simpl; [reflexivity|]. now rewrite Hx.
Qed.

(** The invariant is kept by calls that make no context, route what they
    start to the master gain and stop their oscillators. *)
Lemma well_formed_grow (c g : Audio.handle) (b : bool)
    (cs new : list Audio.Call) :
  Audio.well_formed
    {| Audio.ctx := Some c; Audio.masterGain := Some g; Audio.isMuted := b |} cs ->
  Forall (fun x => Audio.is_new_AudioContext x = false) new ->
  (forall n, In (Audio.start n) new -> Audio.routed (cs ++ new) n g) ->
  (forall c' n, In (Audio.createOscillator c' n) new ->
                In (Audio.start n) new /\ exists t, In (Audio.stop n t) new) ->
  Audio.well_formed
    {| Audio.ctx := Some c; Audio.masterGain := Some g; Audio.isMuted := b |}
    (cs ++ new).
Proof.
  intros [(Hctx & _)|(Hinit & Hone & Hstart & Hosc)] Hnew Hs Ho;
    [discriminate|].
  right. split; [|split; [|split]].
  - destruct Hinit as (c0 & g0 & Hc & Hg & H1 & H2 & H3).
    exists c0, g0. repeat split; try assumption; apply in_or_app; now left.
  - now rewrite List.filter_app, (no_context_filter new Hnew), app_nil_r.
  - intros n Hn. apply in_app_or in Hn as [Hn|Hn].
    + destruct (Hstart n Hn) as (g0 & Hg0 & Hr). exists g0.
      split; [exact Hg0|].
      eapply routed_more; [|exact Hr]. intros x Hx. apply in_or_app. now left.
    + exists g. split; [reflexivity|]. now apply Hs.
  - intros c' n Hn. apply in_app_or in Hn as [Hn|Hn].
    + destruct (Hosc c' n Hn) as (Hst & t & Ht).
      split; [|exists t]; apply in_or_app; now left.
    + destruct (Ho c' n Hn) as (Hst & t & Ht).
      split; [|exists t]; apply in_or_app; now right.
Qed.

(** Decides membership in a list that is written out. *)
Ltac in_list := cbn [In]; repeat (first [left; reflexivity | right]).

Lemma audio_invoke_Init (fuel : nat) (this : Audio.AudioManager) :
  Audio.invoke fuel Audio.Init this = Audio.init this.
Proof. reflexivity. Qed.

Lemma audio_invoke_Resume (fuel : nat) (this : Audio.AudioManager) :
  Audio.invoke fuel Audio.Resume this = Audio.resume this.
Proof. reflexivity. Qed.

Lemma audio_invoke_Play (fuel : nat) (s : Audio.Sound)
    (this : Audio.AudioManager) :
  Audio.invoke fuel (Audio.Play s) this = Audio.play fuel s this.
Proof. reflexivity. Qed.

Lemma audio_play_Jump (fuel : nat) (this : Audio.AudioManager) :
  Audio.play fuel Audio.Jump this = Audio.playJump this.
Proof. reflexivity. Qed.

Lemma audio_play_Land (fuel : nat) (this : Audio.AudioManager) :
  Audio.play fuel Audio.Land this = Audio.playLand fuel this.
Proof. reflexivity. Qed.

Lemma audio_play_GameOver (fuel : nat) (this : Audio.AudioManager) :
  Audio.play fuel Audio.GameOver this = Audio.playGameOver this.
Proof. reflexivity. Qed.

Lemma audio_init_again (c : Audio.handle) (g : option Audio.handle) (b : bool)
    (br : Audio.Browser) (w : Audio.World) :
  Audio.init {| Audio.ctx := Some c; Audio.masterGain := g; Audio.isMuted := b |}
    br w
  = Audio.Returned
      {| Audio.ctx := Some c; Audio.masterGain := g; Audio.isMuted := b |} w.
Proof. reflexivity. Qed.

Lemma audio_init_calls (g0 : option Audio.handle) (b : bool)
    (br : Audio.Browser) (cs : list Audio.Call) (f tr d : nat) :
  Audio.init {| Audio.ctx := None; Audio.masterGain := g0; Audio.isMuted := b |}
    br {| Audio.calls := cs; Audio.fresh := f; Audio.timeReads := tr;
          Audio.drawn := d |}
  = if Audio.hasAudioContext br then
      Audio.Returned
        {| Audio.ctx := Some f; Audio.masterGain := Some (S f);
           Audio.isMuted := b |}
        {| Audio.calls := cs ++
             [ Audio.new_AudioContext f;
               Audio.createGain f (S f);
               Audio.set_value (S f) Audio.gain 0.3;
               Audio.connect (S f) (Audio.to_destination f) ];
           Audio.fresh := S (S f); Audio.timeReads := tr; Audio.drawn := d |}
    else
      Audio.Threw {| Audio.calls := cs; Audio.fresh := f;
                     Audio.timeReads := tr; Audio.drawn := d |}.
Proof.
  audio_run. destruct (Audio.hasAudioContext br); [|reflexivity].
  now rewrite <- !app_assoc.
Qed.

Lemma audio_resume_calls (this : Audio.AudioManager) (br : Audio.Browser)
    (cs : list Audio.Call) (f tr d : nat) :
  Audio.resume this br
    {| Audio.calls := cs; Audio.fresh := f; Audio.timeReads := tr;
       Audio.drawn := d |}
  = Audio.Returned this
      {| Audio.calls :=
           match Audio.ctx this, Audio.contextState br with
           | Some c, Audio.suspended => cs ++ [Audio.resume_context c]
           | _, _ => cs
           end;
         Audio.fresh := f; Audio.timeReads := tr; Audio.drawn := d |}.
Proof.
  destruct this as [[c|] g b]; audio_run; [|reflexivity].
  now destruct (Audio.contextState br).
Qed.

(** Every method keeps the invariant. *)
Lemma audio_invoke_well_formed (fuel : nat) (m : Audio.Method)
    (this : Audio.AudioManager) (br : Audio.Browser) (w : Audio.World)
    (this' : Audio.AudioManager) (w' : Audio.World) :
  Audio.well_formed this (Audio.calls w) ->
  Audio.invoke fuel m this br w = Audio.Returned this' w' ->
  Audio.well_formed this' (Audio.calls w').
Proof.
  intros Hwf H.
  destruct this as [[c|] [g|] b], w as [cs f tr d].
  - (* initialised *)
    destruct m as [| |[| |]].
    + rewrite audio_invoke_Init, audio_init_again in H.
      now injection H as <- <-.
    + rewrite audio_invoke_Resume, audio_resume_calls in H.
      injection H as <- <-. cbn [Audio.calls Audio.ctx].
      destruct (Audio.contextState br); try exact Hwf.
      apply well_formed_grow; [exact Hwf|repeat constructor| |].
      * intros n [Hn|[]]. discriminate.
      * intros c' n [Hn|[]]. discriminate.
    + rewrite audio_invoke_Play, audio_play_Jump, audio_playJump_calls in H.
      injection H as <- <-.
      cbn [Audio.calls].
      apply well_formed_grow; [exact Hwf|repeat constructor| |].
      * intros n Hn. cbn [In] in Hn.
        repeat (destruct Hn as [Hn|Hn]; try discriminate); [|contradiction].
        injection Hn as <-.
        apply Audio.routed_through with (S f);
          [|apply Audio.routed_connect]; apply in_or_app; right; in_list.
      * intros c' n Hn. cbn [In] in Hn.
        repeat (destruct Hn as [Hn|Hn]; try discriminate); [|contradiction].
        injection Hn as <- <-. split; [|eexists]; in_list.
    + rewrite audio_invoke_Play, audio_play_Land in H.
      apply audio_playLand_calls in H
        as (-> & smp & Hsmp & _ & _ & Hcalls).
      cbn [Audio.calls]. rewrite Hcalls.
      assert (Hnot : forall x, In x smp ->
                exists j v, x = Audio.set_sample f j v).
      { intros x Hx. rewrite Forall_forall in Hsmp.
        apply Hsmp. now apply list_elem_of_In. }
      apply well_formed_grow; [exact Hwf| | |].
      * constructor; [reflexivity|]. constructor; [reflexivity|].
        apply Forall_app. split; [|repeat constructor].
        apply Forall_forall. intros x Hx.
        apply list_elem_of_In, Hnot in Hx as (j & v & ->). reflexivity.
      * intros n Hn. cbn [In app] in Hn.
        destruct Hn as [Hn|[Hn|Hn]]; try discriminate.
        apply in_app_or in Hn as [Hn|Hn].
        { apply Hnot in Hn as (j & v & Hn). discriminate. }
        cbn [In] in Hn.
        repeat (destruct Hn as [Hn|Hn]; try discriminate); [|contradiction].
        injection Hn as <-.
        apply Audio.routed_through with (S (S f));
          [|apply Audio.routed_through with (S (S (S f)));
            [|apply Audio.routed_connect]];
          apply in_or_app; right; cbn [In app]; right; right;
          apply in_or_app; right; in_list.
      * intros c' n Hn. cbn [In app] in Hn.
        destruct Hn as [Hn|[Hn|Hn]]; try discriminate.
        apply in_app_or in Hn as [Hn|Hn].
        { apply Hnot in Hn as (j & v & Hn). discriminate. }
        cbn [In] in Hn.
        repeat (destruct Hn as [Hn|Hn]; try discriminate). contradiction.
    + rewrite audio_invoke_Play, audio_play_GameOver,
        audio_playGameOver_calls in H. injection H as <- <-.
      cbn [Audio.calls].
      apply well_formed_grow; [exact Hwf|repeat constructor| |].
      * intros n Hn. cbn [In] in Hn.
        repeat (destruct Hn as [Hn|Hn]; try discriminate); [|contradiction].
        injection Hn as <-.
        apply Audio.routed_through with (S f);
          [|apply Audio.routed_connect]; apply in_or_app; right; in_list.
      * intros c' n Hn. cbn [In] in Hn.
        repeat (destruct Hn as [Hn|Hn]; try discriminate); [|contradiction].
        injection Hn as <- <-. split; [|eexists]; in_list.
  - (* a context without a master gain: not a state of the invariant *)
    destruct Hwf as [(Hc & _)|((c0 & g0 & _ & Hg & _) & _)]; discriminate.
  - destruct Hwf as [(_ & Hg & _)|((c0 & g0 & Hc & _) & _)]; discriminate.
  - (* not initialised *)
    destruct Hwf as [(_ & _ & Hcs)|((c0 & g0 & Hc & _) & _)]; [|discriminate].
    cbn [Audio.calls] in Hcs. subst cs.
    destruct m as [| |s].
    + rewrite audio_invoke_Init, audio_init_calls in H.
      destruct (Audio.hasAudioContext br); [|discriminate].
      injection H as <- <-. cbn [Audio.calls app]. right.
      split; [|split; [|split]].
      * exists f, (S f). repeat split; in_list.
      * reflexivity.
      * intros n Hn. cbn [In] in Hn.
        repeat (destruct Hn as [Hn|Hn]; try discriminate). contradiction.
      * intros c' n Hn. cbn [In] in Hn.
        repeat (destruct Hn as [Hn|Hn]; try discriminate). contradiction.
    + rewrite audio_invoke_Resume, audio_resume_calls in H.
      injection H as <- <-. now left.
    + rewrite audio_invoke_Play, audio_play_uninitialised in H by now left.
      injection H as <- <-. now left.
Qed.

Lemma audio_invokeAll_nil (fuel : nat) (this : Audio.AudioManager)
    (br : Audio.Browser) (w : Audio.World) :
  Audio.invokeAll fuel [] this br w = Audio.Returned this w.
Proof. reflexivity. Qed.

Lemma audio_invokeAll_cons (fuel : nat) (m : Audio.Method)
    (ms : list Audio.Method) (this : Audio.AudioManager)
    (br : Audio.Browser) (w : Audio.World) :
  Audio.invokeAll fuel (m :: ms) this br w =
  match Audio.invoke fuel m this br w with
  | Audio.Returned this' w' => Audio.invokeAll fuel ms this' br w'
  | Audio.Threw w' => Audio.Threw w'
  | Audio.Looping => Audio.Looping
  end.
Proof. reflexivity. Qed.

(** What every method keeps, every sequence of methods keeps. *)
Lemma audio_invokeAll_inv (P : Audio.AudioManager -> Audio.World -> Prop)
    (fuel : nat) (br : Audio.Browser) :
  (forall m this w this' w',
     P this w -> Audio.invoke fuel m this br w = Audio.Returned this' w' ->
     P this' w') ->
  forall ms this w this' w',
    P this w -> Audio.invokeAll fuel ms this br w = Audio.Returned this' w' ->
    P this' w'.
Proof.
  intros Hstep ms. induction ms as [|m ms IH]; intros this w this' w' HP H.
  - rewrite audio_invokeAll_nil in H. now injection H as <- <-.
  - rewrite audio_invokeAll_cons in H.
    destruct (Audio.invoke fuel m this br w) as [this1 w1| |] eqn:E;
      try discriminate.
    eapply IH; [|exact H]. eapply Hstep; [exact HP|exact E].
Qed.

Lemma audio_invokeAll_well_formed (fuel : nat) (ms : list Audio.Method)
    (br : Audio.Browser) (this : Audio.AudioManager) (w : Audio.World) :
  Audio.invokeAll fuel ms Audio.audioManager br Audio.emptyWorld
    = Audio.Returned this w ->
  Audio.well_formed this (Audio.calls w).
Proof.
  intros H.
  refine (audio_invokeAll_inv
            (fun this w => Audio.well_formed this (Audio.calls w)) fuel br _
            ms _ _ _ _ _ H).
  - intros m this0 w0 this1 w1. apply audio_invoke_well_formed.
  - left. now repeat split.
Qed.

(** A method other than [init] on a manager without a context returns at
    once. *)
Lemma audio_invoke_uninitialised (fuel : nat) (m : Audio.Method)
    (this : Audio.AudioManager) (br : Audio.Browser) (w : Audio.World) :
  Audio.ctx this = None -> m <> Audio.Init ->
  Audio.invoke fuel m this br w = Audio.Returned this w.
Proof.
  intros Hctx Hm. destruct m as [| |s]; [congruence| |].
  - destruct w as [cs f tr d].
    rewrite audio_invoke_Resume, audio_resume_calls, Hctx. reflexivity.
  - rewrite audio_invoke_Play. apply audio_play_uninitialised. now left.
Qed.

(** No method changes the fields of a manager that has a context. *)
Lemma audio_invoke_keeps_manager (fuel : nat) (m : Audio.Method)
    (this : Audio.AudioManager) (br : Audio.Browser) (w : Audio.World)
    (this' : Audio.AudioManager) (w' : Audio.World) :
  Audio.ctx this <> None ->
  Audio.invoke fuel m this br w = Audio.Returned this' w' ->
  this' = this.
Proof.
  intros Hctx H. destruct this as [[c|] g b]; [|now contradict Hctx].
  destruct w as [cs f tr d]. destruct m as [| |s].
  - rewrite audio_invoke_Init, audio_init_again in H. now injection H as <- _.
  - rewrite audio_invoke_Resume, audio_resume_calls in H.
    now injection H as <- _.
  - destruct g as [g|].
    + destruct s.
      * rewrite audio_invoke_Play, audio_play_Jump, audio_playJump_calls in H.
        now injection H as <- _.
      * rewrite audio_invoke_Play, audio_play_Land in H.
        now apply audio_playLand_calls in H as (-> & _).
      * rewrite audio_invoke_Play, audio_play_GameOver,
          audio_playGameOver_calls in H.
        now injection H as <- _.
    + rewrite audio_invoke_Play, audio_play_uninitialised in H by now right.
      now injection H as <- _.
Qed.

Lemma audio_invokeAll_keeps_manager (fuel : nat) (br : Audio.Browser)
    (ms : list Audio.Method) :
  forall (this : Audio.AudioManager) (w : Audio.World)
         (this' : Audio.AudioManager) (w' : Audio.World),
    Audio.ctx this <> None ->
    Audio.invokeAll fuel ms this br w = Audio.Returned this' w' ->
    this' = this.
Proof.
  induction ms as [|m ms IH]; intros this w this' w' Hctx H.
  - rewrite audio_invokeAll_nil in H. now injection H as <- _.
  - rewrite audio_invokeAll_cons in H.
    destruct (Audio.invoke fuel m this br w) as [this1 w1| |] eqn:E;
      try discriminate.
    apply audio_invoke_keeps_manager in E; [|exact Hctx]. subst this1.
    now apply IH in H.
Qed.

(** When [init] returns, the manager has a context. *)
Lemma audio_init_sets_ctx (this : Audio.AudioManager) (br : Audio.Browser)
    (w : Audio.World) (this' : Audio.AudioManager) (w' : Audio.World) :
  Audio.init this br w = Audio.Returned this' w' -> Audio.ctx this' <> None.
Proof.
  intros H. destruct this as [[c|] g b], w as [cs f tr d].
  - rewrite audio_init_again in H. now injection H as <- _.
  - rewrite audio_init_calls in H.
    destruct (Audio.hasAudioContext br); [|discriminate].
    now injection H as <- _.
Qed.

Lemma audio_invokeAll_after_init (fuel : nat) (br : Audio.Browser)
    (ms : list Audio.Method) :
  forall (this : Audio.AudioManager) (w : Audio.World)
         (this' : Audio.AudioManager) (w' : Audio.World),
    In Audio.Init ms ->
    Audio.invokeAll fuel ms this br w = Audio.Returned this' w' ->
    Audio.ctx this' <> None.
Proof.
  induction ms as [|m ms IH]; intros this w this' w' Hin H; [destruct Hin|].
  rewrite audio_invokeAll_cons in H.
  destruct (Audio.invoke fuel m this br w) as [this1 w1| |] eqn:E;
    try discriminate.
  destruct m as [| |s].
  - rewrite audio_invoke_Init in E. apply audio_init_sets_ctx in E.
    apply audio_invokeAll_keeps_manager in H; [|exact E]. now subst this'.
  - destruct Hin as [Hin|Hin]; [discriminate|]. now apply IH in H.
  - destruct Hin as [Hin|Hin]; [discriminate|]. now apply IH in H.
Qed.

Lemma audio_invokeAll_before_init (fuel : nat) (br : Audio.Browser)
    (ms : list Audio.Method) (this : Audio.AudioManager) (w : Audio.World) :
  Audio.ctx this = None -> ~ In Audio.Init ms ->
  Audio.invokeAll fuel ms this br w = Audio.Returned this w.
Proof.
  intros Hctx. induction ms as [|m ms IH]; intros Hin; [reflexivity|].
  rewrite audio_invokeAll_cons, audio_invoke_uninitialised.
  - apply IH. intros Hin'. apply Hin. now right.
  - exact Hctx.
  - intros ->. apply Hin. now left.
Qed.

(** X15. Whatever methods are called on the new manager, in whatever order
    and however often: a context is made once when [init] is among them and
    never otherwise, and the manager has its context and its master gain
    together. *)
Theorem audio_context_made_once (fuel : nat) (ms : list Audio.Method)
    (br : Audio.Browser) (this : Audio.AudioManager) (w : Audio.World) :
  Audio.invokeAll fuel ms Audio.audioManager br Audio.emptyWorld
    = Audio.Returned this w ->
  length (List.filter Audio.is_new_AudioContext (Audio.calls w))
    = match Audio.ctx this with Some _ => 1%nat | None => 0%nat end /\
  (In Audio.Init ms <-> Audio.ctx this <> None) /\
  (Audio.ctx this = None <-> Audio.masterGain this = None).
Proof.
  intros H. pose proof (audio_invokeAll_well_formed _ _ _ _ _ H) as Hwf.
  split; [|split].
  - destruct Hwf as [(-> & _ & ->)|((c & g & -> & _) & Hone & _)];
      [reflexivity|exact Hone].
  - split.
    + intros Hin. exact (audio_invokeAll_after_init _ _ _ _ _ _ _ Hin H).
    + intros Hctx. destruct (in_dec (fun a b : Audio.Method =>
                       ltac:(decide equality; decide equality)
                       : {a = b} + {a <> b}) Audio.Init ms) as [Hin|Hin];
        [exact Hin|].
      rewrite (audio_invokeAll_before_init fuel br ms Audio.audioManager
                 Audio.emptyWorld eq_refl Hin) in H.
      injection H as <- _. now contradict Hctx.
  - destruct Hwf as [(-> & -> & _)|((c & g & -> & -> & _) & _)];
      split; intros; congruence.
Qed.

Lemma audio_context_made_once_witness :
  exists this w,
    Audio.invokeAll 0 Fixtures.session Audio.audioManager Fixtures.browser
      Audio.emptyWorld = Audio.Returned this w /\
    (length (List.filter Audio.is_new_AudioContext (Audio.calls w))
       = match Audio.ctx this with Some _ => 1%nat | None => 0%nat end /\
     (In Audio.Init Fixtures.session <-> Audio.ctx this <> None) /\
     (Audio.ctx this = None <-> Audio.masterGain this = None)).
Proof.
  eexists. eexists. split.
  - vm_compute. reflexivity.
  - apply (audio_context_made_once 0 Fixtures.session Fixtures.browser).
    vm_compute. reflexivity.
Defined.

(** X16. Whatever methods are called on the new manager: every node that
    was started has a path of connections to the master gain, and the master
    gain is connected to the destination of the context. *)
Theorem audio_started_nodes_reach_destination (fuel : nat)
    (ms : list Audio.Method) (br : Audio.Browser) (this : Audio.AudioManager)
    (w : Audio.World) (n : Audio.handle) :
  Audio.invokeAll fuel ms Audio.audioManager br Audio.emptyWorld
    = Audio.Returned this w ->
  In (Audio.start n) (Audio.calls w) ->
  exists c g,
    Audio.ctx this = Some c /\ Audio.masterGain this = Some g /\
    Audio.routed (Audio.calls w) n g /\
    In (Audio.connect g (Audio.to_destination c)) (Audio.calls w).
Proof.
  intros H Hn.
  destruct (audio_invokeAll_well_formed _ _ _ _ _ H)
    as [(_ & _ & Hcs)|(Hinit & _ & Hstart & _)].
  - rewrite Hcs in Hn. destruct Hn.
  - destruct Hinit as (c & g & Hc & Hg & _ & _ & Hd).
    destruct (Hstart n Hn) as (g' & Hg' & Hr).
    rewrite Hg in Hg'. injection Hg' as <-.
    exists c, g. now repeat split.
Qed.

Lemma audio_started_nodes_reach_destination_witness :
  exists this w,
    Audio.invokeAll 0 Fixtures.session Audio.audioManager Fixtures.browser
      Audio.emptyWorld = Audio.Returned this w /\
    In (Audio.start 4%nat) (Audio.calls w) /\
    exists c g,
      Audio.ctx this = Some c /\ Audio.masterGain this = Some g /\
      Audio.routed (Audio.calls w) 4%nat g /\
      In (Audio.connect g (Audio.to_destination c)) (Audio.calls w).
Proof.
  eexists. eexists. split.
  - vm_compute. reflexivity.
  - split.
    + vm_compute. repeat (first [left; reflexivity | right]).
    + apply (audio_started_nodes_reach_destination 0 Fixtures.session
               Fixtures.browser).
      * vm_compute. reflexivity.
      * vm_compute. repeat (first [left; reflexivity | right]).
Defined.

(** X17. Whatever methods are called on the new manager: every oscillator
    that was created was started and was given a time to stop. *)
Theorem audio_oscillators_stopped (fuel : nat) (ms : list Audio.Method)
    (br : Audio.Browser) (this : Audio.AudioManager) (w : Audio.World)
    (c n : Audio.handle) :
  Audio.invokeAll fuel ms Audio.audioManager br Audio.emptyWorld
    = Audio.Returned this w ->
  In (Audio.createOscillator c n) (Audio.calls w) ->
  In (Audio.start n) (Audio.calls w) /\
  exists t, In (Audio.stop n t) (Audio.calls w).
Proof.
  intros H Hn.
  destruct (audio_invokeAll_well_formed _ _ _ _ _ H)
    as [(_ & _ & Hcs)|(_ & _ & _ & Hosc)].
  - rewrite Hcs in Hn. destruct Hn.
  - exact (Hosc c n Hn).
Qed.

Lemma audio_oscillators_stopped_witness :
  exists this w,
    Audio.invokeAll 0 Fixtures.session Audio.audioManager Fixtures.browser
      Audio.emptyWorld = Audio.Returned this w /\
    In (Audio.createOscillator 0%nat 2%nat) (Audio.calls w) /\
    In (Audio.start 2%nat) (Audio.calls w) /\
    exists t, In (Audio.stop 2%nat t) (Audio.calls w).
Proof.
  eexists. eexists. split.
  - vm_compute. reflexivity.
  - split.
    + vm_compute. repeat (first [left; reflexivity | right]).
    + apply audio_oscillators_stopped
        with (fuel := 0%nat) (ms := Fixtures.session)
             (br := Fixtures.browser) (this := Fixtures.manager) (c := 0%nat).
      * vm_compute. reflexivity.
      * vm_compute. repeat (first [left; reflexivity | right]).
Defined.

(** X18. Before [init] the manager is silent: on a manager without a
    context, [resume] and the three sounds, in whatever order and however
    often, call nothing and leave the manager as it is. *)
Theorem audio_silent_before_init (fuel : nat) (ms : list Audio.Method)
    (this : Audio.AudioManager) (br : Audio.Browser) (w : Audio.World) :
  Audio.ctx this = None -> ~ In Audio.Init ms ->
  Audio.invokeAll fuel ms this br w = Audio.Returned this w.
Proof. apply audio_invokeAll_before_init. Qed.

Lemma audio_silent_before_init_witness :
  Audio.invokeAll 0
    [ Audio.Play Audio.Jump; Audio.Resume; Audio.Play Audio.Land;
      Audio.Play Audio.GameOver ]
    Audio.audioManager Fixtures.browser Audio.emptyWorld
  = Audio.Returned Audio.audioManager Audio.emptyWorld.
Proof.
  apply audio_silent_before_init; [reflexivity|].
  cbn [In]. intros H.
  repeat (destruct H as [H|H]; [discriminate H|]). exact H.
Defined.

(** X19. Where the browser has no [AudioContext] class, a sequence of
    methods with [init] in it, on a manager without a context, ends in the
    exception of [init], and nothing was called before it. *)
Theorem audio_init_throws_without_api (fuel : nat) (ms : list Audio.Method)
    (this : Audio.AudioManager) (br : Audio.Browser) (w : Audio.World) :
  Audio.ctx this = None -> Audio.hasAudioContext br = false ->
  In Audio.Init ms ->
  Audio.invokeAll fuel ms this br w = Audio.Threw w.
Proof.
  intros Hctx Hhas. induction ms as [|m ms IH]; intros Hin; [destruct Hin|].
  rewrite audio_invokeAll_cons. destruct m as [| |s].
  - destruct this as [[c|] g b]; [discriminate|]. destruct w as [cs f tr d].
    now rewrite audio_invoke_Init, audio_init_calls, Hhas.
  - rewrite audio_invoke_uninitialised by (exact Hctx || discriminate).
    destruct Hin as [Hin|Hin]; [discriminate|]. now apply IH.
  - rewrite audio_invoke_uninitialised by (exact Hctx || discriminate).
    destruct Hin as [Hin|Hin]; [discriminate|]. now apply IH.
Qed.

Lemma audio_init_throws_without_api_witness :
  Audio.invokeAll 0 Fixtures.session Audio.audioManager Fixtures.old_browser
    Audio.emptyWorld
  = Audio.Threw Audio.emptyWorld.
Proof.
  apply audio_init_throws_without_api; [reflexivity|reflexivity|].
  right. left. reflexivity.
Defined.

Lemma audio_playLand_isMuted (fuel : nat) (c g : Audio.handle) (b b0 : bool)
    (br : Audio.Browser) (w : Audio.World) :
  Audio.playLand fuel {| Audio.ctx := Some c; Audio.masterGain := Some g;
                         Audio.isMuted := b |} br w
  = Audio.map_outcome (Audio.with_isMuted b)
      (Audio.playLand fuel {| Audio.ctx := Some c; Audio.masterGain := Some g;
                              Audio.isMuted := b0 |} br w).
Proof.
  audio_run.
  destruct (Audio.fillNoise fuel _ _ 0 br _) as [[] w2| |]; reflexivity.
Qed.

Lemma audio_invoke_isMuted (fuel : nat) (m : Audio.Method) (b : bool)
    (this : Audio.AudioManager) (br : Audio.Browser) (w : Audio.World) :
  Audio.invoke fuel m (Audio.with_isMuted b this) br w
  = Audio.map_outcome (Audio.with_isMuted b) (Audio.invoke fuel m this br w).
Proof.
  destruct this as [[c|] [g|] b0], w as [cs f tr d];
    cbv [Audio.with_isMuted Audio.ctx Audio.masterGain].
  - destruct m as [| |[| |]].
    + rewrite !audio_invoke_Init, !audio_init_again. reflexivity.
    + rewrite !audio_invoke_Resume, !audio_resume_calls. reflexivity.
    + rewrite !audio_invoke_Play, !audio_play_Jump, !audio_playJump_calls.
      reflexivity.
    + rewrite !audio_invoke_Play, !audio_play_Land.
      apply audio_playLand_isMuted.
    + rewrite !audio_invoke_Play, !audio_play_GameOver,
        !audio_playGameOver_calls.
      reflexivity.
  - destruct m as [| |s].
    + rewrite !audio_invoke_Init, !audio_init_again. reflexivity.
    + rewrite !audio_invoke_Resume, !audio_resume_calls. reflexivity.
    + rewrite !audio_invoke_Play, !audio_play_uninitialised by (now right).
      reflexivity.
  - destruct m as [| |s].
    + rewrite !audio_invoke_Init, !audio_init_calls.
      destruct (Audio.hasAudioContext br); reflexivity.
    + rewrite !audio_invoke_Resume, !audio_resume_calls. reflexivity.
    + rewrite !audio_invoke_Play, !audio_play_uninitialised by (now left).
      reflexivity.
  - destruct m as [| |s].
    + rewrite !audio_invoke_Init, !audio_init_calls.
      destruct (Audio.hasAudioContext br); reflexivity.
    + rewrite !audio_invoke_Resume, !audio_resume_calls. reflexivity.
    + rewrite !audio_invoke_Play, !audio_play_uninitialised by (now left).
      reflexivity.
Qed.

(** X20. No method reads or writes [isMuted]: with another value of the
    field every sequence of methods makes the same calls and ends in the same
    way, and the field keeps its value. *)
Theorem audio_isMuted_ignored (fuel : nat) (ms : list Audio.Method) (b : bool)
    (this : Audio.AudioManager) (br : Audio.Browser) (w : Audio.World) :
  Audio.invokeAll fuel ms (Audio.with_isMuted b this) br w
  = Audio.map_outcome (Audio.with_isMuted b)
      (Audio.invokeAll fuel ms this br w).
Proof.
  revert this w. induction ms as [|m ms IH]; intros this w; [reflexivity|].
  rewrite !audio_invokeAll_cons, audio_invoke_isMuted.
  destruct (Audio.invoke fuel m this br w) as [this1 w1| |];
    cbn [Audio.map_outcome]; [apply IH|reflexivity|reflexivity].
Qed.

(** [playLand] with a bound that is large enough for its loop. *)
Lemma audio_playLand_enough (fuel : nat) (c g : Audio.handle) (b : bool)
    (br : Audio.Browser) (cs : list Audio.Call) (f tr d : nat) :
  (Z.to_nat (Qceiling (Audio.sampleRate br * 0.1)) <= fuel)%nat ->
  Audio.playLand fuel {| Audio.ctx := Some c; Audio.masterGain := Some g;
                         Audio.isMuted := b |} br
    {| Audio.calls := cs; Audio.fresh := f; Audio.timeReads := tr;
       Audio.drawn := d |}
  = Audio.Returned
      {| Audio.ctx := Some c; Audio.masterGain := Some g; Audio.isMuted := b |}
      {| Audio.calls := cs ++
           [ Audio.createBuffer c f 1 (Audio.sampleRate br * 0.1)
               (Audio.sampleRate br);
             Audio.getChannelData f 0 ] ++
           map (fun j : nat =>
                  Audio.set_sample f (Z.of_nat j)
                    (Audio.random br (d + j)%nat * 2 - 1))
               (seq 0 (Z.to_nat (Qceiling (Audio.sampleRate br * 0.1)))) ++
           [ Audio.createBufferSource c (S f);
             Audio.set_buffer (S f) f;
             Audio.createBiquadFilter c (S (S f));
             Audio.set_type (S (S f)) "lowpass";
             Audio.set_value (S (S f)) Audio.frequency 500;
             Audio.createGain c (S (S (S f)));
             Audio.setValueAtTime (S (S (S f))) Audio.gain 0.2
               (Audio.currentTime br tr);
             Audio.exponentialRampToValueAtTime (S (S (S f))) Audio.gain 0.01
               (Audio.currentTime br (S tr) + 0.1);
             Audio.connect (S f) (Audio.to_node (S (S f)));
             Audio.connect (S (S f)) (Audio.to_node (S (S (S f))));
             Audio.connect (S (S (S f))) (Audio.to_node g);
             Audio.start (S f) ];
         Audio.fresh := S (S (S (S f)));
         Audio.timeReads := S (S tr);
         Audio.drawn := (d + Z.to_nat (Qceiling (Audio.sampleRate br * 0.1)))%nat
      |}.
Proof.
  intros Hfuel. audio_run.
  erewrite audio_fillNoise_calls;
    [|reflexivity|rewrite Z.sub_0_r; exact Hfuel].
  rewrite Z.sub_0_r. audio_run. now rewrite <- !app_assoc.
Qed.

Lemma samples_app (a b : list Audio.Call) :
  Audio.samples (a ++ b) = Audio.samples a ++ Audio.samples b.
Proof. apply omap_app. Qed.

Lemma samples_set_sample {A} (buf : Audio.handle) (i : A -> Z) (v : A -> Q)
    (l : list A) :
  Audio.samples (map (fun j => Audio.set_sample buf (i j) (v j)) l)
  = map (fun j => (i j, v j)) l.
Proof.
  induction l as [|x l IH]; [reflexivity|].
  cbn [map]. change (Audio.samples (?c :: ?r)) with
    (match c with
     | Audio.set_sample _ i0 v0 => (i0, v0) :: Audio.samples r
     | _ => Audio.samples r
     end).
  cbv beta iota. now rewrite IH.
Qed.

(** X21. With a bound that is large enough for its loop, [playLand] on an
    initialised manager returns, and the samples that it writes are one for
    each index below the size of the buffer, in order, each from a draw of
    its own and, for draws in [0, 1), in [-1, 1). *)
Theorem audio_land_noise (fuel : nat) (c g : Audio.handle) (b : bool)
    (br : Audio.Browser) (w : Audio.World) :
  (Z.to_nat (Qceiling (Audio.sampleRate br * 0.1)) <= fuel)%nat ->
  in_unit_interval (Audio.random br) ->
  exists w',
    Audio.playLand fuel {| Audio.ctx := Some c; Audio.masterGain := Some g;
                           Audio.isMuted := b |} br w
    = Audio.Returned {| Audio.ctx := Some c; Audio.masterGain := Some g;
                        Audio.isMuted := b |} w' /\
    Audio.samples (Audio.calls w')
    = Audio.samples (Audio.calls w) ++ Audio.noise br (Audio.drawn w) /\
    Audio.drawn w'
    = (Audio.drawn w + length (Audio.noise br (Audio.drawn w)))%nat /\
    Forall (fun s => (-1 <= snd s < 1)%Q) (Audio.noise br (Audio.drawn w)).
Proof.
  intros Hfuel Hunit. destruct w as [cs f tr d].
  eexists. split; [apply (audio_playLand_enough _ _ _ _ _ _ _ _ _ Hfuel)|].
  cbn [Audio.calls Audio.drawn]. split; [|split].
  - rewrite !samples_app, samples_set_sample. cbn. now rewrite app_nil_r.
  - unfold Audio.noise. now rewrite length_map, length_seq.
  - unfold Audio.noise. apply Forall_forall. intros s Hs.
    apply list_elem_of_In, in_map_iff in Hs as (j & <- & _). cbn [snd].
    pose proof (Hunit (d + j)%nat). lra.
Qed.

Lemma audio_land_noise_witness :
  exists w',
    Audio.playLand 4410 Fixtures.manager Fixtures.browser Audio.emptyWorld
    = Audio.Returned Fixtures.manager w' /\
    Audio.samples (Audio.calls w')
    = Audio.samples (Audio.calls Audio.emptyWorld)
      ++ Audio.noise Fixtures.browser (Audio.drawn Audio.emptyWorld) /\
    Audio.drawn w'
    = (Audio.drawn Audio.emptyWorld
       + length (Audio.noise Fixtures.browser
                   (Audio.drawn Audio.emptyWorld)))%nat /\
    Forall (fun s => (-1 <= snd s < 1)%Q)
           (Audio.noise Fixtures.browser (Audio.drawn Audio.emptyWorld)).
Proof.
  apply (audio_land_noise 4410 0%nat 1%nat false Fixtures.browser
           Audio.emptyWorld).
  - vm_compute. apply le_n.
  - exact cyclic15_in_unit_interval.
Defined.

Lemma audio_invoke_returns (fuel : nat) (m : Audio.Method)
    (this : Audio.AudioManager) (br : Audio.Browser) (w : Audio.World) :
  Audio.hasAudioContext br = true ->
  (Z.to_nat (Qceiling (Audio.sampleRate br * 0.1)) <= fuel)%nat ->
  exists this' w',
    Audio.invoke fuel m this br w = Audio.Returned this' w'.
Proof.
  intros Hhas Hfuel. destruct this as [[c|] [g|] b], w as [cs f tr d].
  - destruct m as [| |[| |]].
    + rewrite audio_invoke_Init, audio_init_again. now do 2 eexists.
    + rewrite audio_invoke_Resume, audio_resume_calls. now do 2 eexists.
    + rewrite audio_invoke_Play, audio_play_Jump, audio_playJump_calls.
      now do 2 eexists.
    + rewrite audio_invoke_Play, audio_play_Land,
        (audio_playLand_enough _ _ _ _ _ _ _ _ _ Hfuel).
      now do 2 eexists.
    + rewrite audio_invoke_Play, audio_play_GameOver,
        audio_playGameOver_calls.
      now do 2 eexists.
  - destruct m as [| |s].
    + rewrite audio_invoke_Init, audio_init_again. now do 2 eexists.
    + rewrite audio_invoke_Resume, audio_resume_calls. now do 2 eexists.
    + rewrite audio_invoke_Play, audio_play_uninitialised by (now right).
      now do 2 eexists.
  - destruct m as [| |s].
    + rewrite audio_invoke_Init, audio_init_calls, Hhas. now do 2 eexists.
    + rewrite audio_invoke_Resume, audio_resume_calls. now do 2 eexists.
    + rewrite audio_invoke_Play, audio_play_uninitialised by (now left).
      now do 2 eexists.
  - destruct m as [| |s].
    + rewrite audio_invoke_Init, audio_init_calls, Hhas. now do 2 eexists.
    + rewrite audio_invoke_Resume, audio_resume_calls. now do 2 eexists.
    + rewrite audio_invoke_Play, audio_play_uninitialised by (now left).
      now do 2 eexists.
Qed.

(** X22. In a browser with an [AudioContext] class, and with a bound that is
    large enough for the loop of [playLand], every sequence of methods on
    every manager returns: [init] does not throw and the loop ends. *)
Theorem audio_methods_return (fuel : nat) (ms : list Audio.Method)
    (this : Audio.AudioManager) (br : Audio.Browser) (w : Audio.World) :
  Audio.hasAudioContext br = true ->
  (Z.to_nat (Qceiling (Audio.sampleRate br * 0.1)) <= fuel)%nat ->
  exists this' w',
    Audio.invokeAll fuel ms this br w = Audio.Returned this' w'.
Proof.
  intros Hhas Hfuel. revert this w.
  induction ms as [|m ms IH]; intros this w; [now do 2 eexists|].
  rewrite audio_invokeAll_cons.
  destruct (audio_invoke_returns fuel m this br w Hhas Hfuel)
    as (this1 & w1 & ->).
  apply IH.
Qed.

Lemma audio_methods_return_witness :
  exists this' w',
    Audio.invokeAll 4410 (Fixtures.session ++ [Audio.Play Audio.Land])
      Audio.audioManager Fixtures.browser Audio.emptyWorld
    = Audio.Returned this' w'.
Proof.
  apply audio_methods_return.
  - reflexivity.
  - vm_compute. apply le_n.
Defined.

Lemma filter_nothing {A} (p : A -> bool) (l : list A) :
  Forall (fun x => p x = false) l -> List.filter p l = [].
Proof.
  induction 1 as [|x l Hx _ IH]; simpl; [reflexivity|]. now rewrite Hx.
Qed.

(** The nodes of a sound are newer than the master gain, so that the sound
    writes no gain of the master gain. *)
Lemma volume_fixed_grow (c g : Audio.handle) (b : bool) (cs new : list Audio.Call)
    (f f' tr tr' d d' : nat) :
  Audio.volume_fixed
    {| Audio.ctx := Some c; Audio.masterGain := Some g; Audio.isMuted := b |}
    {| Audio.calls := cs; Audio.fresh := f; Audio.timeReads := tr;
       Audio.drawn := d |} ->
  (f <= f')%nat ->
  ((g < f)%nat -> Forall (fun x => Audio.writes_gain g x = false) new) ->
  Audio.volume_fixed
    {| Audio.ctx := Some c; Audio.masterGain := Some g; Audio.isMuted := b |}
    {| Audio.calls := cs ++ new; Audio.fresh := f'; Audio.timeReads := tr';
       Audio.drawn := d' |}.
Proof.
  intros [(Hctx & _)|(c0 & g0 & Hc & Hg & Hlt & Hf)] Hle Hnew; [discriminate|].
  cbn [Audio.ctx Audio.masterGain Audio.calls Audio.fresh] in *.
  injection Hg as <-. right. exists c, g.
  cbn [Audio.ctx Audio.masterGain Audio.calls Audio.fresh].
  split; [reflexivity|]. split; [reflexivity|]. split; [lia|].
  now rewrite List.filter_app, (filter_nothing _ new (Hnew Hlt)), app_nil_r.
Qed.

(** Proves that a node that is newer than [g] is not [g]. *)
Ltac newer_node :=
  cbn [Audio.writes_gain];
  first [reflexivity | apply Nat.eqb_neq; lia].

Lemma audio_invoke_volume_fixed (fuel : nat) (m : Audio.Method)
    (this : Audio.AudioManager) (br : Audio.Browser) (w : Audio.World)
    (this' : Audio.AudioManager) (w' : Audio.World) :
  Audio.volume_fixed this w ->
  Audio.invoke fuel m this br w = Audio.Returned this' w' ->
  Audio.volume_fixed this' w'.
Proof.
  intros Hv H.
  destruct this as [[c|] [g|] b], w as [cs f tr d].
  - destruct m as [| |[| |]].
    + rewrite audio_invoke_Init, audio_init_again in H.
      now injection H as <- <-.
    + rewrite audio_invoke_Resume, audio_resume_calls in H.
      injection H as <- <-. cbn [Audio.ctx].
      destruct (Audio.contextState br); try exact Hv.
      apply (volume_fixed_grow _ _ _ _ _ _ _ _ _ _ _ Hv); [lia|].
      intros Hlt. repeat constructor.
    + rewrite audio_invoke_Play, audio_play_Jump, audio_playJump_calls in H.
      injection H as <- <-.
      apply (volume_fixed_grow _ _ _ _ _ _ _ _ _ _ _ Hv); [lia|].
      intros Hlt. repeat (constructor; [newer_node|]). constructor.
    + rewrite audio_invoke_Play, audio_play_Land in H.
      apply audio_playLand_calls in H
        as (-> & smp & Hsmp & Hfresh & _ & Hcalls).
      destruct w' as [cs' f' tr' d']. cbn [Audio.calls Audio.fresh] in *.
      subst cs' f'.
      apply (volume_fixed_grow _ _ _ _ _ _ _ _ _ _ _ Hv); [lia|].
      intros Hlt. do 2 (constructor; [newer_node|]).
      apply Forall_app. split.
      * eapply Forall_impl; [exact Hsmp|].
        intros x (j & v & ->). reflexivity.
      * repeat (constructor; [newer_node|]). constructor.
    + rewrite audio_invoke_Play, audio_play_GameOver,
        audio_playGameOver_calls in H.
      injection H as <- <-.
      apply (volume_fixed_grow _ _ _ _ _ _ _ _ _ _ _ Hv); [lia|].
      intros Hlt. repeat (constructor; [newer_node|]). constructor.
  - destruct Hv as [(Hc & _)|(c0 & g0 & _ & Hg & _)]; discriminate.
  - destruct Hv as [(_ & Hg & _)|(c0 & g0 & Hc & _)]; discriminate.
  - destruct Hv as [(_ & _ & Hcs)|(c0 & g0 & Hc & _)]; [|discriminate].
    cbn [Audio.calls] in Hcs. subst cs.
    destruct m as [| |s].
    + rewrite audio_invoke_Init, audio_init_calls in H.
      destruct (Audio.hasAudioContext br); [|discriminate].
      injection H as <- <-. right. exists f, (S f).
      cbn [Audio.ctx Audio.masterGain Audio.calls Audio.fresh app].
      split; [reflexivity|]. split; [reflexivity|]. split; [lia|].
      cbn [List.filter Audio.writes_gain]. now rewrite Nat.eqb_refl.
    + rewrite audio_invoke_Resume, audio_resume_calls in H.
      injection H as <- <-. now left.
    + rewrite audio_invoke_Play, audio_play_uninitialised in H by now left.
      injection H as <- <-. now left.
Qed.

(** X23. Whatever methods are called on the new manager, the gain of the
    master gain is written once, with 0.3: no sound assigns to it or schedules
    a value or a ramp on it. *)
Theorem audio_master_volume_fixed (fuel : nat) (ms : list Audio.Method)
    (br : Audio.Browser) (this : Audio.AudioManager) (w : Audio.World)
    (g : Audio.handle) :
  Audio.invokeAll fuel ms Audio.audioManager br Audio.emptyWorld
    = Audio.Returned this w ->
  Audio.masterGain this = Some g ->
  List.filter (Audio.writes_gain g) (Audio.calls w)
  = [Audio.set_value g Audio.gain 0.3].
Proof.
  intros H Hg.
  assert (Hv : Audio.volume_fixed this w).
  { refine (audio_invokeAll_inv Audio.volume_fixed fuel br _ ms _ _ _ _ _ H).
    - intros m this0 w0 this1 w1. apply audio_invoke_volume_fixed.
    - left. now repeat split. }
  destruct Hv as [(_ & Hnone & _)|(c0 & g0 & _ & Hg0 & _ & Hf)]; [congruence|].
  rewrite Hg in Hg0. now injection Hg0 as <-.
Qed.

Lemma audio_master_volume_fixed_witness :
  exists this w,
    Audio.invokeAll 0 Fixtures.session Audio.audioManager Fixtures.browser
      Audio.emptyWorld = Audio.Returned this w /\
    Audio.masterGain this = Some 1%nat /\
    List.filter (Audio.writes_gain 1%nat) (Audio.calls w)
    = [Audio.set_value 1%nat Audio.gain 0.3].
Proof.
  eexists. eexists. split.
  - vm_compute. reflexivity.
  - split.
    + reflexivity.
    + apply audio_master_volume_fixed
        with (fuel := 0%nat) (ms := Fixtures.session)
             (br := Fixtures.browser) (this := Fixtures.manager).
      * vm_compute. reflexivity.
      * reflexivity.
Defined.
